(** * ascii-webcam-mirror: the pixel-to-glyph pipeline of [src/lib/ascii.ts]

    A shallow embedding of [calculateLuminance], [createBrightnessLUT],
    [calculateGridDimensions] and [imageDataToAscii], and the properties
    the specification states about them.  A second part proves further
    properties of the same functions and of what the two components
    compute around them.

    JavaScript numbers are IEEE 754 binary64 values.  The quotients and
    products of this library ([brightness / 255], [width / cols], the
    luminance weights, the channel means) are not exact, so the embedding
    carries a model of binary64 arithmetic: a number is a rational (the
    value of a finite double), an infinity or NaN, and every operation
    rounds its exact result to the nearest double, ties to even.  The
    rounding is checked against the primitive binary64 numbers of the
    kernel on the operations the library performs.  The sign of zero is
    not modelled: every operand of the library is non-negative. *)

From Stdlib Require Import String Ascii DecimalString.
From Stdlib Require Import Strings.Byte.
From Stdlib Require Import ZArith QArith Qround Qabs Qpower Qreduction.
From Stdlib Require Import Lia Lqa Bool List.
From Stdlib Require PrimFloat FloatOps SpecFloat.
Import ListNotations.

(** ** Binary64 rounding *)

Module Float64.

Local Open Scope Q_scope.

(** [pow2 k] is 2^k for any integer [k]. *)
Definition pow2 (k : Z) : Q := Qpower 2 k.

(** Exponent of the binade of a positive rational:
    [pow2 (ilog2 x) <= x < pow2 (ilog2 x + 1)]. *)
Definition ilog2 (x : Q) : Z :=
  let e := (Z.log2 (Qnum x) - Z.log2 (Zpos (Qden x)))%Z in
  if Qle_bool (pow2 e) x then e else (e - 1)%Z.

(** Nearest integer, ties to the even one. *)
Definition rne (t : Q) : Z :=
  let f := Qfloor t in
  match Qcompare (t - inject_Z f) (1 # 2) with
  | Lt => f
  | Gt => (f + 1)%Z
  | Eq => if Z.even f then f else (f + 1)%Z
  end.

(** Smallest exponent of a normal double; below it the spacing of the
    doubles no longer shrinks (subnormal numbers). *)
Definition emin : Z := -1022.

(** Exponent of the unit in the last place of the 53-bit significand. *)
Definition ulp_exp (x : Q) : Z := (Z.max (ilog2 x) emin - 52)%Z.

(** Rounding of a positive rational to 53 significant bits. *)
Definition round_pos (x : Q) : Q :=
  inject_Z (rne (x / pow2 (ulp_exp x))) * pow2 (ulp_exp x).

(** A JavaScript number. *)
Inductive number : Type :=
| Fin (q : Q)
| PInf
| NInf
| NaN.

(** The Number value for a rational: the nearest double, an infinity when
    the rounded magnitude reaches 2^1024.  Finite results are kept in
    lowest terms, so that equal values are equal terms. *)
Definition round (x : Q) : number :=
  match Qcompare x 0 with
  | Eq => Fin 0
  | Gt => let r := round_pos x in
          if Qle_bool (pow2 1024) r then PInf else Fin (Qred r)
  | Lt => let r := round_pos (- x) in
          if Qle_bool (pow2 1024) r then NInf else Fin (Qred (- r))
  end.

Definition of_Z (z : Z) : number := round (inject_Z z).

Definition is_zero (q : Q) : bool := Qeq_bool q 0.
Definition is_neg (q : Q) : bool := negb (Qle_bool 0 q).

Definition fneg (a : number) : number :=
  match a with
  | Fin x => Fin (Qred (- x))
  | PInf => NInf
  | NInf => PInf
  | NaN => NaN
  end.

(** [a + b] *)
Definition fadd (a b : number) : number :=
  match a, b with
  | NaN, _ | _, NaN => NaN
  | Fin x, Fin y => round (x + y)
  | PInf, NInf | NInf, PInf => NaN
  | PInf, _ | _, PInf => PInf
  | NInf, _ | _, NInf => NInf
  end.

(** [a - b] *)
Definition fsub (a b : number) : number := fadd a (fneg b).

(** [a * b] *)
Definition fmul (a b : number) : number :=
  match a, b with
  | NaN, _ | _, NaN => NaN
  | Fin x, Fin y => round (x * y)
  | Fin x, PInf | PInf, Fin x =>
      if is_zero x then NaN else if is_neg x then NInf else PInf
  | Fin x, NInf | NInf, Fin x =>
      if is_zero x then NaN else if is_neg x then PInf else NInf
  | PInf, PInf | NInf, NInf => PInf
  | PInf, NInf | NInf, PInf => NInf
  end.

(** [a / b]; a finite number over an infinity is the one zero of the
    model. *)
Definition fdiv (a b : number) : number :=
  match a, b with
  | NaN, _ | _, NaN => NaN
  | Fin x, Fin y =>
      if is_zero y
      then (if is_zero x then NaN else if is_neg x then NInf else PInf)
      else round (x / y)
  | Fin _, (PInf | NInf) => Fin 0
  | PInf, Fin y => if is_neg y then NInf else PInf
  | NInf, Fin y => if is_neg y then PInf else NInf
  | (PInf | NInf), (PInf | NInf) => NaN
  end.

(** [a < b] and [a > b]; any comparison with NaN is false. *)
Definition flt (a b : number) : bool :=
  match a, b with
  | NaN, _ | _, NaN => false
  | Fin x, Fin y => negb (Qle_bool y x)
  | NInf, (Fin _ | PInf) => true
  | Fin _, PInf => true
  | _, _ => false
  end.

Definition fgt (a b : number) : bool := flt b a.

(** [Math.floor] *)
Definition Math_floor (a : number) : number :=
  match a with
  | Fin x => Fin (inject_Z (Qfloor x))
  | _ => a
  end.

(** [Math.round]: the nearest integer, a tie going to the larger one. *)
Definition Math_round (a : number) : number :=
  match a with
  | Fin x => Fin (inject_Z (Qfloor (x + (1 # 2))))
  | _ => a
  end.

(** The integer a number is, if it is one. *)
Definition to_int (a : number) : option Z :=
  match a with
  | Fin x => if Qeq_bool x (inject_Z (Qfloor x)) then Some (Qfloor x) else None
  | _ => None
  end.

End Float64.

Import Float64.

(** The number an integer is. *)
Abbreviation int z := (Fin (inject_Z z)).

(** ** Strings, values and arrays *)

(** A JavaScript string is a sequence of UTF-16 code units. *)
Definition code_unit : Type := N.
Definition jsstring : Type := list code_unit.

(** The string of an ASCII literal. *)
Definition lit (s : string) : jsstring :=
  map N_of_ascii (list_ascii_of_string s).

(** The line terminator ['\n']. *)
Definition newline : code_unit := 10%N.

(** What an element access can yield: a string, or [undefined] when the
    index names no element. *)
Inductive value : Type :=
| VUndefined
| VString (s : jsstring).

(** String conversion, as [+=] on a string applies it. *)
Definition to_string (v : value) : jsstring :=
  match v with
  | VUndefined => lit "undefined"
  | VString s => s
  end.

(** The array index a number is: a non-negative integer. *)
Definition index_of (i : number) : option nat :=
  match to_int i with
  | Some z => if (0 <=? z)%Z then Some (Z.to_nat z) else None
  | None => None
  end.

(** [s[i]] on a string: the one-unit string at [i]. *)
Definition string_at (s : jsstring) (i : number) : value :=
  match index_of i with
  | Some k => match nth_error s k with
              | Some c => VString [c]
              | None => VUndefined
              end
  | None => VUndefined
  end.

(** [a[i]] on an array of strings. *)
Definition array_at (a : list value) (i : number) : value :=
  match index_of i with
  | Some k => nth k a VUndefined
  | None => VUndefined
  end.

(** [a[i] = v] for an index [i] of the loop counter; a write past the end
    extends the array, leaving holes. *)
Fixpoint array_set (a : list value) (i : nat) (v : value) : list value :=
  match i, a with
  | O, [] => [v]
  | O, _ :: t => v :: t
  | S j, [] => VUndefined :: array_set [] j v
  | S j, h :: t => h :: array_set t j v
  end.

(** [data[i]] on a [Uint8ClampedArray], converted to a number as [+=]
    does: an absent element is [undefined], whose number is NaN. *)
Definition data_at (d : list byte) (i : number) : number :=
  match index_of i with
  | Some k => match nth_error d k with
              | Some b => of_Z (Z.of_N (Byte.to_N b))
              | None => NaN
              end
  | None => NaN
  end.

(** Number to string, for the values this library prints: [Math.round]
    yields an integer, NaN or an infinity.  Integers are printed in
    decimal, which is what JavaScript does below 10^21; a fraction is not
    rendered. *)
Definition number_to_string (a : number) : jsstring :=
  match a with
  | NaN => lit "NaN"
  | PInf => lit "Infinity"
  | NInf => lit "-Infinity"
  | Fin _ => match to_int a with
             | Some z => lit (NilZero.string_of_int (Z.to_int z))
             | None => []
             end
  end.

(** The values a counter takes in [for (v = lo; v < hi; v++)] when both
    bounds come from [Math.floor].  A NaN bound makes the test false at
    once.  An infinite bound needs a raster dimension beyond the range of
    binary64, which the 32-bit dimensions of an [ImageData] exclude: on
    a raster buffer every bound is an integer within the raster. *)
Definition for_range (lo hi : number) : list Z :=
  match to_int lo, to_int hi with
  | Some a, Some b =>
      map (fun k => (a + Z.of_nat k)%Z) (seq 0 (Z.to_nat (b - a)))
  | _, _ => []
  end.

(** A thrown [Error] or a returned value. *)
Inductive result (A : Type) : Type :=
| Ok (a : A)
| Throw (message : jsstring).
Arguments Ok {A} a.
Arguments Throw {A} message.

(** ** The library *)

Inductive CharsetName : Type := simple | detailed | blocks.

Definition CHARSETS (name : CharsetName) : jsstring :=
  match name with
  | simple => lit " .:-=+*#%@"
  | detailed =>
      lit " .'^" ++ [34%N] ++
      lit ",:;Il!i><~+_-?][}{1)(|\/*tfjrxnuvczXYUJCLQ0OZmwqpdbkhao*#MW&8%B@$"
  | blocks => [32; 9617; 9618; 9619; 9608]%N
  end.

Definition CHAR_Y_PER_X : number := of_Z 2.

(** A decimal literal denotes the double nearest to it. *)
Module LUMINANCE_WEIGHTS.
Definition R : number := round (2126 # 10000).
Definition G : number := round (7152 # 10000).
Definition B : number := round (722 # 10000).
End LUMINANCE_WEIGHTS.

Definition calculateLuminance (r g b : number) : number :=
  Math_round
    (fadd (fadd (fmul r LUMINANCE_WEIGHTS.R)
                (fmul g LUMINANCE_WEIGHTS.G))
          (fmul b LUMINANCE_WEIGHTS.B)).

(** The index the loop body of [createBrightnessLUT] computes. *)
Definition charIndex (charCount : number) (invert : bool) (brightness : number)
  : number :=
  let i := Math_floor (fmul (fdiv brightness (of_Z 255))
                            (fsub charCount (of_Z 1))) in
  if invert then fsub (fsub charCount (of_Z 1)) i else i.

(** One turn of the loop: [lut[brightness] = charset[charIndex]]. *)
Definition lut_step (charset : jsstring) (invert : bool)
  (lut : list value) (brightness : nat) : list value :=
  let charCount := of_Z (Z.of_nat (length charset)) in
  array_set lut brightness
    (string_at charset
       (charIndex charCount invert (of_Z (Z.of_nat brightness)))).

Definition createBrightnessLUT (charset : jsstring) (invert : bool)
  : result (list value) :=
  match charset with
  | [] => Throw (lit "Charset cannot be empty")
  | _ => Ok (fold_left (lut_step charset invert) (seq 0 256)
                       (repeat VUndefined 256))
  end.

Record grid : Type := { cols : number; rows : number }.

Definition calculateGridDimensions (videoWidth videoHeight cols : number)
  : grid :=
  {| cols := cols;
     rows := Math_floor
               (fdiv videoHeight (fmul (fdiv videoWidth cols) CHAR_Y_PER_X)) |}.

(** An [ImageData]: RGBA bytes in row-major order and the dimensions. *)
Record ImageData : Type := {
  data : list byte;
  width : N;
  height : N
}.

(** The accumulators of one cell. *)
Record sums : Type := {
  totalR : number;
  totalG : number;
  totalB : number;
  pixelCount : number
}.

Definition no_sums : sums :=
  {| totalR := of_Z 0; totalG := of_Z 0; totalB := of_Z 0;
     pixelCount := of_Z 0 |}.

(** The body of the innermost loop, at pixel ([x], [y]). *)
Definition add_pixel (img : ImageData) (y x : Z) (s : sums) : sums :=
  let index := fmul (fadd (fmul (of_Z y) (of_Z (Z.of_N (width img))))
                          (of_Z x))
                    (of_Z 4) in
  {| totalR := fadd (totalR s) (data_at (data img) index);
     totalG := fadd (totalG s) (data_at (data img) (fadd index (of_Z 1)));
     totalB := fadd (totalB s) (data_at (data img) (fadd index (of_Z 2)));
     pixelCount := fadd (pixelCount s) (of_Z 1) |}.

(** The source-pixel rectangle of a cell. *)
Record rect : Type := {
  startX : number;
  endX : number;
  startY : number;
  endY : number
}.

Definition cell_rect (cellWidth cellHeight : number) (row col : nat) : rect :=
  let c := of_Z (Z.of_nat col) in
  let r := of_Z (Z.of_nat row) in
  {| startX := Math_floor (fmul c cellWidth);
     endX := Math_floor (fmul (fadd c (of_Z 1)) cellWidth);
     startY := Math_floor (fmul r cellHeight);
     endY := Math_floor (fmul (fadd r (of_Z 1)) cellHeight) |}.

(** The two pixel loops over the rectangle of a cell. *)
Definition cell_sums (img : ImageData) (r : rect) : sums :=
  fold_left
    (fun s y =>
       fold_left (fun s x => add_pixel img y x s)
                 (for_range (startX r) (endX r)) s)
    (for_range (startY r) (endY r)) no_sums.

(** The sums of the cell at ([row], [col]). *)
Definition cell (img : ImageData) (cellWidth cellHeight : number)
  (row col : nat) : sums :=
  cell_sums img (cell_rect cellWidth cellHeight row col).

Definition avgR (s : sums) : number := fdiv (totalR s) (pixelCount s).
Definition avgG (s : sums) : number := fdiv (totalG s) (pixelCount s).
Definition avgB (s : sums) : number := fdiv (totalB s) (pixelCount s).

(** The template [`rgb(${Math.round(avgR)}, ...)`]. *)
Definition rgb (s : sums) : jsstring :=
  lit "rgb(" ++ number_to_string (Math_round (avgR s)) ++
  lit ", " ++ number_to_string (Math_round (avgG s)) ++
  lit ", " ++ number_to_string (Math_round (avgB s)) ++ lit ")".

(** The state of a row: [rowString] and [rowColor]. *)
Record row_state : Type := { rowString : jsstring; rowColor : jsstring }.

(** What one cell adds to its row. *)
Definition emit (lut : list value) (colorMode : bool) (s : sums)
  (st : row_state) : row_state :=
  if fgt (pixelCount s) (of_Z 0) then
    let brightness := calculateLuminance (avgR s) (avgG s) (avgB s) in
    let char := array_at lut brightness in
    {| rowString := rowString st ++ to_string char;
       rowColor := if colorMode then rgb s else rowColor st |}
  else
    {| rowString := rowString st ++ to_string (array_at lut (of_Z 0));
       rowColor := rowColor st |}.

(** The loop over the columns of one row. *)
Definition convert_row (img : ImageData) (cellWidth cellHeight : number)
  (lut : list value) (colorMode : bool) (cols row : nat) : row_state :=
  fold_left
    (fun st col =>
       emit lut colorMode (cell img cellWidth cellHeight row col) st)
    (seq 0 cols) {| rowString := []; rowColor := [] |}.

(** The result object: [colors] is present in color mode only. *)
Record conversion : Type := {
  ascii : jsstring;
  colors : option (list jsstring)
}.

(** Grid sizes are counts: the loops run [row] and [col] through
    0, 1, 2, ... below [rows] and [cols].  No statement of the function
    throws, so the embedding returns the result object itself. *)
Definition imageDataToAscii (img : ImageData) (cols rows : nat)
  (lut : list value) (colorMode : bool) : conversion :=
  let cellWidth := fdiv (of_Z (Z.of_N (width img))) (of_Z (Z.of_nat cols)) in
  let cellHeight :=
    fdiv (of_Z (Z.of_N (height img))) (of_Z (Z.of_nat rows)) in
  let out :=
    fold_left
      (fun acc row =>
         let st :=
           convert_row img cellWidth cellHeight lut colorMode cols row in
         (fst acc ++ (rowString st ++ [newline]),
          if colorMode then snd acc ++ [rowColor st] else snd acc))
      (seq 0 rows) ([], []) in
  {| ascii := fst out;
     colors := if colorMode then Some (snd out) else None |}.

(** ** Vocabulary of the specification *)

(** The pixels ([y], [x]) the two loops visit in a rectangle, in order. *)
Definition pixels (r : rect) : list (Z * Z) :=
  flat_map (fun y => map (fun x => (y, x)) (for_range (startX r) (endX r)))
           (for_range (startY r) (endY r)).

(** The cell widths and heights [imageDataToAscii] computes. *)
Definition cellWidth_of (img : ImageData) (cols : nat) : number :=
  fdiv (of_Z (Z.of_N (width img))) (of_Z (Z.of_nat cols)).
Definition cellHeight_of (img : ImageData) (rows : nat) : number :=
  fdiv (of_Z (Z.of_N (height img))) (of_Z (Z.of_nat rows)).

(** A raster buffer: four bytes per pixel, [width * height] pixels, the
    dimensions 32-bit as [ImageData] has them.  Below 2^45 pixels every
    channel sum (at most 255 per pixel) is an integer below 2^53, hence
    exact. *)
Definition raster_buffer (img : ImageData) : Prop :=
  (Z.of_N (width img) < 2 ^ 32)%Z /\
  (Z.of_N (height img) < 2 ^ 32)%Z /\
  (Z.of_N (width img) * Z.of_N (height img) < 2 ^ 45)%Z /\
  Z.of_nat (length (data img)) =
    (4 * (Z.of_N (width img) * Z.of_N (height img)))%Z.

(** A glyph is a string of one code unit. *)
Definition is_glyph (v : value) : bool :=
  match v with
  | VString [_] => true
  | _ => false
  end.

(** A brightness table: 256 glyphs. *)
Definition is_lut (lut : list value) : Prop :=
  length lut = 256%nat /\ forallb is_glyph lut = true.

(** A grid size a loop counter can reach: an integer below 2^53. *)
Definition countable (n : nat) : Prop := (Z.of_nat n < 2 ^ 53)%Z.

(** The text of a grid of table indices: the entries of each row in
    order, every row closed by the line terminator. *)
Definition render (lut : list value) (grid : list (list nat)) : jsstring :=
  flat_map
    (fun line =>
       flat_map (fun l => to_string (nth l lut VUndefined)) line ++ [newline])
    grid.

(** The text one cell adds to its row. *)
Definition cell_text (lut : list value) (s : sums) : jsstring :=
  to_string
    (if fgt (pixelCount s) (of_Z 0)
     then array_at lut (calculateLuminance (avgR s) (avgG s) (avgB s))
     else array_at lut (of_Z 0)).

(** A grid of [rows] lines of [cols] table indices below 256. *)
Definition index_grid (cols rows : nat) (grid : list (list nat)) : Prop :=
  length grid = rows /\
  Forall (fun line =>
            length line = cols /\ Forall (fun l => (l < 256)%nat) line)
         grid.

(** Sums that are integers: the channel totals of [n] pixels. *)
Definition exact_sums (n : Z) (s : sums) : Prop :=
  exists tr tg tb : Z,
    s = {| totalR := int tr; totalG := int tg;
           totalB := int tb; pixelCount := int n |} /\
    (0 <= tr <= 255 * n)%Z /\ (0 <= tg <= 255 * n)%Z /\
    (0 <= tb <= 255 * n)%Z.

(** A rectangle of integer bounds inside the raster. *)
Definition rect_within (img : ImageData) (r : rect) : Prop :=
  exists sx ex sy ey : Z,
    r = {| startX := int sx; endX := int ex;
           startY := int sy; endY := int ey |} /\
    (0 <= sx)%Z /\ (0 <= ex <= Z.of_N (width img))%Z /\
    (0 <= sy)%Z /\ (0 <= ey <= Z.of_N (height img))%Z.

(** The table of a result; a thrown error leaves none. *)
Definition table_of (r : result (list value)) : list value :=
  match r with
  | Ok lut => lut
  | Throw _ => []
  end.

(** The table of the built-in charset ["simple"], not inverted. *)
Definition simple_lut : list value :=
  table_of (createBrightnessLUT (CHARSETS simple) false).

(** The 2x2 raster of the end-to-end scenario: every pixel (128,128,128),
    opaque. *)
Definition gray_2x2 : ImageData :=
  {| data := concat (repeat [x80; x80; x80; xff] 4); width := 2; height := 2 |}.

(** The empty raster. *)
Definition empty_image : ImageData :=
  {| data := []; width := 0; height := 0 |}.

(** A single pixel (1,2,3), opaque. *)
Definition one_pixel : ImageData :=
  {| data := [x01; x02; x03; xff]; width := 1; height := 1 |}.

(** Two pixels side by side, (10,20,30) and (40,50,60), opaque. *)
Definition two_pixels : ImageData :=
  {| data := [x0a; x14; x1e; xff; x28; x32; x3c; xff];
     width := 2; height := 1 |}.

(** ** The formulas of the specification

    The two formulas of the specification read in exact arithmetic, to
    be compared with what the code computes in binary64. *)

(** [floor(sourceHeight / ((sourceWidth / columns) * 2))] *)
Definition formula_rows (sourceWidth sourceHeight columns : Z) : Z :=
  Qfloor (inject_Z sourceHeight /
          ((inject_Z sourceWidth / inject_Z columns) * 2)).



(** ** The kernel's binary64 numbers

    The primitive floating-point numbers of the kernel, against which the
    rounding of this file is checked on the operations the library
    performs. *)

Module Kernel64.

Import PrimFloat FloatOps SpecFloat.

(** The primitive float of an integer. *)
Definition float_of (z : Z) : float :=
  SF2Prim (binary_normalize prec emax z 0 false).

(** A primitive float and a number of the model are the same value. *)
Definition same (f : float) (a : number) : bool :=
  match Prim2SF f, a with
  | S754_zero _, Fin r => Qeq_bool 0 r
  | S754_finite s m e, Fin r =>
      Qeq_bool (Qmult (inject_Z (if s then Z.neg m else Z.pos m)) (pow2 e)) r
  | S754_infinity false, PInf => true
  | S754_infinity true, NInf => true
  | S754_nan, NaN => true
  | _, _ => false
  end.

(** The quotient and the product of the glyph index. *)
Definition quotient (b : Z) : float := div (float_of b) (float_of 255).
Definition product (n b : Z) : float := mul (quotient b) (float_of (n - 1)).

(** The weights and the weighted sum of the luminance. *)
Definition weight (tenthousandths : Z) : float :=
  div (float_of tenthousandths) (float_of 10000).

Definition weighted_sum (r g b : Z) : float :=
  add (add (mul (float_of r) (weight 2126)) (mul (float_of g) (weight 7152)))
      (mul (float_of b) (weight 722)).

(** An edge of a cell before the floor. *)
Definition edge (size count k : Z) : float :=
  mul (float_of k) (div (float_of size) (float_of count)).

End Kernel64.

(** The luminances 0 to 255. *)
Definition luminances : list Z := map Z.of_nat (seq 0 256).

(** Channel values the weighted sum is checked on. *)
Definition samples : list Z :=
  [0; 1; 2; 3; 7; 64; 127; 128; 200; 254; 255]%Z.

(** ** Vocabulary of the pixel sums *)

(** The byte of channel [c] (0 red, 1 green, 2 blue, 3 alpha) of the
    pixel ([y], [x]). *)
Definition channel (img : ImageData) (c y x : Z) : Z :=
  match nth_error (data img)
          (Z.to_nat ((y * Z.of_N (width img) + x) * 4 + c)) with
  | Some b => Z.of_N (Byte.to_N b)
  | None => 0%Z
  end.

(** The total of a channel over a list of pixels. *)
Definition channel_total (img : ImageData) (c : Z) (ps : list (Z * Z)) : Z :=
  fold_right (fun p t => (channel img c (fst p) (snd p) + t)%Z) 0%Z ps.

(** Sums that are the integers [tr], [tg], [tb] and [n]. *)
Definition integer_sums (tr tg tb n : Z) : sums :=
  {| totalR := int tr; totalG := int tg; totalB := int tb;
     pixelCount := int n |}.

(** The sums of [n] pixels whose bytes are missing. *)
Definition missing_sums (n : Z) : sums :=
  {| totalR := NaN; totalG := NaN; totalB := NaN; pixelCount := int n |}.

(** A raster of one color: every pixel is ([vr], [vg], [vb]). *)
Definition uniform (img : ImageData) (vr vg vb : Z) : Prop :=
  forall y x : Z,
    (0 <= y < Z.of_N (height img))%Z -> (0 <= x < Z.of_N (width img))%Z ->
    channel img 0 y x = vr /\ channel img 1 y x = vg /\
    channel img 2 y x = vb.

(** The text [rgb(r, g, b)] of three integers. *)
Definition rgb_text (vr vg vb : Z) : jsstring :=
  lit "rgb(" ++ number_to_string (int vr) ++
  lit ", " ++ number_to_string (int vg) ++
  lit ", " ++ number_to_string (int vb) ++ lit ")".

(** ** The components

    What [SimpleAsciiMirror] and [AsciiMirror] compute around the
    library: the row count of a frame, the display of a conversion and
    the hotkeys. *)

(** The row count of [animate] in [SimpleAsciiMirror]:
    [Math.floor(videoHeight / (videoWidth / cols) * 0.5)]. *)
Definition animate_rows (videoWidth videoHeight cols : number) : number :=
  Math_floor (fmul (fdiv videoHeight (fdiv videoWidth cols)) (round (1 # 2))).

(** *** The display of a conversion *)

(** [s.split(sep)] for a separator of one code unit: the pieces of [s]
    between the separators, in order; a string without separator is its
    only piece. *)
Fixpoint split (sep : code_unit) (s : jsstring) : list jsstring :=
  match s with
  | [] => [[]]
  | c :: t =>
      if N.eqb c sep then [] :: split sep t
      else match split sep t with
           | l :: ls => (c :: l) :: ls
           | [] => [[c]]
           end
  end.

(** [colors[index] || fallback]: an absent or empty color is replaced. *)
Definition color_or (colors : list jsstring) (index : nat)
  (fallback : jsstring) : jsstring :=
  match nth_error colors index with
  | Some (c :: cs) => c :: cs
  | _ => fallback
  end.

(** What [renderAscii] of [AsciiMirror] shows: nothing, one block per
    line with its color, or the text as it is. *)
Inductive view : Type :=
| Nothing
| Lines (blocks : list (jsstring * jsstring))
| Pre (text : jsstring).

(** [lines.map((line, index) => ...)]: every line with its index. *)
Definition indexed {A : Type} (l : list A) : list (nat * A) :=
  combine (seq 0 (length l)) l.

Definition renderAscii (colorMode : bool) (ascii : jsstring)
  (colors : list jsstring) : view :=
  match ascii with
  | [] => Nothing
  | _ =>
      if colorMode && negb (Nat.eqb (length colors) 0) then
        let lines := split newline ascii in
        Lines (map (fun il => (color_or colors (fst il) (lit "currentColor"),
                               snd il))
                   (indexed lines))
      else Pre ascii
  end.

(** *** The hotkeys of [SimpleAsciiMirror] *)

(** [Math.max] and [Math.min] of two numbers; NaN if either is. *)
Definition Math_max (a b : number) : number :=
  match a, b with
  | NaN, _ | _, NaN => NaN
  | _, _ => if flt a b then b else a
  end.

Definition Math_min (a b : number) : number :=
  match a, b with
  | NaN, _ | _, NaN => NaN
  | _, _ => if flt b a then b else a
  end.

(** [a === b] on strings. *)
Definition string_equal (a b : jsstring) : bool :=
  if list_eq_dec N.eq_dec a b then true else false.

Module SimpleAsciiMirror.

Record AsciiMirrorSettings : Type := {
  cols : number;
  invert : bool;
  colorMode : bool;
  charset : CharsetName;
  fpsLimit : number;
  isPaused : bool
}.

(** The settings the component starts with. *)
Definition initial : AsciiMirrorSettings :=
  {| cols := of_Z 80; invert := false; colorMode := false;
     charset := simple; fpsLimit := of_Z 24; isPaused := false |}.

(** The settings after a key press.  [typing] says whether the target of
    the event is an input or a select element, [key] is
    [event.key.toLowerCase()].  The handler is registered anew whenever
    the settings change, so the settings it reads are the current ones;
    [updateSettings] replaces the fields given and keeps the others.
    The key ['s'] takes a snapshot and leaves the settings alone. *)
Definition handleKeyDown (typing : bool) (key : jsstring)
  (settings : AsciiMirrorSettings) : AsciiMirrorSettings :=
  if typing then settings
  else if string_equal key (lit " ") then
    {| cols := cols settings; invert := invert settings;
       colorMode := colorMode settings; charset := charset settings;
       fpsLimit := fpsLimit settings; isPaused := negb (isPaused settings) |}
  else if string_equal key (lit "[") then
    {| cols := Math_max (of_Z 40) (fsub (cols settings) (of_Z 5));
       invert := invert settings;
       colorMode := colorMode settings; charset := charset settings;
       fpsLimit := fpsLimit settings; isPaused := isPaused settings |}
  else if string_equal key (lit "]") then
    {| cols := Math_min (of_Z 160) (fadd (cols settings) (of_Z 5));
       invert := invert settings;
       colorMode := colorMode settings; charset := charset settings;
       fpsLimit := fpsLimit settings; isPaused := isPaused settings |}
  else if string_equal key (lit "i") then
    {| cols := cols settings; invert := negb (invert settings);
       colorMode := colorMode settings; charset := charset settings;
       fpsLimit := fpsLimit settings; isPaused := isPaused settings |}
  else if string_equal key (lit "c") then
    {| cols := cols settings; invert := invert settings;
       colorMode := negb (colorMode settings); charset := charset settings;
       fpsLimit := fpsLimit settings; isPaused := isPaused settings |}
  else settings.

(** A run of key presses. *)
Definition after_keys (keys : list (bool * jsstring))
  (settings : AsciiMirrorSettings) : AsciiMirrorSettings :=
  fold_left (fun s k => handleKeyDown (fst k) (snd k) s) keys settings.

End SimpleAsciiMirror.

(** ** Facts on binary64 rounding *)

Section Float64Facts.

Local Open Scope Q_scope.

Lemma pow2_pos (k : Z) : 0 < pow2 k.
Proof. apply Qpower_0_lt. reflexivity. Qed.

Lemma pow2_add (a b : Z) : pow2 (a + b) == pow2 a * pow2 b.
Proof. apply Qpower_plus. discriminate. Qed.

Lemma pow2_le (a b : Z) : (a <= b)%Z -> pow2 a <= pow2 b.
Proof. intro H. apply Qpower_le_compat_l; [exact H | discriminate]. Qed.

Lemma pow2_lt (a b : Z) : (a < b)%Z -> pow2 a < pow2 b.
Proof. intro H. apply Qpower_lt_compat_l; [exact H | reflexivity]. Qed.

Lemma pow2_lt_inv (a b : Z) : pow2 a < pow2 b -> (a < b)%Z.
Proof. intro H. apply (Qpower_lt_compat_l_inv 2); [exact H | reflexivity]. Qed.

Lemma pow2_Z (k : Z) : (0 <= k)%Z -> pow2 k == inject_Z (2 ^ k).
Proof. intro H. unfold pow2. rewrite Zpower_Qpower by exact H. reflexivity. Qed.

Lemma pow2_split (a b : Z) : pow2 a == pow2 (a - b) * pow2 b.
Proof.
  rewrite <- pow2_add. replace (a - b + b)%Z with a by ring. reflexivity.
Qed.

(** The binade of a positive rational. *)
Lemma ilog2_spec (x : Q) :
  0 < x -> pow2 (ilog2 x) <= x /\ x < pow2 (ilog2 x + 1).
Proof.
  intros Hx. destruct x as [n d]. unfold ilog2. cbn [Qnum Qden].
  assert (Hn : (0 < n)%Z) by (unfold Qlt in Hx; cbn in Hx; lia).
  set (ln := Z.log2 n). set (ld := Z.log2 (Zpos d)).
  destruct (Z.log2_spec n Hn) as [Hn1 Hn2].
  destruct (Z.log2_spec (Zpos d) (Pos2Z.is_pos d)) as [Hd1 Hd2].
  fold ln in Hn1, Hn2. fold ld in Hd1, Hd2.
  assert (Hln : (0 <= ln)%Z) by apply Z.log2_nonneg.
  assert (Hld : (0 <= ld)%Z) by apply Z.log2_nonneg.
  assert (Qn1 : pow2 ln <= inject_Z n)
    by (rewrite pow2_Z by exact Hln; rewrite <- Zle_Qle; exact Hn1).
  assert (Qn2 : inject_Z n < pow2 (ln + 1))
    by (rewrite pow2_Z by lia; rewrite <- Zlt_Qlt; exact Hn2).
  assert (Qd1 : pow2 ld <= inject_Z (Zpos d))
    by (rewrite pow2_Z by exact Hld; rewrite <- Zle_Qle; exact Hd1).
  assert (Qd2 : inject_Z (Zpos d) < pow2 (ld + 1))
    by (rewrite pow2_Z by lia; rewrite <- Zlt_Qlt; exact Hd2).
  assert (Hxd : (n # d) * inject_Z (Zpos d) == inject_Z n).
  { rewrite (Qmake_Qdiv n d). field. discriminate. }
  assert (Hdpos : 0 < inject_Z (Zpos d)) by reflexivity.
  pose proof (pow2_pos ld) as Pld.
  (* upper bound: x < 2^(ln + 1 - ld) *)
  assert (Hup : n # d < pow2 (ln - ld + 1)).
  { apply (Qmult_lt_r _ _ (pow2 ld) Pld).
    rewrite <- pow2_add. replace (ln - ld + 1 + ld)%Z with (ln + 1)%Z by ring.
    apply Qle_lt_trans with ((n # d) * inject_Z (Zpos d)).
    - apply Qmult_le_l; [exact Hx | exact Qd1].
    - rewrite Hxd. exact Qn2. }
  (* lower bound: 2^(ln - ld - 1) <= x *)
  assert (Hlo : pow2 (ln - ld - 1) <= n # d).
  { apply (Qmult_le_r _ _ (pow2 (ld + 1)) (pow2_pos _)).
    rewrite <- pow2_add. replace (ln - ld - 1 + (ld + 1))%Z with ln by ring.
    apply Qle_trans with ((n # d) * inject_Z (Zpos d)).
    - rewrite Hxd. exact Qn1.
    - apply Qmult_le_l; [exact Hx | apply Qlt_le_weak; exact Qd2]. }
  destruct (Qle_bool (pow2 (ln - ld)) (n # d)) eqn:E.
  - apply Qle_bool_iff in E. split; [exact E | exact Hup].
  - split.
    + exact Hlo.
    + replace (ln - ld - 1 + 1)%Z with (ln - ld)%Z by ring.
      apply Qnot_le_lt. intro H. apply Qle_bool_iff in H. congruence.
Qed.

Lemma ilog2_mono (x y : Q) : 0 < x -> x <= y -> (ilog2 x <= ilog2 y)%Z.
Proof.
  intros Hx Hxy.
  destruct (ilog2_spec x Hx) as [Hx1 _].
  destruct (ilog2_spec y (Qlt_le_trans _ _ _ Hx Hxy)) as [_ Hy2].
  assert (H : pow2 (ilog2 x) < pow2 (ilog2 y + 1)).
  { eapply Qle_lt_trans; [exact Hx1 |].
    eapply Qle_lt_trans; [exact Hxy | exact Hy2]. }
  apply pow2_lt_inv in H. lia.
Qed.

(** Rounding to the nearest integer. *)
Lemma rne_floor (t : Q) : (Qfloor t <= rne t <= Qfloor t + 1)%Z.
Proof.
  unfold rne. destruct (Qcompare _ _); [destruct (Z.even _) | |]; lia.
Qed.

Lemma rne_upper (t : Q) : inject_Z (rne t) <= t + (1 # 2).
Proof.
  unfold rne. pose proof (Qfloor_le t) as Hf.
  destruct (Qcompare_spec (t - inject_Z (Qfloor t)) (1 # 2)) as [E | E | E].
  - destruct (Z.even _).
    + lra.
    + rewrite inject_Z_plus. change (inject_Z 1) with 1. lra.
  - lra.
  - rewrite inject_Z_plus. change (inject_Z 1) with 1. lra.
Qed.

Lemma rne_int (t : Q) (z : Z) : t == inject_Z z -> rne t = z.
Proof.
  intro E. unfold rne.
  assert (Hf : Qfloor t = z) by (rewrite E; apply Qfloor_Z).
  rewrite Hf.
  destruct (Qcompare_spec (t - inject_Z z) (1 # 2)) as [H | H | H].
  - exfalso. lra.
  - reflexivity.
  - exfalso. lra.
Qed.

Lemma rne_mono (s t : Q) : s <= t -> (rne s <= rne t)%Z.
Proof.
  intro Hst.
  pose proof (Qfloor_resp_le _ _ Hst) as Hf.
  pose proof (rne_floor s) as Hs. pose proof (rne_floor t) as Ht.
  destruct (Z.eq_dec (Qfloor s) (Qfloor t)) as [E | NE]; [| lia].
  unfold rne in *. rewrite E in *.
  destruct (Qcompare_spec (s - inject_Z (Qfloor t)) (1 # 2)) as [H1 | H1 | H1];
    destruct (Qcompare_spec (t - inject_Z (Qfloor t)) (1 # 2)) as [H2 | H2 | H2];
    try lia; try (exfalso; lra); destruct (Z.even _); lia.
Qed.

(** Rounding of positive rationals. *)
Lemma ulp_exp_mono (x y : Q) : 0 < x -> x <= y -> (ulp_exp x <= ulp_exp y)%Z.
Proof.
  intros Hx Hxy. unfold ulp_exp. pose proof (ilog2_mono x y Hx Hxy). lia.
Qed.

Lemma scaled_lt (x : Q) : 0 < x -> x / pow2 (ulp_exp x) < pow2 53.
Proof.
  intro Hx. destruct (ilog2_spec x Hx) as [_ H2].
  apply Qlt_shift_div_r; [apply pow2_pos |].
  rewrite <- pow2_add.
  eapply Qlt_le_trans; [exact H2 |].
  apply pow2_le. unfold ulp_exp. lia.
Qed.

Lemma round_pos_nonneg (x : Q) : 0 < x -> 0 <= round_pos x.
Proof.
  intro Hx. unfold round_pos.
  apply Qmult_le_0_compat; [| apply Qlt_le_weak, pow2_pos].
  change 0 with (inject_Z 0). rewrite <- Zle_Qle.
  pose proof (rne_floor (x / pow2 (ulp_exp x))) as [H _].
  assert (0 <= Qfloor (x / pow2 (ulp_exp x)))%Z; [| lia].
  change 0%Z with (Qfloor 0). apply Qfloor_resp_le.
  apply Qle_shift_div_l; [apply pow2_pos | lra].
Qed.

(** The rounded value stays within the closed binade of its argument. *)
Lemma round_pos_le_binade (x : Q) :
  0 < x -> round_pos x <= pow2 (ulp_exp x + 53).
Proof.
  intro Hx. unfold round_pos.
  rewrite (pow2_add (ulp_exp x) 53), (Qmult_comm (pow2 (ulp_exp x))).
  apply Qmult_le_compat_r; [| apply Qlt_le_weak, pow2_pos].
  rewrite (pow2_Z 53) by lia. rewrite <- Zle_Qle.
  rewrite <- (rne_int (inject_Z (2 ^ 53)) (2 ^ 53)) by reflexivity.
  apply rne_mono. rewrite <- pow2_Z by lia.
  apply Qlt_le_weak, scaled_lt, Hx.
Qed.

Lemma round_pos_ge_binade (x : Q) :
  0 < x -> (emin <= ilog2 x)%Z -> pow2 (ilog2 x) <= round_pos x.
Proof.
  intros Hx He. unfold round_pos.
  assert (Hu : ulp_exp x = (ilog2 x - 52)%Z) by (unfold ulp_exp; lia).
  rewrite Hu.
  rewrite (pow2_split (ilog2 x) (ilog2 x - 52)).
  replace (ilog2 x - (ilog2 x - 52))%Z with 52%Z by ring.
  apply Qmult_le_compat_r; [| apply Qlt_le_weak, pow2_pos].
  rewrite (pow2_Z 52) by lia. rewrite <- Zle_Qle.
  rewrite <- (rne_int (inject_Z (2 ^ 52)) (2 ^ 52)) by reflexivity.
  apply rne_mono. rewrite <- pow2_Z by lia.
  apply Qle_shift_div_l; [apply pow2_pos |].
  rewrite <- pow2_add. replace (52 + (ilog2 x - 52))%Z with (ilog2 x) by ring.
  apply ilog2_spec, Hx.
Qed.

Lemma round_pos_mono (x y : Q) : 0 < x -> x <= y -> round_pos x <= round_pos y.
Proof.
  intros Hx Hxy.
  assert (Hy : 0 < y) by (eapply Qlt_le_trans; eassumption).
  pose proof (ulp_exp_mono x y Hx Hxy) as Hu.
  destruct (Z.eq_dec (ulp_exp x) (ulp_exp y)) as [E | NE].
  - unfold round_pos. rewrite E.
    apply Qmult_le_compat_r; [| apply Qlt_le_weak, pow2_pos].
    rewrite <- Zle_Qle. apply rne_mono.
    apply Qle_shift_div_l; [apply pow2_pos |].
    unfold Qdiv.
    rewrite <- Qmult_assoc, (Qmult_comm (/ _)), Qmult_inv_r, Qmult_1_r.
    + exact Hxy.
    + intro H. pose proof (pow2_pos (ulp_exp y)). lra.
  - apply Qle_trans with (pow2 (ulp_exp x + 53)).
    + apply round_pos_le_binade, Hx.
    + apply Qle_trans with (pow2 (ilog2 y)).
      * apply pow2_le. unfold ulp_exp in *. lia.
      * apply round_pos_ge_binade; [exact Hy |]. unfold ulp_exp in *. lia.
Qed.


(** A rational with at most 53 significant bits above 2^-1074 is a double. *)
Lemma round_pos_exact (x : Q) (m k : Z) :
  (0 < m < 2 ^ 53)%Z -> (-1074 <= k)%Z -> x == inject_Z m * pow2 k ->
  round_pos x == x.
Proof.
  intros Hm Hk Ex.
  assert (Hx : 0 < x).
  { rewrite Ex. apply Qmult_lt_0_compat; [| apply pow2_pos].
    change 0 with (inject_Z 0). rewrite <- Zlt_Qlt. lia. }
  assert (Hu : (ulp_exp x <= k)%Z).
  { unfold ulp_exp, emin.
    assert (ilog2 x < 53 + k)%Z; [| lia].
    apply pow2_lt_inv. destruct (ilog2_spec x Hx) as [H1 _].
    eapply Qle_lt_trans; [exact H1 |].
    rewrite Ex, pow2_add.
    apply Qmult_lt_compat_r; [apply pow2_pos |].
    rewrite (pow2_Z 53) by lia. rewrite <- Zlt_Qlt. lia. }
  unfold round_pos.
  set (u := ulp_exp x) in *.
  assert (Et : x / pow2 u == inject_Z (m * 2 ^ (k - u))).
  { rewrite inject_Z_mult, <- pow2_Z by lia.
    rewrite Ex, (pow2_split k u). field.
    intro H. pose proof (pow2_pos u). lra. }
  rewrite (rne_int _ _ Et), inject_Z_mult, <- pow2_Z by lia.
  rewrite Ex, (pow2_split k u). ring.
Qed.

(** In the normal range the rounding error is at most 2^-53 of the value. *)
Lemma round_pos_error (x : Q) :
  pow2 emin <= x -> round_pos x <= x * (1 + pow2 (-53)).
Proof.
  intro Hmin.
  assert (Hx : 0 < x)
    by (eapply Qlt_le_trans; [apply (pow2_pos emin) | exact Hmin]).
  destruct (ilog2_spec x Hx) as [H1 H2].
  assert (He : (emin <= ilog2 x)%Z).
  { assert (emin < ilog2 x + 1)%Z; [| lia].
    apply pow2_lt_inv. eapply Qle_lt_trans; eassumption. }
  assert (Hu : ulp_exp x = (ilog2 x - 52)%Z) by (unfold ulp_exp; lia).
  unfold round_pos. rewrite Hu.
  set (u := pow2 (ilog2 x - 52)).
  assert (Pu : 0 < u) by apply pow2_pos.
  pose proof (rne_upper (x / u)) as Hr.
  apply Qle_trans with ((x / u + (1 # 2)) * u).
  - apply Qmult_le_compat_r; [exact Hr | lra].
  - assert (E : (x / u + (1 # 2)) * u == x + (1 # 2) * u)
      by (field; intro H; lra).
    rewrite E.
    assert (Hh : (1 # 2) * u == pow2 (ilog2 x) * pow2 (-53)).
    { unfold u.
      rewrite (pow2_split (ilog2 x - 52) (-53)),
              (pow2_split (ilog2 x - 52 - -53) (ilog2 x)).
      replace (ilog2 x - 52 - -53 - ilog2 x)%Z with 1%Z by ring.
      change (pow2 1) with 2. change (pow2 (-53)) with (1 # 2 ^ 53).
      ring_simplify.
      reflexivity. }
    rewrite Hh.
    assert (pow2 (ilog2 x) * pow2 (-53) <= x * pow2 (-53)).
    { apply Qmult_le_compat_r; [exact H1 | apply Qlt_le_weak, pow2_pos]. }
    lra.
Qed.

(** *** The Number value of a non-negative rational *)

Lemma round_zero (x : Q) : x == 0 -> round x = Fin 0.
Proof.
  intro E. unfold round.
  destruct (Qcompare_spec x 0) as [H | H | H]; [reflexivity | lra | lra].
Qed.

Lemma round_positive (x : Q) :
  0 < x ->
  round x = if Qle_bool (pow2 1024) (round_pos x) then PInf
            else Fin (Qred (round_pos x)).
Proof.
  intro Hx. unfold round.
  destruct (Qcompare_spec x 0) as [H | H | H]; [lra | lra | reflexivity].
Qed.

(** Rounding is monotone: a finite result bounds the results below it. *)
Lemma round_le (x y ry : Q) :
  0 <= x -> x <= y -> round y = Fin ry ->
  exists rx, round x = Fin rx /\ 0 <= rx /\ rx <= ry.
Proof.
  intros Hx Hxy Ey.
  assert (Hry : 0 < y -> round_pos y < pow2 1024 /\ ry == round_pos y).
  { intro Hy. rewrite (round_positive y Hy) in Ey.
    destruct (Qle_bool (pow2 1024) (round_pos y)) eqn:B; [discriminate |].
    assert (E : ry = Qred (round_pos y)) by congruence.
    split; [| rewrite E; apply Qred_correct].
    apply Qnot_le_lt. intro H. apply Qle_bool_iff in H. congruence. }
  destruct (Qlt_le_dec 0 x) as [Px | Nx].
  - assert (Hy : 0 < y) by lra.
    destruct (Hry Hy) as [Hb Er].
    pose proof (round_pos_mono x y Px Hxy) as Hm.
    rewrite (round_positive x Px).
    destruct (Qle_bool (pow2 1024) (round_pos x)) eqn:B.
    + apply Qle_bool_iff in B. exfalso. lra.
    + eexists. split; [reflexivity |]. rewrite Qred_correct, Er.
      split; [apply round_pos_nonneg, Px | exact Hm].
  - exists 0. split; [apply round_zero; lra |]. split; [lra |].
    destruct (Qlt_le_dec 0 y) as [Py | Ny].
    + destruct (Hry Py) as [_ Er]. rewrite Er. apply round_pos_nonneg, Py.
    + rewrite round_zero in Ey by lra.
      assert (E : ry = 0) by congruence. rewrite E. lra.
Qed.

Lemma Qred_inject_Z (z : Z) : Qred (inject_Z z) = inject_Z z.
Proof.
  unfold Qred, inject_Z.
  generalize (Z.ggcd_gcd z 1) (Z.ggcd_correct_divisors z 1).
  destruct (Z.ggcd z 1) as [g [a b]]. cbn [fst snd].
  rewrite Z.gcd_1_r. intros -> [Ha Hb].
  rewrite Z.mul_1_l in Ha, Hb. subst a b. reflexivity.
Qed.

(** A rational with at most 53 significant bits is its own Number value. *)
Lemma round_exact (x : Q) (m k : Z) :
  (0 <= m < 2 ^ 53)%Z -> (-1074 <= k <= 970)%Z -> x == inject_Z m * pow2 k ->
  round x = Fin (Qred x).
Proof.
  intros Hm Hk Ex.
  destruct (Z.eq_dec m 0) as [-> | Nm].
  - assert (E0 : x == 0) by (rewrite Ex; ring).
    rewrite (round_zero x E0). f_equal. symmetry.
    change 0 with (Qred 0). apply Qred_complete, E0.
  - assert (Hx : 0 < x).
    { rewrite Ex. apply Qmult_lt_0_compat; [| apply pow2_pos].
      change 0 with (inject_Z 0). rewrite <- Zlt_Qlt. lia. }
    assert (Er : round_pos x == x)
      by (apply (round_pos_exact x m k); [lia | lia | exact Ex]).
    rewrite (round_positive x Hx).
    destruct (Qle_bool (pow2 1024) (round_pos x)) eqn:B.
    + apply Qle_bool_iff in B. exfalso.
      assert (x < pow2 1024); [| lra].
      rewrite Ex. apply Qlt_le_trans with (pow2 53 * pow2 k).
      * apply Qmult_lt_compat_r; [apply pow2_pos |].
        rewrite (pow2_Z 53) by lia. rewrite <- Zlt_Qlt. lia.
      * rewrite <- pow2_add. apply pow2_le. lia.
    + f_equal. apply Qred_complete, Er.
Qed.

(** Integers below 2^53 are doubles. *)
Lemma round_int (x : Q) (z : Z) :
  (0 <= z < 2 ^ 53)%Z -> x == inject_Z z -> round x = Fin (inject_Z z).
Proof.
  intros Hz Ex.
  rewrite (round_exact x z 0 Hz);
    [| lia | rewrite Ex; change (pow2 0) with 1; ring].
  f_equal. rewrite <- (Qred_inject_Z z). apply Qred_complete, Ex.
Qed.


(** A value between two doubles rounds to a double between them. *)
Lemma round_below (x hi : Q) (m k : Z) :
  0 <= x -> x <= hi ->
  (0 <= m < 2 ^ 53)%Z -> (-1074 <= k <= 970)%Z -> hi == inject_Z m * pow2 k ->
  exists r, round x = Fin r /\ 0 <= r /\ r <= hi.
Proof.
  intros Hx Hxh Hm Hk Eh.
  destruct (round_le x hi (Qred hi) Hx Hxh (round_exact hi m k Hm Hk Eh))
    as [r [Er [H0 H1]]].
  exists r. rewrite Qred_correct in H1. auto.
Qed.

Lemma round_above (x lo : Q) (m k : Z) (r : Q) :
  lo <= x -> (0 <= m < 2 ^ 53)%Z -> (-1074 <= k <= 970)%Z ->
  lo == inject_Z m * pow2 k -> round x = Fin r -> lo <= r.
Proof.
  intros Hlx Hm Hk El Er.
  assert (H0 : 0 <= lo).
  { rewrite El. apply Qmult_le_0_compat; [| apply Qlt_le_weak, pow2_pos].
    change 0 with (inject_Z 0). rewrite <- Zle_Qle. lia. }
  destruct (round_le lo x r H0 Hlx Er) as [rl [E1 [_ H1]]].
  rewrite (round_exact lo m k Hm Hk El) in E1.
  assert (E : rl = Qred lo) by congruence.
  rewrite E, Qred_correct in H1. exact H1.
Qed.

(** In the normal range a finite result exceeds the value by at most
    2^-53 of it. *)
Lemma round_error (x : Q) :
  pow2 emin <= x -> x * (1 + pow2 (-53)) < pow2 1024 ->
  exists r, round x = Fin r /\ 0 <= r /\ r <= x * (1 + pow2 (-53)).
Proof.
  intros Hmin Hmax.
  assert (Hx : 0 < x)
    by (eapply Qlt_le_trans; [apply (pow2_pos emin) | exact Hmin]).
  pose proof (round_pos_error x Hmin) as He.
  rewrite (round_positive x Hx).
  destruct (Qle_bool (pow2 1024) (round_pos x)) eqn:B.
  - apply Qle_bool_iff in B. exfalso. lra.
  - eexists. split; [reflexivity |]. rewrite Qred_correct.
    split; [apply round_pos_nonneg, Hx | exact He].
Qed.

End Float64Facts.

(** ** Agreement with the kernel's binary64 arithmetic *)

Section Agreement.

Lemma quotients_agree :
  forallb (fun b => Kernel64.same (Kernel64.quotient b)
                                  (fdiv (of_Z b) (of_Z 255)))
          luminances = true.
Proof. vm_compute. reflexivity. Qed.

Lemma products_agree :
  forallb
    (fun n =>
       forallb (fun b => Kernel64.same (Kernel64.product n b)
                           (fmul (fdiv (of_Z b) (of_Z 255))
                                 (fsub (of_Z n) (of_Z 1))))
               luminances)
    [1; 2; 5; 10; 52; 70; 256; 1000]%Z = true.
Proof. vm_compute. reflexivity. Qed.

Lemma weights_agree :
  Kernel64.same (Kernel64.weight 2126) LUMINANCE_WEIGHTS.R = true /\
  Kernel64.same (Kernel64.weight 7152) LUMINANCE_WEIGHTS.G = true /\
  Kernel64.same (Kernel64.weight 722) LUMINANCE_WEIGHTS.B = true.
Proof. vm_compute. auto. Qed.

Lemma weighted_sums_agree :
  forallb
    (fun r =>
       forallb
         (fun g =>
            forallb
              (fun b =>
                 Kernel64.same (Kernel64.weighted_sum r g b)
                   (fadd (fadd (fmul (of_Z r) LUMINANCE_WEIGHTS.R)
                               (fmul (of_Z g) LUMINANCE_WEIGHTS.G))
                         (fmul (of_Z b) LUMINANCE_WEIGHTS.B)))
              samples)
         samples)
    samples = true.
Proof. vm_compute. reflexivity. Qed.

(** Ties, subnormal numbers, overflow and the quotients by zero. *)
Lemma extremes_agree :
  Kernel64.same (Kernel64.float_of (2 ^ 53 + 1)) (of_Z (2 ^ 53 + 1)) = true /\
  Kernel64.same (Kernel64.float_of (2 ^ 53 + 3)) (of_Z (2 ^ 53 + 3)) = true /\
  Kernel64.same (Kernel64.float_of (2 ^ 1024 - 2 ^ 970 - 1))
                (of_Z (2 ^ 1024 - 2 ^ 970 - 1)) = true /\
  Kernel64.same (Kernel64.float_of (2 ^ 1024 - 2 ^ 970))
                (of_Z (2 ^ 1024 - 2 ^ 970)) = true /\
  Kernel64.same (PrimFloat.mul (Kernel64.float_of (2 ^ 1023)) (Kernel64.float_of 2))
                (fmul (of_Z (2 ^ 1023)) (of_Z 2)) = true /\
  Kernel64.same (PrimFloat.div (Kernel64.float_of 480) (Kernel64.float_of 0))
                (fdiv (of_Z 480) (of_Z 0)) = true /\
  Kernel64.same (PrimFloat.div (Kernel64.float_of 0) (Kernel64.float_of 0))
                (fdiv (of_Z 0) (of_Z 0)) = true /\
  Kernel64.same (PrimFloat.sub (Kernel64.float_of 9) (Kernel64.float_of 4))
                (fsub (of_Z 9) (of_Z 4)) = true /\
  forallb
    (fun k =>
       Kernel64.same
         (PrimFloat.div
            (PrimFloat.div (Kernel64.float_of k) (Kernel64.float_of (2 ^ 1023)))
            (Kernel64.float_of (2 ^ 52)))
         (fdiv (fdiv (of_Z k) (of_Z (2 ^ 1023))) (of_Z (2 ^ 52))))
    [1; 2; 3; 4; 5; 6; 7; 1023; 4503599627370497]%Z = true.
Proof. vm_compute. repeat split. Qed.

Lemma cell_edges_agree :
  forallb
    (fun size =>
       forallb
         (fun count =>
            forallb
              (fun k => Kernel64.same (Kernel64.edge size count k)
                          (fmul (of_Z k) (fdiv (of_Z size) (of_Z count))))
              [0; 1; count - 1; count]%Z)
         [1; 2; 3; 7; 49; 80; 93; 120; 641]%Z)
    [0; 1; 2; 3; 640; 1920; 4294967295]%Z = true.
Proof. vm_compute. reflexivity. Qed.

End Agreement.

(** ** Arithmetic on integers below 2^53 is exact *)

Section Exact.

Local Open Scope Z_scope.

Lemma of_Z_exact (z : Z) : 0 <= z < 2 ^ 53 -> of_Z z = int z.
Proof. intro Hz. apply round_int; [exact Hz | reflexivity]. Qed.

Lemma fadd_exact (a b : Z) :
  0 <= a -> 0 <= b -> a + b < 2 ^ 53 -> fadd (int a) (int b) = int (a + b).
Proof.
  intros Ha Hb Hab. cbn [fadd]. apply round_int; [lia |].
  rewrite inject_Z_plus. reflexivity.
Qed.

Lemma fmul_exact (a b : Z) :
  0 <= a -> 0 <= b -> a * b < 2 ^ 53 -> fmul (int a) (int b) = int (a * b).
Proof.
  intros Ha Hb Hab. cbn [fmul]. apply round_int; [lia |].
  rewrite inject_Z_mult. reflexivity.
Qed.

Lemma fsub_exact (a b : Z) :
  0 <= b <= a -> a < 2 ^ 53 -> fsub (int a) (int b) = int (a - b).
Proof.
  intros Hab Ha. unfold fsub. cbn [fneg fadd]. apply round_int; [lia |].
  rewrite Qred_correct. unfold Z.sub. rewrite inject_Z_plus, inject_Z_opp.
  reflexivity.
Qed.

Lemma to_int_int (z : Z) : to_int (int z) = Some z.
Proof.
  cbn [to_int]. rewrite Qfloor_Z.
  assert (E : Qeq_bool (inject_Z z) (inject_Z z) = true)
    by (apply Qeq_bool_iff; reflexivity).
  rewrite E. reflexivity.
Qed.

Lemma index_of_int (z : Z) : 0 <= z -> index_of (int z) = Some (Z.to_nat z).
Proof.
  intro Hz. unfold index_of. rewrite to_int_int.
  destruct (Z.leb_spec 0 z); [reflexivity | lia].
Qed.

Lemma flt_int (a b : Z) : flt (int a) (int b) = (a <? b).
Proof.
  cbn [flt]. destruct (Z.ltb_spec a b) as [H | H].
  - destruct (Qle_bool (inject_Z b) (inject_Z a)) eqn:E; [| reflexivity].
    apply Qle_bool_iff in E. rewrite <- Zle_Qle in E. lia.
  - assert (E : Qle_bool (inject_Z b) (inject_Z a) = true)
      by (apply Qle_bool_iff; rewrite <- Zle_Qle; exact H).
    rewrite E. reflexivity.
Qed.

Lemma for_range_int (a b : Z) :
  for_range (int a) (int b) =
  map (fun k => a + Z.of_nat k) (seq 0 (Z.to_nat (b - a))).
Proof. unfold for_range. rewrite !to_int_int. reflexivity. Qed.

Lemma in_for_range (a b x : Z) : In x (for_range (int a) (int b)) -> a <= x < b.
Proof.
  rewrite for_range_int, in_map_iff. intros [k [<- Hk]].
  apply in_seq in Hk. lia.
Qed.

Lemma length_for_range (a b : Z) :
  a <= b -> Z.of_nat (length (for_range (int a) (int b))) = b - a.
Proof.
  intro H. rewrite for_range_int, length_map, length_seq. lia.
Qed.

End Exact.

(** ** The lookup table *)

Section Table.

Lemma length_array_set (a : list value) (i : nat) (v : value) :
  (i < length a)%nat -> length (array_set a i v) = length a.
Proof.
  revert i. induction a as [| h t IH]; intros i Hi; [inversion Hi |].
  destruct i as [| j]; cbn; [reflexivity |].
  rewrite IH; [reflexivity | cbn in Hi; lia].
Qed.

Lemma nth_array_set (a : list value) (i j : nat) (v : value) :
  (i < length a)%nat ->
  nth j (array_set a i v) VUndefined =
  if Nat.eqb j i then v else nth j a VUndefined.
Proof.
  revert i j. induction a as [| h t IH]; intros i j Hi; [inversion Hi |].
  destruct i as [| i']; destruct j as [| j']; cbn; try reflexivity.
  apply IH. cbn in Hi. lia.
Qed.

(** A loop that stores [f k] at every index [k] of a range leaves the
    other entries alone. *)
Lemma fold_array_set (f : nat -> value) (n s : nat) (a : list value) :
  (s + n <= length a)%nat ->
  let r := fold_left (fun l k => array_set l k (f k)) (seq s n) a in
  length r = length a /\
  forall j, nth j r VUndefined =
            if (s <=? j)%nat && (j <? s + n)%nat then f j
            else nth j a VUndefined.
Proof.
  revert s a. induction n as [| n IH]; intros s a Hs; cbn [seq fold_left].
  - split; [reflexivity |]. intro j.
    destruct (Nat.leb_spec s j); destruct (Nat.ltb_spec j (s + 0)); cbn;
      try reflexivity; lia.
  - assert (Hlen : length (array_set a s (f s)) = length a)
      by (apply length_array_set; lia).
    destruct (IH (S s) (array_set a s (f s))) as [L N]; [lia |].
    split; [rewrite L; exact Hlen |]. intro j. rewrite N.
    rewrite nth_array_set by lia.
    destruct (Nat.leb_spec (S s) j); destruct (Nat.ltb_spec j (S s + n));
      destruct (Nat.leb_spec s j); destruct (Nat.ltb_spec j (s + S n));
      destruct (Nat.eqb_spec j s); cbn; try subst j; try reflexivity; lia.
Qed.

(** The table in closed form. *)
Lemma createBrightnessLUT_entries (charset : jsstring) (invert : bool) :
  charset <> [] ->
  exists lut,
    createBrightnessLUT charset invert = Ok lut /\
    length lut = 256%nat /\
    forall b, (b < 256)%nat ->
      nth b lut VUndefined =
      string_at charset
        (charIndex (of_Z (Z.of_nat (length charset))) invert
                   (of_Z (Z.of_nat b))).
Proof.
  intro Hne. unfold createBrightnessLUT.
  destruct charset as [| c cs]; [congruence |].
  eexists. split; [reflexivity |].
  unfold lut_step.
  destruct (fold_array_set
              (fun k => string_at (c :: cs)
                 (charIndex (of_Z (Z.of_nat (length (c :: cs)))) invert
                            (of_Z (Z.of_nat k))))
              256 0 (repeat VUndefined 256)) as [L N].
  - rewrite repeat_length. lia.
  - split; [rewrite L; apply repeat_length |].
    intros b Hb. rewrite N.
    destruct (Nat.leb_spec 0 b); destruct (Nat.ltb_spec b (0 + 256));
      cbn [andb]; try reflexivity; lia.
Qed.

End Table.

(** ** The glyph index *)

Section Index.

Local Open Scope Z_scope.

Lemma Math_floor_int (z : Z) : Math_floor (int z) = int z.
Proof. cbn [Math_floor]. rewrite Qfloor_Z. reflexivity. Qed.

Lemma fdiv_finite (x y : Q) :
  ~ (y == 0)%Q -> fdiv (Fin x) (Fin y) = round (x / y).
Proof.
  intro Hy. cbn [fdiv]. unfold is_zero.
  destruct (Qeq_bool y 0) eqn:E; [| reflexivity].
  apply Qeq_bool_iff in E. contradiction.
Qed.

Lemma inject_Z_nonzero (z : Z) : z <> 0 -> ~ (inject_Z z == 0)%Q.
Proof. intros Hz E. apply Hz. apply (inject_Z_injective z 0). exact E. Qed.

(** [brightness / 255] lies in [0, 1] and grows with the brightness. *)
Lemma ratio_mono (a b : Z) :
  0 <= a <= b -> b <= 255 ->
  exists qa qb,
    fdiv (int a) (int 255) = Fin qa /\ fdiv (int b) (int 255) = Fin qb /\
    (0 <= qa /\ qa <= qb /\ qb <= 1)%Q.
Proof.
  intros Hab Hb.
  rewrite !fdiv_finite by (apply inject_Z_nonzero; lia).
  assert (Ha0 : (0 <= inject_Z a)%Q)
    by (change 0%Q with (inject_Z 0); rewrite <- Zle_Qle; lia).
  assert (Hab' : (inject_Z a <= inject_Z b)%Q) by (rewrite <- Zle_Qle; lia).
  assert (Hb' : (inject_Z b <= inject_Z 255)%Q) by (rewrite <- Zle_Qle; lia).
  assert (H255 : (0 < inject_Z 255)%Q) by reflexivity.
  assert (Hx : (0 <= inject_Z a / inject_Z 255)%Q)
    by (apply Qle_shift_div_l; [exact H255 | lra]).
  assert (Hxy : (inject_Z a / inject_Z 255 <= inject_Z b / inject_Z 255)%Q).
  { apply Qle_shift_div_l; [exact H255 |].
    unfold Qdiv.
    rewrite <- Qmult_assoc, (Qmult_comm (/ _)), Qmult_inv_r by discriminate.
    lra. }
  assert (Hy1 : (inject_Z b / inject_Z 255 <= 1)%Q)
    by (apply Qle_shift_div_r; [exact H255 | lra]).
  destruct (round_below (inject_Z b / inject_Z 255) 1 1 0) as [qb [Eb [_ Hqb]]];
    [lra | exact Hy1 | lia | lia | reflexivity |].
  destruct (round_le _ _ qb Hx Hxy Eb) as [qa [Ea [Hqa Hqab]]].
  exists qa, qb. auto.
Qed.

(** The index of the loop body is an integer of the charset's range and
    does not decrease as the brightness grows. *)
Lemma charIndex_mono (n a b : Z) :
  1 <= n < 2 ^ 53 -> 0 <= a <= b -> b <= 255 ->
  exists ia ib,
    charIndex (of_Z n) false (of_Z a) = int ia /\
    charIndex (of_Z n) false (of_Z b) = int ib /\
    0 <= ia /\ ia <= ib /\ ib <= n - 1.
Proof.
  intros Hn Hab Hb. unfold charIndex.
  rewrite (of_Z_exact n), (of_Z_exact 1), (of_Z_exact 255),
          (of_Z_exact a), (of_Z_exact b) by lia.
  rewrite fsub_exact by lia.
  destruct (ratio_mono a b Hab Hb) as [qa [qb [Ea [Eb [Hqa [Hqab Hqb]]]]]].
  rewrite Ea, Eb. cbn [fmul].
  assert (Hn0 : (0 <= inject_Z (n - 1))%Q)
    by (change 0%Q with (inject_Z 0); rewrite <- Zle_Qle; lia).
  destruct (round_below (qb * inject_Z (n - 1)) (inject_Z (n - 1)) (n - 1) 0)
    as [pb [Epb [Hpb0 Hpb]]].
  - apply Qmult_le_0_compat; lra.
  - rewrite <- (Qmult_1_l (inject_Z (n - 1))) at 2.
    apply Qmult_le_compat_r; assumption.
  - lia.
  - lia.
  - change (pow2 0) with 1%Q. ring.
  - destruct (round_le (qa * inject_Z (n - 1)) (qb * inject_Z (n - 1)) pb)
      as [pa [Epa [Hpa0 Hpab]]].
    + apply Qmult_le_0_compat; lra.
    + apply Qmult_le_compat_r; assumption.
    + exact Epb.
    + rewrite Epa, Epb. cbn [Math_floor].
      exists (Qfloor pa), (Qfloor pb). repeat split.
      * change 0 with (Qfloor 0). apply Qfloor_resp_le, Hpa0.
      * apply Qfloor_resp_le, Hpab.
      * rewrite <- (Qfloor_Z (n - 1)). apply Qfloor_resp_le, Hpb.
Qed.

Lemma charIndex_darkest (n : Z) :
  1 <= n < 2 ^ 53 -> charIndex (of_Z n) false (of_Z 0) = int 0.
Proof.
  intro Hn. unfold charIndex.
  rewrite (of_Z_exact n), (of_Z_exact 1), (of_Z_exact 255), (of_Z_exact 0)
    by lia.
  rewrite fsub_exact by lia.
  rewrite fdiv_finite by discriminate.
  rewrite (round_zero (inject_Z 0 / inject_Z 255)) by reflexivity.
  cbn [fmul]. rewrite round_zero by ring. reflexivity.
Qed.

Lemma charIndex_brightest (n : Z) :
  1 <= n < 2 ^ 53 -> charIndex (of_Z n) false (of_Z 255) = int (n - 1).
Proof.
  intro Hn. unfold charIndex.
  rewrite (of_Z_exact n), (of_Z_exact 1), (of_Z_exact 255) by lia.
  rewrite fsub_exact by lia.
  rewrite fdiv_finite by discriminate.
  rewrite (round_int (inject_Z 255 / inject_Z 255) 1) by (try lia; reflexivity).
  rewrite fmul_exact by lia.
  rewrite Z.mul_1_l. apply Math_floor_int.
Qed.

(** The same holds for the mirrored index. *)
Lemma charIndex_range (n b : Z) (invert : bool) :
  1 <= n < 2 ^ 53 -> 0 <= b <= 255 ->
  exists i, charIndex (of_Z n) invert (of_Z b) = int i /\ 0 <= i < n.
Proof.
  intros Hn Hb.
  destruct (charIndex_mono n b b Hn) as [ia [i [_ [E [H0 [Hab H1]]]]]];
    [lia | lia |].
  destruct invert.
  - unfold charIndex in *. rewrite E.
    rewrite (of_Z_exact n), (of_Z_exact 1) by lia.
    rewrite !fsub_exact by lia.
    exists (n - 1 - i). split; [reflexivity | lia].
  - exists i. split; [exact E | lia].
Qed.

Lemma string_at_int (s : jsstring) (i : Z) :
  0 <= i < Z.of_nat (length s) ->
  string_at s (int i) = VString [nth (Z.to_nat i) s 0%N].
Proof.
  intro Hi. unfold string_at. rewrite index_of_int by lia.
  rewrite (nth_error_nth' s 0%N) by lia. reflexivity.
Qed.

(** For the three built-in charsets the binary64 index is the exact one,
    [floor(b * (N - 1) / 255)], at every luminance. *)
Remark builtin_index_exact (name : CharsetName) :
  let n := Z.of_nat (length (CHARSETS name)) in
  map (fun b => charIndex (of_Z n) false (of_Z b)) luminances =
  map (fun b => int (b * (n - 1) / 255)) luminances.
Proof. destruct name; vm_compute; reflexivity. Qed.

(** It is not for every charset: at 52 glyphs and luminance 155 the exact
    product is 31, the binary64 product is just below it, and the index
    is 30. *)
Remark index_rounding_52_155 :
  charIndex (of_Z 52) false (of_Z 155) = of_Z 30 /\
  (155 * (52 - 1) / 255 = 31)%Z.
Proof. split; vm_compute; reflexivity. Qed.

(** The same happens to the row count: a source one pixel wide and two
    high at 93 columns has 92 rows, the exact quotient being 93. *)
Remark rows_rounding_1_2_93 :
  rows (calculateGridDimensions (of_Z 1) (of_Z 2) (of_Z 93)) = of_Z 92 /\
  (2 * 93 / (2 * 1) = 93)%Z.
Proof. split; vm_compute; reflexivity. Qed.

End Index.

(** ** The rectangle of a cell *)

Section Rectangle.

Local Open Scope Z_scope.

(** An edge [floor(k * (size / count))] of a cell lies within the raster:
    the quotient is at most 2^-53 above [size / count], the product at
    most 2^-21 above [size], and the floor cuts that off. *)
Lemma cell_edge (size count k : Z) :
  0 <= size < 2 ^ 32 -> 1 <= count < 2 ^ 53 -> 0 <= k <= count ->
  exists e,
    Math_floor (fmul (int k) (fdiv (int size) (int count))) = int e /\
    0 <= e <= size.
Proof.
  intros Hs Hc Hk.
  rewrite fdiv_finite by (apply inject_Z_nonzero; lia).
  assert (Qc : (1 <= inject_Z count)%Q)
    by (change 1%Q with (inject_Z 1); rewrite <- Zle_Qle; lia).
  assert (Qc' : (inject_Z count < 9007199254740992)%Q)
    by (change (inject_Z count < inject_Z 9007199254740992)%Q;
        rewrite <- Zlt_Qlt; lia).
  assert (Qk0 : (0 <= inject_Z k)%Q)
    by (change 0%Q with (inject_Z 0); rewrite <- Zle_Qle; lia).
  assert (Qkc : (inject_Z k <= inject_Z count)%Q) by (rewrite <- Zle_Qle; lia).
  assert (Qs' : (inject_Z size < 4294967296)%Q)
    by (change (inject_Z size < inject_Z 4294967296)%Q;
        rewrite <- Zlt_Qlt; lia).
  destruct (Z.eq_dec size 0) as [-> | Hs0].
  - rewrite round_zero by (unfold Qdiv; ring).
    cbn [fmul]. rewrite round_zero by ring.
    exists 0. split; [reflexivity | lia].
  - assert (Qs : (1 <= inject_Z size)%Q)
      by (change 1%Q with (inject_Z 1); rewrite <- Zle_Qle; lia).
    set (x := (inject_Z size / inject_Z count)%Q).
    assert (Ex : (x * inject_Z count == inject_Z size)%Q)
      by (unfold x; field; lra).
    assert (Hu : (pow2 (-53) = 1 # 9007199254740992)%Q) by reflexivity.
    assert (Hx0 : (pow2 (-53) <= x)%Q).
    { apply Qle_shift_div_l; [lra |]. rewrite Hu. lra. }
    assert (Hxs : (x <= inject_Z size)%Q)
      by (apply Qle_shift_div_r; [lra | nra]).
    destruct (round_error x) as [cw [Ecw [Hcw0 Hcw]]].
    + eapply Qle_trans; [| exact Hx0]. apply pow2_le. unfold emin. lia.
    + apply Qlt_le_trans with (pow2 33).
      * rewrite Hu. change (pow2 33) with 8589934592%Q. nra.
      * apply pow2_le. lia.
    + rewrite Ecw. cbn [fmul].
      set (hi := (inject_Z size + (1 # 2097152))%Q).
      assert (Hhi : (inject_Z k * cw <= hi)%Q).
      { apply Qle_trans with (inject_Z count * cw)%Q;
          [apply Qmult_le_compat_r; assumption |].
        apply Qle_trans with (inject_Z size * (1 + pow2 (-53)))%Q.
        - rewrite <- Ex. nra.
        - unfold hi. rewrite Hu. lra. }
      destruct (round_below (inject_Z k * cw) hi (size * 2 ^ 21 + 1) (-21))
        as [p [Ep [Hp0 Hp]]].
      * apply Qmult_le_0_compat; assumption.
      * exact Hhi.
      * lia.
      * lia.
      * unfold hi. rewrite inject_Z_plus, inject_Z_mult.
        change (pow2 (-21)) with (1 # 2097152)%Q.
        change (inject_Z (2 ^ 21)) with 2097152%Q.
        change (inject_Z 1) with 1%Q. field.
      * rewrite Ep. cbn [Math_floor]. exists (Qfloor p). split; [reflexivity |].
        split.
        -- change 0 with (Qfloor 0). apply Qfloor_resp_le, Hp0.
        -- assert (H : (inject_Z (Qfloor p) < inject_Z (size + 1))%Q).
           { eapply Qle_lt_trans; [apply Qfloor_le |].
             eapply Qle_lt_trans; [exact Hp |].
             unfold hi. rewrite inject_Z_plus. change (inject_Z 1) with 1%Q.
             lra. }
           rewrite <- Zlt_Qlt in H. lia.
Qed.

End Rectangle.

(** ** Luminance *)

Section Luminance.

(** [evaluate t H] computes the closed term [t] and records the result. *)
Ltac evaluate t H :=
  let v := eval vm_compute in t in
  assert (H : t = v) by (vm_compute; reflexivity).

Local Open Scope Q_scope.

(** A product or sum below that of the largest operands rounds below
    the rounding of theirs. *)
Lemma fmul_le (a w hi p : Q) :
  0 <= a -> a <= hi -> 0 <= w -> round (hi * w) = Fin p ->
  exists r, fmul (Fin a) (Fin w) = Fin r /\ 0 <= r /\ r <= p.
Proof.
  intros Ha Hah Hw Ep. cbn [fmul].
  apply (round_le (a * w) (hi * w) p).
  - apply Qmult_le_0_compat; assumption.
  - apply Qmult_le_compat_r; assumption.
  - exact Ep.
Qed.

Lemma fadd_le (a b ha hb p : Q) :
  0 <= a -> a <= ha -> 0 <= b -> b <= hb -> round (ha + hb) = Fin p ->
  exists r, fadd (Fin a) (Fin b) = Fin r /\ 0 <= r /\ r <= p.
Proof.
  intros Ha Hah Hb Hbh Ep. cbn [fadd].
  apply (round_le (a + b) (ha + hb) p); [lra | lra | exact Ep].
Qed.

(** The luminance of channel means in [0, 255] is an integer of
    [0, 255]: every product and sum is bounded by the one at
    (255, 255, 255), which rounds to 255. *)
Lemma calculateLuminance_range (r g b : Q) :
  0 <= r <= 255 -> 0 <= g <= 255 -> 0 <= b <= 255 ->
  exists l : Z,
    calculateLuminance (Fin r) (Fin g) (Fin b) = int l /\ (0 <= l <= 255)%Z.
Proof.
  intros [Hr0 Hr] [Hg0 Hg] [Hb0 Hb]. unfold calculateLuminance.
  evaluate LUMINANCE_WEIGHTS.R ER.
  evaluate LUMINANCE_WEIGHTS.G EG.
  evaluate LUMINANCE_WEIGHTS.B EB.
  rewrite ER, EG, EB.
  match type of ER with _ = Fin ?w => evaluate (round (255 * w)) Er end.
  match type of EG with _ = Fin ?w => evaluate (round (255 * w)) Eg end.
  match type of EB with _ = Fin ?w => evaluate (round (255 * w)) Eb end.
  match type of Er with round (_ * ?w) = Fin ?p =>
    destruct (fmul_le r w 255 p Hr0 Hr ltac:(discriminate) Er)
      as [xr [Fr [Hxr0 Hxr]]]
  end.
  match type of Eg with round (_ * ?w) = Fin ?p =>
    destruct (fmul_le g w 255 p Hg0 Hg ltac:(discriminate) Eg)
      as [xg [Fg [Hxg0 Hxg]]]
  end.
  match type of Eb with round (_ * ?w) = Fin ?p =>
    destruct (fmul_le b w 255 p Hb0 Hb ltac:(discriminate) Eb)
      as [xb [Fb [Hxb0 Hxb]]]
  end.
  rewrite Fr, Fg, Fb.
  match type of Hxr with _ <= ?P => match type of Hxg with _ <= ?Q =>
    evaluate (round (P + Q)) E1;
    match type of E1 with _ = Fin ?p =>
      destruct (fadd_le xr xg P Q p Hxr0 Hxr Hxg0 Hxg E1)
        as [y1 [F1 [Hy0 Hy1]]]
    end
  end end.
  rewrite F1.
  match type of Hy1 with _ <= ?P => match type of Hxb with _ <= ?Q =>
    evaluate (round (P + Q)) E2;
    match type of E2 with _ = Fin ?p =>
      destruct (fadd_le y1 xb P Q p Hy0 Hy1 Hxb0 Hxb E2)
        as [y2 [F2 [Hz0 Hz1]]]
    end
  end end.
  rewrite F2.
  cbn [Math_round]. eexists. split; [reflexivity |]. split.
  - change 0%Z with (Qfloor 0). apply Qfloor_resp_le. lra.
  - match type of Hz1 with _ <= ?P =>
      assert (E : Qfloor (P + (1 # 2)) = 255%Z) by (vm_compute; reflexivity)
    end.
    rewrite <- E. apply Qfloor_resp_le. lra.
Qed.

End Luminance.

(** ** The sums of a cell *)

Section Sums.

Local Open Scope Z_scope.

Variable img : ImageData.
Hypothesis Hwf : raster_buffer img.

Let W := Z.of_N (width img).
Let H := Z.of_N (height img).

Lemma data_at_exact (k : Z) :
  0 <= k < 4 * (W * H) ->
  exists v, data_at (data img) (int k) = int v /\ 0 <= v <= 255.
Proof.
  intro Hk. destruct Hwf as [_ [_ [_ Hlen]]]. fold W H in Hlen.
  unfold data_at. rewrite index_of_int by lia.
  destruct (nth_error (data img) (Z.to_nat k)) as [b |] eqn:E.
  - pose proof (to_N_bounded b) as Hb.
    exists (Z.of_N (to_N b)). split; [apply of_Z_exact; lia | lia].
  - apply nth_error_None in E. lia.
Qed.

(** The body of the pixel loops keeps the sums exact. *)
Lemma add_pixel_exact (y x n : Z) (s : sums) :
  0 <= y < H -> 0 <= x < W -> 0 <= n < 2 ^ 45 -> exact_sums n s ->
  exact_sums (n + 1) (add_pixel img y x s).
Proof.
  intros Hy Hx Hn [tr [tg [tb [-> [Hr [Hg Hb]]]]]].
  destruct Hwf as [Hw [Hh [Hwh _]]]. fold W H in Hw, Hh, Hwh.
  assert (Hyx : 0 <= y * W + x < W * H) by nia.
  unfold add_pixel. cbn [totalR totalG totalB pixelCount]. fold W.
  rewrite (of_Z_exact y), (of_Z_exact W), (of_Z_exact x), (of_Z_exact 4),
          (of_Z_exact 1), (of_Z_exact 2) by lia.
  rewrite (fmul_exact y W) by nia.
  rewrite (fadd_exact (y * W) x) by nia.
  rewrite (fmul_exact (y * W + x) 4) by lia.
  rewrite !fadd_exact by lia.
  destruct (data_at_exact ((y * W + x) * 4)) as [vr [Er Hvr]]; [lia |].
  destruct (data_at_exact ((y * W + x) * 4 + 1)) as [vg [Eg Hvg]]; [lia |].
  destruct (data_at_exact ((y * W + x) * 4 + 2)) as [vb [Eb Hvb]]; [lia |].
  rewrite Er, Eg, Eb. rewrite !fadd_exact by lia.
  exists (tr + vr), (tg + vg), (tb + vb). repeat split; lia.
Qed.

Lemma row_of_pixels_exact (y : Z) (xs : list Z) (n : Z) (s : sums) :
  0 <= y < H -> Forall (fun x => 0 <= x < W) xs ->
  0 <= n -> n + Z.of_nat (length xs) <= 2 ^ 45 -> exact_sums n s ->
  exact_sums (n + Z.of_nat (length xs))
             (fold_left (fun s x => add_pixel img y x s) xs s).
Proof.
  intros Hy Hxs. revert n s.
  induction Hxs as [| x xs Hx _ IH]; intros n s Hn Hlen Hs;
    cbn [fold_left length].
  - rewrite Z.add_0_r. exact Hs.
  - cbn [length] in Hlen.
    replace (n + Z.of_nat (S (length xs)))
      with (n + 1 + Z.of_nat (length xs)) by lia.
    apply IH; [lia | lia |].
    apply add_pixel_exact; [exact Hy | exact Hx | lia | exact Hs].
Qed.

Lemma rows_of_pixels_exact (ys xs : list Z) (n : Z) (s : sums) :
  Forall (fun y => 0 <= y < H) ys -> Forall (fun x => 0 <= x < W) xs ->
  0 <= n ->
  n + Z.of_nat (length ys) * Z.of_nat (length xs) <= 2 ^ 45 ->
  exact_sums n s ->
  exact_sums (n + Z.of_nat (length ys) * Z.of_nat (length xs))
    (fold_left
       (fun s y => fold_left (fun s x => add_pixel img y x s) xs s) ys s).
Proof.
  intros Hys Hxs. revert n s.
  induction Hys as [| y ys Hy _ IH]; intros n s Hn Hlen Hs;
    cbn [fold_left length].
  - rewrite Z.add_0_r. exact Hs.
  - cbn [length] in Hlen.
    replace (n + Z.of_nat (S (length ys)) * Z.of_nat (length xs))
      with (n + Z.of_nat (length xs) + Z.of_nat (length ys) * Z.of_nat (length xs))
      by lia.
    apply IH; [lia | lia |].
    apply row_of_pixels_exact; [exact Hy | exact Hxs | lia | nia | exact Hs].
Qed.

Lemma no_sums_exact : exact_sums 0 no_sums.
Proof. exists 0, 0, 0. repeat split; try lia. Qed.

Lemma range_within (a b bound : Z) :
  0 <= a -> b <= bound -> 0 <= bound ->
  Forall (fun x => 0 <= x < bound) (for_range (int a) (int b)) /\
  Z.of_nat (length (for_range (int a) (int b))) <= bound.
Proof.
  intros Ha Hb H0. split.
  - apply Forall_forall. intros x Hx. apply in_for_range in Hx. lia.
  - rewrite for_range_int, length_map, length_seq. lia.
Qed.

(** The sums over a rectangle inside the raster are exact. *)
Lemma cell_sums_exact (r : rect) :
  rect_within img r ->
  exists n, exact_sums n (cell_sums img r) /\
            n = Z.of_nat (length (pixels r)).
Proof.
  intros [sx [ex [sy [ey [-> [Hsx [Hex [Hsy Hey]]]]]]]].
  fold W in Hex. fold H in Hey.
  destruct Hwf as [_ [_ [Hwh _]]]. fold W H in Hwh.
  unfold cell_sums, pixels. cbn [startX endX startY endY].
  destruct (range_within sx ex W Hsx (proj2 Hex)) as [Fx Lx]; [lia |].
  destruct (range_within sy ey H Hsy (proj2 Hey)) as [Fy Ly]; [lia |].
  set (xs := for_range (int sx) (int ex)) in *.
  set (ys := for_range (int sy) (int ey)) in *.
  exists (Z.of_nat (length ys) * Z.of_nat (length xs)). split.
  - apply (rows_of_pixels_exact ys xs 0 no_sums Fy Fx); [lia | nia |].
    exact no_sums_exact.
  - clear. induction ys as [| y ys IH]; cbn [flat_map length]; [lia |].
    rewrite length_app, length_map. lia.
Qed.

End Sums.

(** ** Rows and columns *)

Section Conversion.

Local Open Scope Z_scope.

Lemma cell_rect_within (img : ImageData) (cols rows row col : nat) :
  raster_buffer img -> countable cols -> countable rows ->
  (col < cols)%nat -> (row < rows)%nat ->
  rect_within img
    (cell_rect (cellWidth_of img cols) (cellHeight_of img rows) row col).
Proof.
  intros [Hw [Hh _]] Hc Hr Hcol Hrow. unfold countable in *.
  unfold cell_rect, cellWidth_of, cellHeight_of.
  rewrite (of_Z_exact (Z.of_nat col)), (of_Z_exact (Z.of_nat row)),
          (of_Z_exact 1), (of_Z_exact (Z.of_nat cols)),
          (of_Z_exact (Z.of_nat rows)), (of_Z_exact (Z.of_N (width img))),
          (of_Z_exact (Z.of_N (height img))) by lia.
  rewrite !fadd_exact by lia.
  destruct (cell_edge (Z.of_N (width img)) (Z.of_nat cols) (Z.of_nat col))
    as [sx [Esx Hsx]]; [lia | lia | lia |].
  destruct (cell_edge (Z.of_N (width img)) (Z.of_nat cols) (Z.of_nat col + 1))
    as [ex [Eex Hex]]; [lia | lia | lia |].
  destruct (cell_edge (Z.of_N (height img)) (Z.of_nat rows) (Z.of_nat row))
    as [sy [Esy Hsy]]; [lia | lia | lia |].
  destruct (cell_edge (Z.of_N (height img)) (Z.of_nat rows) (Z.of_nat row + 1))
    as [ey [Eey Hey]]; [lia | lia | lia |].
  rewrite Esx, Eex, Esy, Eey.
  exists sx, ex, sy, ey. repeat split; lia.
Qed.

Lemma array_at_int (lut : list value) (l : Z) :
  0 <= l -> array_at lut (int l) = nth (Z.to_nat l) lut VUndefined.
Proof. intro Hl. unfold array_at. rewrite index_of_int by lia. reflexivity. Qed.

(** The mean of a channel of an exact cell lies in [0, 255]. *)
Lemma mean_range (t n : Z) :
  0 < n -> 0 <= t <= 255 * n ->
  exists a, fdiv (int t) (int n) = Fin a /\ (0 <= a <= 255)%Q.
Proof.
  intros Hn Ht. rewrite fdiv_finite by (apply inject_Z_nonzero; lia).
  assert (Qn : (0 < inject_Z n)%Q)
    by (change 0%Q with (inject_Z 0); rewrite <- Zlt_Qlt; lia).
  assert (Qt0 : (0 <= inject_Z t)%Q)
    by (change 0%Q with (inject_Z 0); rewrite <- Zle_Qle; lia).
  assert (Qt : (inject_Z t <= 255 * inject_Z n)%Q).
  { change 255%Q with (inject_Z 255). rewrite <- inject_Z_mult, <- Zle_Qle. lia. }
  destruct (round_below (inject_Z t / inject_Z n) 255 255 0)
    as [a [Ea [Ha0 Ha]]].
  - apply Qle_shift_div_l; [exact Qn | lra].
  - apply Qle_shift_div_r; [exact Qn | exact Qt].
  - lia.
  - lia.
  - reflexivity.
  - exists a. auto.
Qed.

(** The luminance of an exact cell with pixels indexes the table. *)
Lemma cell_luminance (n : Z) (s : sums) :
  exact_sums n s -> 0 < n ->
  exists l, calculateLuminance (avgR s) (avgG s) (avgB s) = int l /\
            0 <= l <= 255.
Proof.
  intros [tr [tg [tb [-> [Hr [Hg Hb]]]]]] Hn.
  unfold avgR, avgG, avgB. cbn [totalR totalG totalB pixelCount].
  destruct (mean_range tr n Hn Hr) as [ar [-> Har]].
  destruct (mean_range tg n Hn Hg) as [ag [-> Hag]].
  destruct (mean_range tb n Hn Hb) as [ab [-> Hab]].
  apply calculateLuminance_range; assumption.
Qed.

(** An exact cell adds one table entry to its row. *)
Lemma cell_text_entry (lut : list value) (n : Z) (s : sums) :
  exact_sums n s -> 0 <= n ->
  exists l, (l < 256)%nat /\ cell_text lut s = to_string (nth l lut VUndefined).
Proof.
  intros Hs Hn. unfold cell_text.
  assert (Ep : pixelCount s = int n)
    by (destruct Hs as [tr [tg [tb [-> _]]]]; reflexivity).
  unfold fgt. rewrite Ep, (of_Z_exact 0), flt_int by lia.
  destruct (Z.ltb_spec 0 n) as [Hpos | Hzero].
  - destruct (cell_luminance n s Hs Hpos) as [l [-> Hl]].
    exists (Z.to_nat l). split; [lia |]. rewrite array_at_int by lia. reflexivity.
  - exists 0%nat. split; [lia |]. rewrite array_at_int by lia. reflexivity.
Qed.

Lemma rowString_emit (lut : list value) (colorMode : bool) (s : sums)
  (st : row_state) :
  rowString (emit lut colorMode s st) = rowString st ++ cell_text lut s.
Proof.
  unfold emit, cell_text. destruct (fgt (pixelCount s) (of_Z 0)); reflexivity.
Qed.

(** The text of a row, cell by cell. *)
Lemma rowString_convert_row (img : ImageData) (cw ch : number)
  (lut : list value) (colorMode : bool) (cols row : nat) :
  rowString (convert_row img cw ch lut colorMode cols row) =
  flat_map (fun col => cell_text lut (cell img cw ch row col)) (seq 0 cols).
Proof.
  unfold convert_row.
  set (f := fun st col => emit lut colorMode (cell img cw ch row col) st).
  assert (G : forall cs st,
             rowString (fold_left f cs st) =
             rowString st ++
             flat_map (fun col => cell_text lut (cell img cw ch row col)) cs).
  { induction cs as [| c cs IH]; intro st; cbn [fold_left flat_map].
    - rewrite app_nil_r. reflexivity.
    - rewrite IH. unfold f. rewrite rowString_emit, app_assoc. reflexivity. }
  rewrite G. reflexivity.
Qed.

(** The result of the conversion, row by row. *)
Lemma imageDataToAscii_rows (img : ImageData) (cols rows : nat)
  (lut : list value) (colorMode : bool) :
  let line row :=
    convert_row img (cellWidth_of img cols) (cellHeight_of img rows)
                lut colorMode cols row in
  ascii (imageDataToAscii img cols rows lut colorMode) =
    flat_map (fun row => rowString (line row) ++ [newline]) (seq 0 rows) /\
  colors (imageDataToAscii img cols rows lut colorMode) =
    if colorMode then Some (map (fun row => rowColor (line row)) (seq 0 rows))
    else None.
Proof.
  intro line. unfold imageDataToAscii. cbn [ascii colors].
  fold (cellWidth_of img cols). fold (cellHeight_of img rows). fold line.
  set (f := fun (acc : jsstring * list jsstring) row =>
              (fst acc ++ (rowString (line row) ++ [newline]),
               if colorMode then snd acc ++ [rowColor (line row)] else snd acc)).
  assert (G : forall rs acc,
             fst (fold_left f rs acc) =
               fst acc ++ flat_map (fun row => rowString (line row) ++ [newline]) rs /\
             (colorMode = true ->
              snd (fold_left f rs acc) =
                snd acc ++ map (fun row => rowColor (line row)) rs)).
  { induction rs as [| r rs IH]; intro acc; cbn [fold_left flat_map map].
    - rewrite !app_nil_r. auto.
    - destruct (IH (f acc r)) as [IH1 IH2]. split.
      + rewrite IH1. unfold f. cbn [fst]. rewrite <- app_assoc. reflexivity.
      + intro Hc. rewrite (IH2 Hc). unfold f. cbn [snd]. rewrite Hc.
        rewrite <- app_assoc. reflexivity. }
  destruct (G (seq 0 rows) ([], [])) as [G1 G2]. split.
  - exact G1.
  - destruct colorMode; [| reflexivity]. f_equal. exact (G2 eq_refl).
Qed.

(** On a raster buffer every cell adds a table entry of an index below
    256, whatever the table holds. *)
Lemma conversion_grid (img : ImageData) (cols rows : nat) (lut : list value)
  (colorMode : bool) :
  raster_buffer img -> countable cols -> countable rows ->
  exists grid, index_grid cols rows grid /\
               ascii (imageDataToAscii img cols rows lut colorMode) =
               render lut grid.
Proof.
  intros Hwf Hc Hr.
  destruct (imageDataToAscii_rows img cols rows lut colorMode) as [-> _].
  set (cw := cellWidth_of img cols). set (ch := cellHeight_of img rows).
  assert (Hcell : forall row col, (row < rows)%nat -> (col < cols)%nat ->
            exists l, (l < 256)%nat /\
              cell_text lut (cell img cw ch row col) =
              to_string (nth l lut VUndefined)).
  { intros row col Hrow Hcol. unfold cell.
    destruct (cell_sums_exact img Hwf _
                (cell_rect_within img cols rows row col Hwf Hc Hr Hcol Hrow))
      as [n [Hs Hn]].
    apply (cell_text_entry lut n); [exact Hs | lia]. }
  assert (Hline : forall row, (row < rows)%nat ->
            forall cs, Forall (fun col => (col < cols)%nat) cs ->
            exists line, length line = length cs /\
              Forall (fun l => (l < 256)%nat) line /\
              flat_map (fun col => cell_text lut (cell img cw ch row col)) cs =
              flat_map (fun l => to_string (nth l lut VUndefined)) line).
  { intros row Hrow cs Hcs. induction Hcs as [| c cs Hc' _ IH].
    - exists []. repeat split. constructor.
    - destruct IH as [line [L [F E]]].
      destruct (Hcell row c Hrow Hc') as [l [Hl El]].
      exists (l :: line). cbn [flat_map length]. rewrite L, El, E.
      repeat split. constructor; assumption. }
  assert (Hrows : forall rs, Forall (fun row => (row < rows)%nat) rs ->
            exists grid, index_grid cols (length rs) grid /\
              flat_map (fun row =>
                rowString (convert_row img cw ch lut colorMode cols row)
                ++ [newline]) rs = render lut grid).
  { intros rs Hrs. induction Hrs as [| r rs Hr' _ IH].
    - exists []. repeat split. constructor.
    - destruct IH as [grid [[L F] E]].
      destruct (Hline r Hr' (seq 0 cols)) as [line [Ll [Fl El]]].
      { apply Forall_forall. intros c Hc'. apply in_seq in Hc'. lia. }
      exists (line :: grid). split.
      + split; [cbn [length]; rewrite L; reflexivity |].
        constructor; [| exact F]. rewrite Ll, length_seq. auto.
      + cbn [flat_map]. unfold render in *. cbn [flat_map].
        rewrite E, rowString_convert_row, El. reflexivity. }
  destruct (Hrows (seq 0 rows)) as [grid [G E]].
  { apply Forall_forall. intros r Hr'. apply in_seq in Hr'. lia. }
  rewrite length_seq in G. exists grid. auto.
Qed.

(** On a raster buffer a cell counts the pixels of its rectangle. *)
Lemma cell_counts_pixels (img : ImageData) (cols rows row col : nat) :
  raster_buffer img -> countable cols -> countable rows ->
  (row < rows)%nat -> (col < cols)%nat ->
  let cw := cellWidth_of img cols in
  let ch := cellHeight_of img rows in
  exact_sums (Z.of_nat (length (pixels (cell_rect cw ch row col))))
             (cell img cw ch row col) /\
  fgt (pixelCount (cell img cw ch row col)) (of_Z 0) =
  negb (Nat.eqb (length (pixels (cell_rect cw ch row col))) 0).
Proof.
  intros Hwf Hc Hr Hrow Hcol cw ch. unfold cell.
  destruct (cell_sums_exact img Hwf _
              (cell_rect_within img cols rows row col Hwf Hc Hr Hcol Hrow))
    as [n [Hs Hn]].
  fold cw ch in Hs, Hn. subst n. split; [exact Hs |].
  destruct Hs as [tr [tg [tb [-> _]]]]. cbn [pixelCount].
  unfold fgt. rewrite (of_Z_exact 0), flt_int by lia.
  destruct (length (pixels (cell_rect cw ch row col))); reflexivity.
Qed.

(** A rectangle without pixels leaves the sums at zero. *)
Lemma cell_sums_no_pixels (img : ImageData) (r : rect) :
  pixels r = [] -> cell_sums img r = no_sums.
Proof.
  unfold pixels, cell_sums.
  destruct (for_range (startX r) (endX r)) as [| x xs].
  - intros _. induction (for_range (startY r) (endY r)) as [| y ys IH];
      [reflexivity | exact IH].
  - destruct (for_range (startY r) (endY r)) as [| y ys];
      [reflexivity | discriminate].
Qed.

(** The last cell of a row sets the color of the row when it counts a
    pixel. *)
Lemma rowColor_convert_row_last (img : ImageData) (cw ch : number)
  (lut : list value) (cols row : nat) :
  (0 < cols)%nat ->
  fgt (pixelCount (cell img cw ch row (cols - 1))) (of_Z 0) = true ->
  rowColor (convert_row img cw ch lut true cols row) =
  rgb (cell img cw ch row (cols - 1)).
Proof.
  intros Hc Hp. unfold convert_row.
  replace cols with (cols - 1 + 1)%nat at 1 by lia.
  rewrite seq_app, fold_left_app. cbn [seq fold_left Nat.add].
  unfold emit at 1. rewrite Hp. reflexivity.
Qed.

(** The entries of a table of glyphs are one unit long. *)
Lemma glyph_length (lut : list value) (l : nat) :
  is_lut lut -> (l < 256)%nat ->
  length (to_string (nth l lut VUndefined)) = 1%nat.
Proof.
  intros [L F] Hl.
  assert (Hin : In (nth l lut VUndefined) lut) by (apply nth_In; lia).
  rewrite forallb_forall in F. specialize (F _ Hin).
  destruct (nth l lut VUndefined) as [| [| c [| d s]]]; try discriminate F.
  reflexivity.
Qed.

(** A line of table entries has one unit per entry. *)
Lemma line_length (lut : list value) (line : list nat) :
  is_lut lut -> Forall (fun l => (l < 256)%nat) line ->
  length (flat_map (fun l => to_string (nth l lut VUndefined)) line) =
  length line.
Proof.
  intros Hlut Hline. induction Hline as [| l line Hl _ IH]; [reflexivity |].
  cbn [flat_map length]. rewrite length_app, IH, (glyph_length lut l Hlut Hl).
  reflexivity.
Qed.

End Conversion.

(** ** Scaling and two-sided rounding errors *)

Section Float64Scaling.

Local Open Scope Q_scope.

Lemma rne_lower (t : Q) : t - (1 # 2) <= inject_Z (rne t).
Proof.
  unfold rne. pose proof (Qlt_floor t) as Hf.
  rewrite inject_Z_plus in Hf. change (inject_Z 1) with 1 in Hf.
  destruct (Qcompare_spec (t - inject_Z (Qfloor t)) (1 # 2)) as [E | E | E].
  - destruct (Z.even _).
    + lra.
    + rewrite inject_Z_plus. change (inject_Z 1) with 1. lra.
  - lra.
  - rewrite inject_Z_plus. change (inject_Z 1) with 1. lra.
Qed.

Lemma rne_compat (s t : Q) : s == t -> rne s = rne t.
Proof.
  intro E. apply Z.le_antisymm; apply rne_mono; rewrite E; apply Qle_refl.
Qed.

Lemma ilog2_unique (x : Q) (e : Z) :
  pow2 e <= x -> x < pow2 (e + 1) -> ilog2 x = e.
Proof.
  intros H1 H2.
  assert (Hx : 0 < x) by (eapply Qlt_le_trans; [apply (pow2_pos e) | exact H1]).
  destruct (ilog2_spec x Hx) as [L1 L2].
  assert (A : (ilog2 x < e + 1)%Z)
    by (apply pow2_lt_inv; eapply Qle_lt_trans; eassumption).
  assert (B : (e < ilog2 x + 1)%Z)
    by (apply pow2_lt_inv; eapply Qle_lt_trans; eassumption).
  lia.
Qed.

Lemma ilog2_compat (x y : Q) : 0 < x -> x == y -> ilog2 x = ilog2 y.
Proof.
  intros Hx E. destruct (ilog2_spec x Hx) as [L1 L2].
  symmetry. apply ilog2_unique; rewrite <- E; assumption.
Qed.

Lemma round_pos_compat (x y : Q) : 0 < x -> x == y -> round_pos x == round_pos y.
Proof.
  intros Hx E. unfold round_pos, ulp_exp.
  rewrite <- (ilog2_compat x y Hx E).
  rewrite (rne_compat (x / pow2 (Z.max (ilog2 x) emin - 52))
                      (y / pow2 (Z.max (ilog2 x) emin - 52)))
    by (apply Qdiv_comp; [exact E | reflexivity]).
  reflexivity.
Qed.

(** Equal rationals have the same Number value. *)
Lemma round_compat (x y : Q) : x == y -> round x = round y.
Proof.
  intro E. unfold round.
  assert (Ec : Qcompare x 0 = Qcompare y 0) by (rewrite E; reflexivity).
  rewrite <- Ec.
  destruct (Qcompare_spec x 0) as [H | H | H].
  - reflexivity.
  - assert (Hx : 0 < - x) by lra.
    assert (Er : round_pos (- x) == round_pos (- y))
      by (apply round_pos_compat; [exact Hx | rewrite E; reflexivity]).
    assert (Eb : Qle_bool (pow2 1024) (round_pos (- x)) =
                 Qle_bool (pow2 1024) (round_pos (- y))).
    { destruct (Qle_bool (pow2 1024) (round_pos (- x))) eqn:B1;
        destruct (Qle_bool (pow2 1024) (round_pos (- y))) eqn:B2;
        try reflexivity.
      - apply Qle_bool_iff in B1. rewrite Er in B1. apply Qle_bool_iff in B1.
        congruence.
      - apply Qle_bool_iff in B2. rewrite <- Er in B2. apply Qle_bool_iff in B2.
        congruence. }
    rewrite <- Eb. destruct (Qle_bool _ _); [reflexivity |].
    f_equal. apply Qred_complete. rewrite Er. reflexivity.
  - assert (Er : round_pos x == round_pos y)
      by (apply round_pos_compat; assumption).
    assert (Eb : Qle_bool (pow2 1024) (round_pos x) =
                 Qle_bool (pow2 1024) (round_pos y)).
    { destruct (Qle_bool (pow2 1024) (round_pos x)) eqn:B1;
        destruct (Qle_bool (pow2 1024) (round_pos y)) eqn:B2;
        try reflexivity.
      - apply Qle_bool_iff in B1. rewrite Er in B1. apply Qle_bool_iff in B1.
        congruence.
      - apply Qle_bool_iff in B2. rewrite <- Er in B2. apply Qle_bool_iff in B2.
        congruence. }
    rewrite <- Eb. destruct (Qle_bool _ _); [reflexivity |].
    f_equal. apply Qred_complete. exact Er.
Qed.

(** In the normal range the rounded value is at most 2^-53 of the value
    below it. *)
Lemma round_pos_error_low (x : Q) :
  pow2 emin <= x -> x * (1 - pow2 (-53)) <= round_pos x.
Proof.
  intro Hmin.
  assert (Hx : 0 < x)
    by (eapply Qlt_le_trans; [apply (pow2_pos emin) | exact Hmin]).
  destruct (ilog2_spec x Hx) as [H1 H2].
  assert (He : (emin <= ilog2 x)%Z).
  { assert (emin < ilog2 x + 1)%Z; [| lia].
    apply pow2_lt_inv. eapply Qle_lt_trans; eassumption. }
  assert (Hu : ulp_exp x = (ilog2 x - 52)%Z) by (unfold ulp_exp; lia).
  unfold round_pos. rewrite Hu.
  set (u := pow2 (ilog2 x - 52)).
  assert (Pu : 0 < u) by apply pow2_pos.
  pose proof (rne_lower (x / u)) as Hr.
  apply Qle_trans with ((x / u - (1 # 2)) * u).
  - assert (E : (x / u - (1 # 2)) * u == x - (1 # 2) * u)
      by (field; intro H; lra).
    rewrite E.
    assert (Hh : (1 # 2) * u == pow2 (ilog2 x) * pow2 (-53)).
    { unfold u.
      rewrite (pow2_split (ilog2 x - 52) (-53)),
              (pow2_split (ilog2 x - 52 - -53) (ilog2 x)).
      replace (ilog2 x - 52 - -53 - ilog2 x)%Z with 1%Z by ring.
      change (pow2 1) with 2. change (pow2 (-53)) with (1 # 2 ^ 53).
      ring_simplify.
      reflexivity. }
    rewrite Hh.
    assert (pow2 (ilog2 x) * pow2 (-53) <= x * pow2 (-53)).
    { apply Qmult_le_compat_r; [exact H1 | apply Qlt_le_weak, pow2_pos]. }
    lra.
  - apply Qmult_le_compat_r; [exact Hr | lra].
Qed.

(** In the normal range a Number value is within 2^-53 of the value. *)
Lemma round_near (x : Q) :
  pow2 emin <= x -> x * (1 + pow2 (-53)) < pow2 1024 ->
  exists r, round x = Fin r /\
            x * (1 - pow2 (-53)) <= r /\ r <= x * (1 + pow2 (-53)).
Proof.
  intros Hmin Hmax.
  assert (Hx : 0 < x)
    by (eapply Qlt_le_trans; [apply (pow2_pos emin) | exact Hmin]).
  pose proof (round_pos_error x Hmin) as He.
  pose proof (round_pos_error_low x Hmin) as Hl.
  rewrite (round_positive x Hx).
  destruct (Qle_bool (pow2 1024) (round_pos x)) eqn:B.
  - apply Qle_bool_iff in B. exfalso. lra.
  - eexists. split; [reflexivity |]. rewrite Qred_correct. split; assumption.
Qed.

(** The rounding of a positive rational has at most 53 significant bits. *)
Lemma round_pos_repr (x : Q) :
  0 < x ->
  exists m k, (0 <= m < 2 ^ 53)%Z /\ (ulp_exp x <= k <= ulp_exp x + 1)%Z /\
              round_pos x == inject_Z m * pow2 k.
Proof.
  intro Hx. unfold round_pos.
  set (u := ulp_exp x). set (n := rne (x / pow2 u)).
  assert (Hn0 : (0 <= n)%Z).
  { unfold n. rewrite <- (rne_int (inject_Z 0) 0) by reflexivity.
    apply rne_mono. apply Qle_shift_div_l; [apply pow2_pos |].
    change (inject_Z 0) with 0. lra. }
  assert (Hn1 : (n <= 2 ^ 53)%Z).
  { unfold n. rewrite <- (rne_int (inject_Z (2 ^ 53)) (2 ^ 53)) by reflexivity.
    apply rne_mono. rewrite <- pow2_Z by lia.
    apply Qlt_le_weak, scaled_lt, Hx. }
  destruct (Z.eq_dec n (2 ^ 53)) as [E | NE].
  - exists (2 ^ 52)%Z, (u + 1)%Z. split; [lia |]. split; [lia |].
    rewrite E, (pow2_add u 1). change (pow2 1) with 2.
    change (inject_Z (2 ^ 53)) with (2 * inject_Z (2 ^ 52)). ring.
  - exists n, u. split; [lia |]. split; [lia |]. reflexivity.
Qed.

(** Halving commutes with rounding above the subnormal range. *)
Lemma round_pos_half (x : Q) :
  pow2 (emin + 1) <= x -> round_pos (x / 2) == round_pos x / 2.
Proof.
  intro Hmin.
  assert (Hx : 0 < x)
    by (eapply Qlt_le_trans; [apply (pow2_pos (emin + 1)) | exact Hmin]).
  destruct (ilog2_spec x Hx) as [H1 H2].
  assert (He : (emin + 1 <= ilog2 x)%Z).
  { assert (emin + 1 < ilog2 x + 1)%Z; [| lia].
    apply pow2_lt_inv. eapply Qle_lt_trans; eassumption. }
  assert (Eh : ilog2 (x / 2) = (ilog2 x - 1)%Z).
  { apply ilog2_unique.
    - apply Qle_shift_div_l; [reflexivity |].
      change 2 with (pow2 1). rewrite <- pow2_add.
      replace (ilog2 x - 1 + 1)%Z with (ilog2 x) by ring. exact H1.
    - apply Qlt_shift_div_r; [reflexivity |].
      replace (ilog2 x - 1 + 1)%Z with (ilog2 x) by ring.
      rewrite (pow2_add (ilog2 x) 1) in H2. change (pow2 1) with 2 in H2.
      exact H2. }
  unfold round_pos, ulp_exp. rewrite Eh.
  replace (Z.max (ilog2 x - 1) emin - 52)%Z with (ilog2 x - 52 - 1)%Z by lia.
  replace (Z.max (ilog2 x) emin - 52)%Z with (ilog2 x - 52)%Z by lia.
  set (u := (ilog2 x - 52)%Z).
  assert (Eu : pow2 u == pow2 (u - 1) * 2).
  { rewrite (pow2_split u (u - 1)).
    replace (u - (u - 1))%Z with 1%Z by ring. change (pow2 1) with 2. ring. }
  assert (Pu : 0 < pow2 (u - 1)) by apply pow2_pos.
  rewrite (rne_compat (x / 2 / pow2 (u - 1)) (x / pow2 u)).
  - set (n := inject_Z (rne (x / pow2 u))). rewrite Eu. field.
  - rewrite Eu. field. intro H. lra.
Qed.

End Float64Scaling.

(** ** Quotients of integers *)

Section GridRows.

Local Open Scope Z_scope.

(** A Number value of a positive rational has at most 53 significant
    bits. *)
Lemma round_repr (x r : Q) :
  (0 < x)%Q -> round x = Fin r ->
  exists m k, 0 <= m < 2 ^ 53 /\ ulp_exp x <= k <= ulp_exp x + 1 /\
              (r == inject_Z m * pow2 k)%Q /\ (r == round_pos x)%Q /\
              (round_pos x < pow2 1024)%Q.
Proof.
  intros Hx Er. rewrite (round_positive x Hx) in Er.
  destruct (Qle_bool (pow2 1024) (round_pos x)) eqn:B; [discriminate |].
  assert (E : r = Qred (round_pos x)) by congruence.
  destruct (round_pos_repr x Hx) as [m [k [Hm [Hk Em]]]].
  exists m, k. split; [exact Hm |]. split; [exact Hk |].
  rewrite E, Qred_correct. split; [exact Em |]. split; [reflexivity |].
  apply Qnot_le_lt. intro H. apply Qle_bool_iff in H. congruence.
Qed.

(** Doubling a Number value is exact. *)
Lemma round_double (x r : Q) :
  (0 < x)%Q -> (x < pow2 1020)%Q -> round x = Fin r ->
  round (r * 2) = Fin (Qred (r * 2)).
Proof.
  intros Hx Hmax Er.
  destruct (round_repr x r Hx Er) as [m [k [Hm [Hk [Em _]]]]].
  assert (Hu : -1074 <= ulp_exp x <= 968).
  { unfold ulp_exp, emin. split; [lia |].
    assert (ilog2 x < 1020); [| lia].
    apply pow2_lt_inv. destruct (ilog2_spec x Hx) as [H1 _].
    eapply Qle_lt_trans; eassumption. }
  apply (round_exact (r * 2) m (k + 1)); [exact Hm | lia |].
  rewrite Em, (pow2_add k 1). change (pow2 1) with 2%Q. ring.
Qed.

(** Halving a Number value is exact above the subnormal range, and is
    the Number value of the half. *)
Lemma round_half (x r : Q) :
  (pow2 (emin + 1) <= x)%Q -> (x < pow2 1020)%Q -> round x = Fin r ->
  round (x / 2) = round (r * (1 # 2)).
Proof.
  intros Hmin Hmax Er.
  assert (Hx : (0 < x)%Q)
    by (eapply Qlt_le_trans; [apply (pow2_pos (emin + 1)) | exact Hmin]).
  destruct (round_repr x r Hx Er) as [m [k [Hm [Hk [Em [Ep Hfin]]]]]].
  assert (He : emin + 1 <= ilog2 x).
  { assert (emin + 1 < ilog2 x + 1); [| lia].
    apply pow2_lt_inv. destruct (ilog2_spec x Hx) as [_ H2].
    eapply Qle_lt_trans; eassumption. }
  assert (Hk0 : -1073 <= k) by (unfold ulp_exp, emin in *; lia).
  assert (Hk1 : k <= 970).
  { assert (ilog2 x < 1020); [| unfold ulp_exp, emin in *; lia].
    apply pow2_lt_inv. destruct (ilog2_spec x Hx) as [H1 _].
    eapply Qle_lt_trans; eassumption. }
  assert (Hh : (round_pos (x / 2) == r * (1 # 2))%Q).
  { rewrite (round_pos_half x Hmin), Ep. field. }
  assert (Hx2 : (0 < x / 2)%Q) by (apply Qlt_shift_div_l; [reflexivity | lra]).
  rewrite (round_positive (x / 2) Hx2).
  destruct (Qle_bool (pow2 1024) (round_pos (x / 2))) eqn:B.
  - apply Qle_bool_iff in B. exfalso.
    assert (0 <= round_pos x)%Q by (apply round_pos_nonneg, Hx).
    rewrite Hh, Ep in B. lra.
  - rewrite (round_exact (r * (1 # 2)) m (k - 1)); [| exact Hm | lia |].
    + f_equal. apply Qred_complete. exact Hh.
    + rewrite Em, (pow2_split k (k - 1)).
      replace (k - (k - 1)) with 1 by ring. change (pow2 1) with 2%Q. field.
Qed.

(** [Math.floor(a / m)] on integers is the integer quotient. *)
Lemma floor_fdiv_int (a m : Z) :
  0 <= a < 2 ^ 53 -> 0 < m < 2 ^ 54 ->
  Math_floor (fdiv (int a) (int m)) = int (a / m).
Proof.
  intros Ha Hm.
  rewrite fdiv_finite by (apply inject_Z_nonzero; lia).
  assert (Qm : (1 <= inject_Z m)%Q)
    by (change 1%Q with (inject_Z 1); rewrite <- Zle_Qle; lia).
  assert (Qm' : (inject_Z m < 18014398509481984)%Q)
    by (change (inject_Z m < inject_Z 18014398509481984)%Q;
        rewrite <- Zlt_Qlt; lia).
  destruct (Z.eq_dec a 0) as [-> | Na].
  - rewrite round_zero by (unfold Qdiv; ring). reflexivity.
  - assert (Qa : (1 <= inject_Z a)%Q)
      by (change 1%Q with (inject_Z 1); rewrite <- Zle_Qle; lia).
    assert (Qa' : (inject_Z a < 9007199254740992)%Q)
      by (change (inject_Z a < inject_Z 9007199254740992)%Q;
          rewrite <- Zlt_Qlt; lia).
    set (x := (inject_Z a / inject_Z m)%Q).
    assert (Ex : (x * inject_Z m == inject_Z a)%Q) by (unfold x; field; lra).
    assert (Hu : (pow2 (-53) = 1 # 9007199254740992)%Q) by reflexivity.
    assert (Hx0 : (pow2 (-54) <= x)%Q).
    { apply Qle_shift_div_l; [lra |].
      change (pow2 (-54)) with (1 # 18014398509481984)%Q. lra. }
    assert (Hxa : (x <= inject_Z a)%Q)
      by (apply Qle_shift_div_r; [lra | nra]).
    pose proof (Z.div_mod a m ltac:(lia)) as Hdm.
    pose proof (Z.mod_pos_bound a m ltac:(lia)) as Hmod.
    assert (Hk0 : 0 <= a / m) by (apply Z.div_pos; lia).
    assert (Hka : a / m <= a) by (apply Z.div_le_upper_bound; nia).
    destruct (round_error x) as [q [Eq [Hq0 Hq]]].
    + eapply Qle_trans; [| exact Hx0]. apply pow2_le. unfold emin. lia.
    + apply Qlt_le_trans with (pow2 54).
      * rewrite Hu. change (pow2 54) with 18014398509481984%Q. nra.
      * apply pow2_le. lia.
    + rewrite Eq. cbn [Math_floor]. do 2 f_equal.
      apply Z.le_antisymm.
      * assert (Hlt : (inject_Z (Qfloor q) < inject_Z (a / m + 1))%Q).
        { eapply Qle_lt_trans; [apply Qfloor_le |].
          eapply Qle_lt_trans; [exact Hq |].
          apply Qmult_lt_r with (inject_Z m); [lra |].
          rewrite Hu.
          assert (E1 : (x * (1 + (1 # 9007199254740992)) * inject_Z m ==
                        inject_Z a * (1 + (1 # 9007199254740992)))%Q)
            by (rewrite <- Ex; ring).
          rewrite E1, <- inject_Z_mult.
          assert (Hb : (inject_Z a + 1 <= inject_Z ((a / m + 1) * m))%Q).
          { change 1%Q with (inject_Z 1). rewrite <- inject_Z_plus, <- Zle_Qle.
            nia. }
          lra. }
        rewrite <- Zlt_Qlt in Hlt. lia.
      * rewrite <- (Qfloor_Z (a / m)). apply Qfloor_resp_le.
        apply (round_above x (inject_Z (a / m)) (a / m) 0 q);
          [| lia | lia | change (pow2 0) with 1%Q; ring | exact Eq].
        apply Qle_shift_div_l; [lra |].
        rewrite <- inject_Z_mult, <- Zle_Qle. nia.
Qed.

End GridRows.

(** ** The code against the formulas in exact arithmetic *)

Section AgainstExact.

Local Open Scope Z_scope.

(** The cell width [width / cols] of positive integers: finite, positive
    and within 2^-53 of the quotient. *)
Lemma cell_width_near (w c : Z) :
  1 <= w < 2 ^ 32 -> 1 <= c < 2 ^ 53 ->
  exists qv,
    fdiv (int w) (int c) = Fin qv /\
    (inject_Z w * (1 - (1 # 9007199254740992)) <= qv * inject_Z c)%Q /\
    (qv * inject_Z c <= inject_Z w * (1 + (1 # 9007199254740992)))%Q /\
    ((1 # 18014398509481984) <= qv)%Q /\ (qv <= 8589934592)%Q /\
    fmul (Fin qv) CHAR_Y_PER_X = Fin (Qred (qv * 2)).
Proof.
  intros Hw Hc.
  rewrite fdiv_finite by (apply inject_Z_nonzero; lia).
  assert (Qc : (1 <= inject_Z c)%Q)
    by (change 1%Q with (inject_Z 1); rewrite <- Zle_Qle; lia).
  assert (Qc' : (inject_Z c < 9007199254740992)%Q)
    by (change (inject_Z c < inject_Z 9007199254740992)%Q;
        rewrite <- Zlt_Qlt; lia).
  assert (Qw : (1 <= inject_Z w)%Q)
    by (change 1%Q with (inject_Z 1); rewrite <- Zle_Qle; lia).
  assert (Qw' : (inject_Z w < 4294967296)%Q)
    by (change (inject_Z w < inject_Z 4294967296)%Q;
        rewrite <- Zlt_Qlt; lia).
  set (x := (inject_Z w / inject_Z c)%Q).
  assert (Ex : (x * inject_Z c == inject_Z w)%Q) by (unfold x; field; lra).
  assert (Hu : (pow2 (-53) = 1 # 9007199254740992)%Q) by reflexivity.
  assert (Hx0 : (pow2 (-53) <= x)%Q).
  { apply Qle_shift_div_l; [lra |]. rewrite Hu. lra. }
  assert (Hxw : (x <= inject_Z w)%Q)
    by (apply Qle_shift_div_r; [lra | nra]).
  assert (Hx : (0 < x)%Q) by (rewrite Hu in Hx0; lra).
  assert (Hmax : (x < pow2 1020)%Q).
  { apply Qlt_le_trans with (pow2 32); [| apply pow2_le; lia].
    change (pow2 32) with 4294967296%Q. lra. }
  destruct (round_near x) as [qv [Eqv [Hlo Hhi]]].
  - eapply Qle_trans; [| exact Hx0]. apply pow2_le. unfold emin. lia.
  - apply Qlt_le_trans with (pow2 33).
    + rewrite Hu. change (pow2 33) with 8589934592%Q. nra.
    + apply pow2_le. lia.
  - rewrite Hu in Hlo, Hhi, Hx0.
    exists qv. split; [exact Eqv |].
    split; [rewrite <- Ex; nra |]. split; [rewrite <- Ex; nra |].
    split; [nra |]. split; [nra |].
    unfold CHAR_Y_PER_X. rewrite (of_Z_exact 2) by lia. cbn [fmul].
    change (inject_Z 2) with 2%Q.
    exact (round_double x qv Hx Hmax Eqv).
Qed.

(** The index and its mirror image. *)
Lemma charIndex_invert (n b : Z) :
  1 <= n < 2 ^ 53 -> 0 <= b <= 255 ->
  exists i,
    charIndex (of_Z n) false (of_Z b) = int i /\
    charIndex (of_Z n) true (of_Z b) = int (n - 1 - i) /\
    0 <= i <= n - 1.
Proof.
  intros Hn Hb.
  destruct (charIndex_mono n b b Hn) as [ia [i [_ [E [H0 [Hab H1]]]]]];
    [lia | lia |].
  exists i. split; [exact E |]. split; [| lia].
  unfold charIndex in *. rewrite E.
  rewrite (of_Z_exact n), (of_Z_exact 1) by lia.
  rewrite !fsub_exact by lia. reflexivity.
Qed.

(** The product under the floor of the glyph index is within 2^-51 of
    [b * (n - 1) / 255]. *)
Lemma index_product_close (n b : Z) :
  1 <= n <= 2 ^ 32 -> 0 <= b <= 255 ->
  exists p,
    fmul (fdiv (int b) (int 255)) (int (n - 1)) = Fin p /\
    (inject_Z (b * (n - 1)) * (1 - (1 # 2251799813685248)) <= 255 * p)%Q /\
    (255 * p <= inject_Z (b * (n - 1)) * (1 + (1 # 2251799813685248)))%Q.
Proof.
  intros Hn Hb.
  rewrite fdiv_finite by discriminate.
  assert (Hu : (pow2 (-53) = 1 # 9007199254740992)%Q) by reflexivity.
  destruct (Z.eq_dec b 0) as [-> | Nb].
  - rewrite round_zero by reflexivity. cbn [fmul].
    rewrite round_zero by ring. exists 0%Q.
    split; [reflexivity |]. rewrite Z.mul_0_l. split; discriminate.
  - assert (Qb : (1 <= inject_Z b)%Q)
      by (change 1%Q with (inject_Z 1); rewrite <- Zle_Qle; lia).
    assert (Qb' : (inject_Z b <= 255)%Q)
      by (change 255%Q with (inject_Z 255); rewrite <- Zle_Qle; lia).
    destruct (round_near (inject_Z b / inject_Z 255)) as [q [Eq [Hq0 Hq1]]].
    + apply Qle_trans with (pow2 (-8)); [apply pow2_le; unfold emin; lia |].
      apply Qle_shift_div_l; [reflexivity |].
      change (pow2 (-8)) with (1 # 256)%Q. change (inject_Z 255) with 255%Q.
      lra.
    + apply Qlt_le_trans with (pow2 1); [| apply pow2_le; lia].
      rewrite Hu. change (pow2 1) with 2%Q.
      assert (inject_Z b / inject_Z 255 <= 1)%Q
        by (apply Qle_shift_div_r; [reflexivity |];
            change (inject_Z 255) with 255%Q; lra).
      lra.
    + rewrite Hu in Hq0, Hq1. rewrite Eq. cbn [fmul].
      assert (Ex : (inject_Z b / inject_Z 255 * 255 == inject_Z b)%Q)
        by (change (inject_Z 255) with 255%Q; field).
      set (x := (inject_Z b / inject_Z 255)%Q) in *.
      destruct (Z.eq_dec n 1) as [-> | Nn].
      * rewrite round_zero by (change (inject_Z (1 - 1)) with 0%Q; ring).
        exists 0%Q. split; [reflexivity |].
        rewrite Z.mul_0_r. split; discriminate.
      * assert (Qn : (1 <= inject_Z (n - 1))%Q)
          by (change 1%Q with (inject_Z 1); rewrite <- Zle_Qle; lia).
        assert (Qn' : (inject_Z (n - 1) <= 4294967296)%Q)
          by (change 4294967296%Q with (inject_Z 4294967296);
              rewrite <- Zle_Qle; lia).
        assert (Hx0 : ((1 # 255) <= x)%Q) by lra.
        assert (Hx1 : (x <= 1)%Q) by lra.
        destruct (round_near (q * inject_Z (n - 1))) as [p [Ep [Hp0 Hp1]]].
        -- apply Qle_trans with (pow2 (-9)); [apply pow2_le; unfold emin; lia |].
           change (pow2 (-9)) with (1 # 512)%Q. nra.
        -- apply Qlt_le_trans with (pow2 34); [| apply pow2_le; lia].
           rewrite Hu. change (pow2 34) with 17179869184%Q. nra.
        -- rewrite Hu in Hp0, Hp1. exists p. split; [exact Ep |].
           rewrite inject_Z_mult, <- Ex.
           set (m := inject_Z (n - 1)) in *.
           assert (Hq : (0 <= q)%Q) by lra.
           split.
           ++ apply Qle_trans
                with (255 * (q * m * (1 - (1 # 9007199254740992))))%Q;
                [| lra].
              clear - Hq0 Qn Hx0. nra.
           ++ apply Qle_trans
                with (255 * (q * m * (1 + (1 # 9007199254740992))))%Q;
                [lra |].
              clear - Hq1 Qn Hx0. nra.
Qed.

Lemma int_inj (a b : Z) : int a = int b -> a = b.
Proof. intro H. injection H. auto. Qed.

(** The floor of a rational that lies between [k - 1] and [k + 1]. *)
Lemma floor_close (r : Q) (k : Z) (exact : Prop) :
  (r < inject_Z (k + 1))%Q -> (inject_Z (k - 1) <= r)%Q ->
  (exact -> (inject_Z k <= r)%Q) ->
  k - 1 <= Qfloor r <= k /\ (exact -> Qfloor r = k).
Proof.
  intros Hlt Hge1 Hge.
  assert (Hn1 : Qfloor r < k + 1).
  { rewrite Zlt_Qlt. eapply Qle_lt_trans; [apply Qfloor_le | exact Hlt]. }
  assert (Hn0 : k - 1 <= Qfloor r).
  { rewrite <- (Qfloor_Z (k - 1)). apply Qfloor_resp_le, Hge1. }
  split; [lia |].
  intro He. apply Z.le_antisymm; [lia |].
  rewrite <- (Qfloor_Z k). apply Qfloor_resp_le, Hge, He.
Qed.

(** The floor of a quotient of integers is their integer quotient. *)
Lemma Qfloor_quotient (q : Q) (a b : Z) :
  0 < b -> (q * inject_Z b == inject_Z a)%Q -> Qfloor q = a / b.
Proof.
  intros Hb E.
  assert (Qb : (0 < inject_Z b)%Q)
    by (change 0%Q with (inject_Z 0); rewrite <- Zlt_Qlt; exact Hb).
  pose proof (Z.div_mod a b ltac:(lia)) as Hdm.
  pose proof (Z.mod_pos_bound a b Hb) as Hmod.
  pose proof (Qfloor_le q) as H1. pose proof (Qlt_floor q) as H2.
  assert (G1 : (inject_Z (Qfloor q * b) <= inject_Z a)%Q).
  { rewrite inject_Z_mult, <- E.
    apply Qmult_le_compat_r; [exact H1 | apply Qlt_le_weak, Qb]. }
  assert (G2 : (inject_Z a < inject_Z ((Qfloor q + 1) * b))%Q).
  { rewrite inject_Z_mult, <- E.
    apply Qmult_lt_compat_r; [exact Qb | exact H2]. }
  rewrite <- Zle_Qle in G1. rewrite <- Zlt_Qlt in G2.
  apply (Z.div_unique a b (Qfloor q) (a - b * Qfloor q)); lia.
Qed.

(** The formulas as integer quotients. *)
Lemma formula_rows_quotient (w h c : Z) :
  1 <= w -> 1 <= c -> formula_rows w h c = h * c / (2 * w).
Proof.
  intros Hw Hc. unfold formula_rows. apply Qfloor_quotient; [lia |].
  rewrite !inject_Z_mult. change (inject_Z 2) with 2%Q.
  field. split; apply inject_Z_nonzero; lia.
Qed.


(** The quotient under the floor of the row count lies within one of
    the exact quotient [k], below [k + 1], and above [k] unless the
    exact quotient is an integer. *)
Lemma grid_quotient_close (w h c : Z) :
  1 <= w < 2 ^ 32 -> 0 <= h -> 1 <= c < 2 ^ 53 -> h * c < 2 ^ 51 ->
  let k := h * c / (2 * w) in
  exists r,
    fdiv (int h) (fmul (fdiv (int w) (int c)) CHAR_Y_PER_X) = Fin r /\
    (0 <= r)%Q /\ (r < inject_Z (k + 1))%Q /\ (inject_Z (k - 1) <= r)%Q /\
    ((h * c) mod (2 * w) <> 0 -> (inject_Z k <= r)%Q).
Proof.
  intros Hw Hh Hc Hhc k.
  assert (Hh' : h < 2 ^ 51) by nia.
  destruct (cell_width_near w c Hw Hc) as [qv [Eqv [Hlo [Hhi [Hq0 [Hq1 E2]]]]]].
  rewrite Eqv, E2.
  assert (Nq : ~ (qv == 0)%Q) by (intro H; lra).
  assert (Nq2 : ~ (Qred (qv * 2) == 0)%Q)
    by (rewrite Qred_correct; intro H; apply Nq; lra).
  rewrite fdiv_finite by assumption.
  pose proof (Z.div_mod (h * c) (2 * w) ltac:(lia)) as Hdm.
  pose proof (Z.mod_pos_bound (h * c) (2 * w) ltac:(lia)) as Hmod.
  fold k in Hdm.
  assert (Hk0 : 0 <= k) by (apply Z.div_pos; nia).
  destruct (Z.eq_dec h 0) as [-> | Nh].
  - rewrite round_zero by (unfold Qdiv; ring).
    assert (Ek : k = 0)
      by (unfold k; rewrite Z.mul_0_l; apply Z.div_0_l; lia).
    exists 0%Q. rewrite Ek. split; [reflexivity |].
    repeat split; discriminate.
  - set (y := (inject_Z h / (qv * 2))%Q).
    rewrite (round_compat (inject_Z h / Qred (qv * 2)) y)
      by (rewrite Qred_correct; reflexivity).
    set (z := (qv * inject_Z c)%Q) in *.
    assert (Qh : (1 <= inject_Z h)%Q)
      by (change 1%Q with (inject_Z 1); rewrite <- Zle_Qle; lia).
    assert (Qh' : (inject_Z h < 2251799813685248)%Q)
      by (change (inject_Z h < inject_Z 2251799813685248)%Q;
          rewrite <- Zlt_Qlt; lia).
    assert (Qw : (1 <= inject_Z w)%Q)
      by (change 1%Q with (inject_Z 1); rewrite <- Zle_Qle; lia).
    assert (Ey : (y * (qv * 2) == inject_Z h)%Q) by (unfold y; field; exact Nq).
    assert (Eyz : (2 * (y * z) == inject_Z (h * c))%Q).
    { rewrite inject_Z_mult, <- Ey. unfold z. ring. }
    assert (Hy0 : ((1 # 17179869184) <= y)%Q)
      by (apply Qle_shift_div_l; [lra | lra]).
    assert (Hy1 : (y <= 20282409603651670423947251286016)%Q)
      by (apply Qle_shift_div_r; [lra | nra]).
    destruct (round_near y) as [r [Er [Hrlo Hrhi]]].
    + apply Qle_trans with (pow2 (-34)); [apply pow2_le; unfold emin; lia |].
      exact Hy0.
    + apply Qlt_le_trans with (pow2 105); [| apply pow2_le; lia].
      change (pow2 (-53)) with (1 # 9007199254740992)%Q.
      change (pow2 105) with 40564819207303340847894502572032%Q. lra.
    + change (pow2 (-53)) with (1 # 9007199254740992)%Q in Hrlo, Hrhi.
      exists r. split; [exact Er |].
      assert (Hz0 : (0 < z)%Q) by lra.
      assert (Hr0 : (0 <= r)%Q) by nra.
      split; [exact Hr0 |].
      (* the two products bounding [r * z] *)
      assert (Hup : (2 * (r * z) <=
                     inject_Z (h * c) * (1 + (1 # 9007199254740992)))%Q).
      { rewrite <- Eyz. clear - Hrhi Hz0. nra. }
      assert (Hdn : (inject_Z (h * c) * (1 - (1 # 9007199254740992)) <=
                     2 * (r * z))%Q).
      { rewrite <- Eyz. clear - Hrlo Hz0. nra. }
      assert (Qt : (inject_Z (h * c) < 2251799813685248)%Q)
        by (change (inject_Z (h * c) < inject_Z 2251799813685248)%Q;
            rewrite <- Zlt_Qlt; lia).
      assert (Qt0 : (0 <= inject_Z (h * c))%Q)
        by (change 0%Q with (inject_Z 0); rewrite <- Zle_Qle; nia).
      split.
      { (* [r] lies below [k + 1] *)
        apply Qnot_le_lt. intro Hge.
        assert (HA : (inject_Z (h * c) + 1 <=
                      2 * (inject_Z w * inject_Z (k + 1)))%Q).
        { rewrite <- inject_Z_mult. change 2%Q with (inject_Z 2).
          change 1%Q with (inject_Z 1).
          rewrite <- inject_Z_mult, <- inject_Z_plus, <- Zle_Qle. nia. }
        assert (HK : (0 <= inject_Z (k + 1))%Q)
          by (change 0%Q with (inject_Z 0); rewrite <- Zle_Qle; lia).
        assert (HB : (inject_Z w * inject_Z (k + 1) < 2251799813685248)%Q).
        { rewrite <- inject_Z_mult.
          change (inject_Z (w * (k + 1)) < inject_Z 2251799813685248)%Q.
          rewrite <- Zlt_Qlt. nia. }
        assert (HP : (inject_Z (k + 1) *
                      (inject_Z w * (1 - (1 # 9007199254740992))) <= r * z)%Q).
        { clear - Hge HK Hlo Qw. nra. }
        clear - HP Hup HA HB. lra. }
      (* and above [k], or [k - 1] when the quotient is an integer *)
      assert (HB : (inject_Z w * inject_Z k < 1125899906842624)%Q).
      { rewrite <- inject_Z_mult.
        change (inject_Z (w * k) < inject_Z 1125899906842624)%Q.
        rewrite <- Zlt_Qlt. nia. }
      assert (HK : (0 <= inject_Z k)%Q)
        by (change 0%Q with (inject_Z 0); rewrite <- Zle_Qle; lia).
      assert (HA : (2 * (inject_Z w * inject_Z k) <= inject_Z (h * c))%Q).
      { rewrite <- inject_Z_mult. change 2%Q with (inject_Z 2).
        rewrite <- inject_Z_mult, <- Zle_Qle. nia. }
      split.
      * destruct (Qlt_le_dec r (inject_Z (k - 1))) as [Hc1 | Hc1];
          [| exact Hc1].
        exfalso.
        assert (HK1 : (0 <= inject_Z (k - 1))%Q) by lra.
        assert (E1 : (inject_Z (k - 1) == inject_Z k - 1)%Q).
        { unfold Z.sub. rewrite inject_Z_plus. reflexivity. }
        assert (HP : (r * z <= inject_Z (k - 1) *
                        (inject_Z w * (1 + (1 # 9007199254740992))))%Q).
        { clear - Hc1 Hr0 HK1 Hhi Hz0. nra. }
        rewrite E1 in HP. clear - HP Hdn HA HB Qw. nra.
      * intro Hrem.
        destruct (Qlt_le_dec r (inject_Z k)) as [Hc1 | Hc1]; [| exact Hc1].
        exfalso.
        assert (HA' : (2 * (inject_Z w * inject_Z k) + 1 <=
                       inject_Z (h * c))%Q).
        { rewrite <- inject_Z_mult. change 2%Q with (inject_Z 2).
          change 1%Q with (inject_Z 1).
          rewrite <- inject_Z_mult, <- inject_Z_plus, <- Zle_Qle. nia. }
        assert (HP : (r * z <= inject_Z k *
                        (inject_Z w * (1 + (1 # 9007199254740992))))%Q).
        { clear - Hc1 Hr0 HK Hhi Hz0. nra. }
        clear - HP Hdn HA' HB. lra.
Qed.

(** The same for the product under the floor of the glyph index. *)
Lemma index_quotient_close (n b : Z) :
  1 <= n <= 2 ^ 32 -> 0 <= b <= 255 ->
  let k := b * (n - 1) / 255 in
  exists p,
    fmul (fdiv (int b) (int 255)) (int (n - 1)) = Fin p /\
    (p < inject_Z (k + 1))%Q /\ (inject_Z (k - 1) <= p)%Q /\
    ((b * (n - 1)) mod 255 <> 0 -> (inject_Z k <= p)%Q).
Proof.
  intros Hn Hb k.
  destruct (index_product_close n b Hn Hb) as [p [Ep [Hp0 Hp1]]].
  exists p. split; [exact Ep |].
  set (t := b * (n - 1)) in *.
  pose proof (Z.div_mod t 255 ltac:(lia)) as Hdm. fold k in Hdm.
  pose proof (Z.mod_pos_bound t 255 ltac:(lia)) as Hmod.
  assert (Ht0 : 0 <= t) by (unfold t; nia).
  assert (Ht1 : t < 2 ^ 40) by (unfold t; nia).
  assert (Qt0 : (0 <= inject_Z t)%Q)
    by (change 0%Q with (inject_Z 0); rewrite <- Zle_Qle; lia).
  assert (Qt1 : (inject_Z t < 1099511627776)%Q)
    by (change (inject_Z t < inject_Z 1099511627776)%Q;
        rewrite <- Zlt_Qlt; lia).
  split; [| split].
  - assert (H : (inject_Z t + 1 <= 255 * inject_Z (k + 1))%Q).
    { change 255%Q with (inject_Z 255). change 1%Q with (inject_Z 1).
      rewrite <- inject_Z_mult, <- inject_Z_plus, <- Zle_Qle. lia. }
    clear - H Qt0 Qt1 Hp1. lra.
  - assert (H : (255 * inject_Z (k - 1) + 255 <= inject_Z t)%Q).
    { change 255%Q with (inject_Z 255).
      rewrite <- inject_Z_mult, <- inject_Z_plus, <- Zle_Qle. lia. }
    clear - H Qt0 Qt1 Hp0. lra.
  - intro Hrem.
    assert (H : (255 * inject_Z k + 1 <= inject_Z t)%Q).
    { change 255%Q with (inject_Z 255). change 1%Q with (inject_Z 1).
      rewrite <- inject_Z_mult, <- inject_Z_plus, <- Zle_Qle. lia. }
    clear - H Qt0 Qt1 Hp0. lra.
Qed.

End AgainstExact.

(** ** The properties of the specification *)

Section Claims.

Local Open Scope Z_scope.




(** C2.  On a raster buffer, for grid sizes a counter can reach and a
    table of 256 glyphs, the text of [imageDataToAscii] is R lines of C
    characters, every line followed by the line terminator, and in color
    mode the colors are R entries, the colors of the rows in row order. *)
Theorem C2_grid_shape (img : ImageData) (C R : nat) (lut : list value)
  (colorMode : bool) :
  raster_buffer img -> is_lut lut -> countable C -> countable R ->
  let result := imageDataToAscii img C R lut colorMode in
  (exists lines : list jsstring,
     length lines = R /\
     Forall (fun line => length line = C) lines /\
     ascii result = flat_map (fun line => line ++ [newline]) lines) /\
  (colorMode = true ->
   exists cs,
     colors result = Some cs /\ length cs = R /\
     cs = map (fun row =>
                 rowColor (convert_row img (cellWidth_of img C)
                             (cellHeight_of img R) lut true C row))
              (seq 0 R)).
Proof.
  intros Hwf Hlut HC HR result. split.
  - destruct (conversion_grid img C R lut colorMode Hwf HC HR)
      as [grid [[L F] E]].
    exists (map (fun line =>
                   flat_map (fun l => to_string (nth l lut VUndefined)) line)
                grid).
    split; [rewrite length_map; exact L |]. split.
    + apply Forall_map. eapply Forall_impl; [| exact F].
      intros line [Hlen Hidx]. cbn beta.
      rewrite (line_length lut line Hlut Hidx). exact Hlen.
    + unfold result. rewrite E. unfold render. clear.
      induction grid as [| line grid IH]; [reflexivity |].
      cbn [flat_map map]. rewrite IH. reflexivity.
  - intros ->.
    destruct (imageDataToAscii_rows img C R lut true) as [_ E].
    eexists. split; [exact E |]. split; [| reflexivity].
    rewrite length_map, length_seq. reflexivity.
Qed.

Lemma C2_witness :
  raster_buffer gray_2x2 /\ is_lut simple_lut /\ countable 2 /\
  exists lines : list jsstring,
    length lines = 2%nat /\
    Forall (fun line => length line = 2%nat) lines /\
    ascii (imageDataToAscii gray_2x2 2 2 simple_lut true) =
    flat_map (fun line => line ++ [newline]) lines.
Proof.
  assert (Hwf : raster_buffer gray_2x2) by (unfold raster_buffer; cbn; lia).
  assert (Hlut : is_lut simple_lut) by (split; vm_compute; reflexivity).
  assert (Hc : countable 2) by (unfold countable; lia).
  split; [exact Hwf |]. split; [exact Hlut |]. split; [exact Hc |].
  exact (proj1 (C2_grid_shape gray_2x2 2 2 simple_lut true Hwf Hlut Hc Hc)).
Defined.

(** C3.  The end-to-end scenario: the 2x2 raster of gray (128,128,128)
    with the charset ["simple"] (ten glyphs), not inverted, two columns,
    two rows, color mode.  Every cell has luminance 128, the glyph index
    for 128 is 4, the glyph there is ['='], the text is two lines ["=="]
    and the colors are ["rgb(128, 128, 128)"] twice. *)
Theorem C3_gray_scenario :
  length (CHARSETS simple) = 10%nat /\
  Forall
    (fun rc =>
       let s := cell gray_2x2 (cellWidth_of gray_2x2 2)
                     (cellHeight_of gray_2x2 2) (fst rc) (snd rc) in
       calculateLuminance (avgR s) (avgG s) (avgB s) = of_Z 128)
    [(0, 0); (0, 1); (1, 0); (1, 1)]%nat /\
  charIndex (of_Z 10) false (of_Z 128) = of_Z 4 /\
  string_at (CHARSETS simple) (of_Z 4) = VString (lit "=") /\
  exists lut,
    createBrightnessLUT (CHARSETS simple) false = Ok lut /\
    imageDataToAscii gray_2x2 2 2 lut true =
    {| ascii := lit "==" ++ [newline] ++ lit "==" ++ [newline];
       colors := Some [lit "rgb(128, 128, 128)"; lit "rgb(128, 128, 128)"] |}.
Proof.
  split; [reflexivity |].
  split; [repeat constructor; vm_compute; reflexivity |].
  split; [vm_compute; reflexivity |].
  split; [vm_compute; reflexivity |].
  eexists. split; [reflexivity |]. vm_compute. reflexivity.
Qed.

(** C4, as stated, fails: a source of 800
    by 600 at 136 columns has [floor(600 / ((800 / 136) * 2)) = 51],
    the quotient being exactly 51, while the code, whose binary64
    quotient lies just below 51, returns 50 rows. *)
Lemma C4_counterexample :
  formula_rows 800 600 136 = 51 /\
  calculateGridDimensions (of_Z 800) (of_Z 600) (of_Z 136) =
    {| cols := of_Z 136; rows := of_Z 50 |} /\
  rows (calculateGridDimensions (of_Z 800) (of_Z 600) (of_Z 136)) <>
    int (formula_rows 800 600 136).
Proof.
  split; [vm_compute; reflexivity |].
  split; [vm_compute; reflexivity |].
  vm_compute. discriminate.
Qed.

(** C4, amended.  For an integer width of [1, 2^32), an integer height
    of at least 0 and an integer number of columns of at least 1, with
    height * columns below 2^51, [calculateGridDimensions] returns the
    given columns and a number of rows that is a non-negative integer:
    the formula [floor(height / ((width / columns) * 2))] of the
    specification whenever the columns divide the width or
    height * columns is no multiple of 2 * width, and the formula or one
    below it otherwise. *)
Theorem C4_calculateGridDimensions_formula (w h c : Z) :
  1 <= w < 2 ^ 32 -> 0 <= h -> 1 <= c < 2 ^ 53 -> h * c < 2 ^ 51 ->
  exists n,
    calculateGridDimensions (of_Z w) (of_Z h) (of_Z c) =
      {| cols := of_Z c; rows := int n |} /\
    0 <= n /\
    formula_rows w h c - 1 <= n <= formula_rows w h c /\
    ((h * c) mod (2 * w) <> 0 \/ w mod c = 0 -> n = formula_rows w h c).
Proof.
  intros Hw Hh Hc Hhc.
  assert (Hh' : h < 2 ^ 51) by nia.
  rewrite formula_rows_quotient by lia.
  unfold calculateGridDimensions.
  rewrite (of_Z_exact w), (of_Z_exact h) by lia.
  set (k := h * c / (2 * w)).
  destruct (grid_quotient_close w h c Hw Hh Hc Hhc)
    as [r [Er [Hr0 [Hlt [Hge1 Hge]]]]].
  fold k in Hlt, Hge1, Hge.
  exists (Qfloor r). rewrite (of_Z_exact c) at 2 by lia.
  rewrite Er. cbn [Math_floor].
  split; [reflexivity |].
  split; [rewrite <- (Qfloor_Z 0); apply Qfloor_resp_le; exact Hr0 |].
  destruct (floor_close r k ((h * c) mod (2 * w) <> 0) Hlt Hge1 Hge)
    as [Hn He].
  split; [exact Hn |].
  intros [Hrem | Hdiv]; [exact (He Hrem) |].
  (* the columns divide the width: every operation is exact *)
  assert (Ew : w = c * (w / c)) by (apply Z.div_exact; lia).
  assert (Hd : 1 <= w / c) by nia.
  assert (Hd' : w / c < 2 ^ 32) by nia.
  assert (Efl : Math_floor (Fin r) = int (h / (2 * (w / c)))).
  { rewrite <- Er.
    rewrite fdiv_finite by (apply inject_Z_nonzero; lia).
    rewrite (round_int (inject_Z w / inject_Z c) (w / c)); [| lia |].
    - unfold CHAR_Y_PER_X. rewrite (of_Z_exact 2) by lia.
      rewrite fmul_exact by lia.
      rewrite floor_fdiv_int by lia.
      rewrite (Z.mul_comm (w / c) 2). reflexivity.
    - rewrite Ew at 1. rewrite inject_Z_mult. field.
      apply inject_Z_nonzero. lia. }
  cbn [Math_floor] in Efl. rewrite (int_inj _ _ Efl).
  unfold k. rewrite Ew at 2.
  rewrite (Z.mul_comm c (w / c)), Z.mul_assoc.
  symmetry. apply Z.div_mul_cancel_r; lia.
Qed.

Lemma C4_witness :
  calculateGridDimensions (of_Z 640) (of_Z 480) (of_Z 80) =
    {| cols := of_Z 80; rows := of_Z 30 |} /\
  calculateGridDimensions (of_Z 1920) (of_Z 1080) (of_Z 120) =
    {| cols := of_Z 120; rows := of_Z 33 |} /\
  formula_rows 640 480 80 = 30 /\ formula_rows 1920 1080 120 = 33.
Proof.
  assert (F1 : formula_rows 640 480 80 = 30) by (vm_compute; reflexivity).
  assert (F2 : formula_rows 1920 1080 120 = 33) by (vm_compute; reflexivity).
  split; [| split; [| split; [exact F1 | exact F2]]].
  - destruct (C4_calculateGridDimensions_formula 640 480 80)
      as [n [E [_ [_ Hn]]]]; [lia | lia | lia | lia |].
    rewrite E, (Hn (or_intror eq_refl)), F1. reflexivity.
  - destruct (C4_calculateGridDimensions_formula 1920 1080 120)
      as [n [E [_ [_ Hn]]]]; [lia | lia | lia | lia |].
    rewrite E, (Hn (or_intror eq_refl)), F2. reflexivity.
Defined.

(** C5.  [createBrightnessLUT] throws on the empty charset, whatever the
    invert flag, and for the charset ["x"], not inverted, returns the
    table whose 256 entries are ["x"]. *)
Theorem C5_empty_charset_throws :
  (forall invert,
     createBrightnessLUT [] invert = Throw (lit "Charset cannot be empty")) /\
  createBrightnessLUT (lit "x") false = Ok (repeat (VString (lit "x")) 256).
Proof.
  split; [reflexivity |]. vm_compute. reflexivity.
Qed.

(** C6.  On a raster buffer, a cell whose rectangle holds no pixel adds
    the entry 0 of the table to its row and leaves the color of the row
    as it was; the 0x0 raster at one column and one row yields that entry
    and the line terminator, the text [" \n"] with the table of the
    charset ["simple"]. *)
Theorem C6_empty_cell :
  (forall img cols rows row col lut colorMode st,
     raster_buffer img -> countable cols -> countable rows ->
     (row < rows)%nat -> (col < cols)%nat ->
     let cellWidth := cellWidth_of img cols in
     let cellHeight := cellHeight_of img rows in
     pixels (cell_rect cellWidth cellHeight row col) = [] ->
     emit lut colorMode (cell img cellWidth cellHeight row col) st =
     {| rowString := rowString st ++ to_string (nth 0 lut VUndefined);
        rowColor := rowColor st |}) /\
  (forall lut colorMode,
     imageDataToAscii empty_image 1 1 lut colorMode =
     {| ascii := to_string (nth 0 lut VUndefined) ++ [newline];
        colors := if colorMode then Some [[]] else None |}) /\
  imageDataToAscii empty_image 1 1 simple_lut false =
    {| ascii := lit " " ++ [newline]; colors := None |}.
Proof.
  split; [| split].
  - intros img cols rows row col lut cm st _ _ _ _ _ cw ch Hp. unfold cell.
    rewrite (cell_sums_no_pixels img _ Hp). reflexivity.
  - intros lut cm. destruct cm; vm_compute; reflexivity.
  - vm_compute. reflexivity.
Qed.

Lemma C6_witness :
  raster_buffer empty_image /\ countable 1 /\
  pixels (cell_rect (cellWidth_of empty_image 1) (cellHeight_of empty_image 1)
                    0 0) = [] /\
  rowString
    (emit simple_lut true
       (cell empty_image (cellWidth_of empty_image 1)
             (cellHeight_of empty_image 1) 0 0)
       {| rowString := []; rowColor := [] |}) = lit " ".
Proof.
  assert (Hwf : raster_buffer empty_image) by (unfold raster_buffer; cbn; lia).
  assert (Hc : countable 1) by (unfold countable; lia).
  assert (Hlt : (0 < 1)%nat) by lia.
  assert (Hp : pixels (cell_rect (cellWidth_of empty_image 1)
                         (cellHeight_of empty_image 1) 0 0) = [])
    by (vm_compute; reflexivity).
  split; [exact Hwf |]. split; [exact Hc |]. split; [exact Hp |].
  rewrite (proj1 C6_empty_cell empty_image 1%nat 1%nat 0%nat 0%nat simple_lut
             true _ Hwf Hc Hc Hlt Hlt Hp).
  vm_compute. reflexivity.
Defined.

(** C7, as stated, fails: one pixel at one column and two rows leaves the
    first row without pixels, and its color is the empty string, not an
    [rgb(...)] text of the means of its last cell. *)
Lemma C7_counterexample :
  raster_buffer one_pixel /\ is_lut simple_lut /\
  colors (imageDataToAscii one_pixel 1 2 simple_lut true) =
    Some [[]; lit "rgb(1, 2, 3)"] /\
  rgb (cell one_pixel (cellWidth_of one_pixel 1) (cellHeight_of one_pixel 2)
            0 0) = lit "rgb(NaN, NaN, NaN)" /\
  nth 0 [[]; lit "rgb(1, 2, 3)"] [] <>
  rgb (cell one_pixel (cellWidth_of one_pixel 1) (cellHeight_of one_pixel 2)
            0 0).
Proof.
  split; [unfold raster_buffer; cbn; lia |].
  split; [split; vm_compute; reflexivity |].
  split; [vm_compute; reflexivity |].
  split; [vm_compute; reflexivity |].
  vm_compute. discriminate.
Qed.

(** C7, amended.  On a raster buffer, in color mode, the color of a row
    whose last cell (column C - 1) holds at least one pixel is the text
    ["rgb(R, G, B)"] of the rounded channel means of that cell. *)
Theorem C7_row_color_last_cell (img : ImageData) (C R : nat)
  (lut : list value) (row : nat) :
  raster_buffer img -> countable C -> countable R ->
  (0 < C)%nat -> (row < R)%nat ->
  let cellWidth := cellWidth_of img C in
  let cellHeight := cellHeight_of img R in
  let s := cell img cellWidth cellHeight row (C - 1) in
  pixels (cell_rect cellWidth cellHeight row (C - 1)) <> [] ->
  exists cs,
    colors (imageDataToAscii img C R lut true) = Some cs /\
    length cs = R /\
    nth row cs [] =
      lit "rgb(" ++ number_to_string (Math_round (avgR s)) ++
      lit ", " ++ number_to_string (Math_round (avgG s)) ++
      lit ", " ++ number_to_string (Math_round (avgB s)) ++ lit ")".
Proof.
  intros Hwf HC HR Hc Hr cw ch s Hne.
  assert (Hp : fgt (pixelCount s) (of_Z 0) = true).
  { unfold s, cw, ch.
    rewrite (proj2 (cell_counts_pixels img C R row (C - 1) Hwf HC HR Hr
                      ltac:(lia))).
    fold cw ch. destruct (pixels (cell_rect cw ch row (C - 1)));
      [congruence | reflexivity]. }
  destruct (imageDataToAscii_rows img C R lut true) as [_ E].
  eexists. split; [exact E |]. split.
  - rewrite length_map, length_seq. reflexivity.
  - set (f := fun r => rowColor (convert_row img (cellWidth_of img C)
                                   (cellHeight_of img R) lut true C r)).
    rewrite (nth_indep _ [] (f 0%nat))
      by (rewrite length_map, length_seq; exact Hr).
    rewrite (map_nth f), seq_nth by exact Hr. unfold f. cbn [Nat.add].
    rewrite rowColor_convert_row_last by assumption. reflexivity.
Qed.

Lemma C7_witness :
  raster_buffer gray_2x2 /\ countable 2 /\ (0 < 2)%nat /\ (1 < 2)%nat /\
  exists cs,
    colors (imageDataToAscii gray_2x2 2 2 simple_lut true) = Some cs /\
    length cs = 2%nat /\
    nth 1 cs [] = lit "rgb(128, 128, 128)".
Proof.
  assert (Hwf : raster_buffer gray_2x2) by (unfold raster_buffer; cbn; lia).
  assert (Hn : countable 2) by (unfold countable; lia).
  assert (Hc : (0 < 2)%nat) by lia.
  assert (Hr : (1 < 2)%nat) by lia.
  split; [exact Hwf |]. split; [exact Hn |].
  split; [exact Hc |]. split; [exact Hr |].
  destruct (C7_row_color_last_cell gray_2x2 2 2 simple_lut 1 Hwf Hn Hn Hc Hr)
    as [cs [E [L Hv]]]; [vm_compute; discriminate |].
  exists cs. split; [exact E |]. split; [exact L |].
  rewrite Hv. vm_compute. reflexivity.
Defined.

(** The last cell of a row can be without pixels while an inner cell has
    some: two pixels at 49 columns have the cell width [2 / 49], whose
    product with 49 rounds below 2, so the last cell ends at pixel 1 where
    it starts, the second pixel is in no cell, and the color of the row
    is that of cell 24, which holds the first pixel. *)
Remark row_color_of_inner_cell :
  pixels (cell_rect (cellWidth_of two_pixels 49) (cellHeight_of two_pixels 1)
                    0 48) = [] /\
  pixels (cell_rect (cellWidth_of two_pixels 49) (cellHeight_of two_pixels 1)
                    0 24) = [(0, 0)]%Z /\
  colors (imageDataToAscii two_pixels 49 1 simple_lut true) =
    Some [lit "rgb(10, 20, 30)"].
Proof. repeat split; vm_compute; reflexivity. Qed.

(** C8, as stated, fails: a source of width 0 and height 480 at 80
    columns has the row count Infinity, the quotient by a zero cell
    width, not 0. *)
Lemma C8_counterexample :
  rows (calculateGridDimensions (of_Z 0) (of_Z 480) (of_Z 80)) = PInf /\
  rows (calculateGridDimensions (of_Z 0) (of_Z 480) (of_Z 80)) <> of_Z 0.
Proof.
  split; [vm_compute; reflexivity |]. vm_compute. discriminate.
Qed.

(** C8, amended.  For positive integer columns, a source of height 0 and
    positive integer width has 0 rows; a source of width 0 has the row
    count Infinity when its height is positive and NaN when its height is
    0.  No case throws. *)
Theorem C8_zero_dimensions (w h c : Z) :
  0 < c < 2 ^ 53 -> 0 <= w < 2 ^ 53 -> 0 <= h < 2 ^ 53 ->
  let g := calculateGridDimensions (of_Z w) (of_Z h) (of_Z c) in
  cols g = of_Z c /\
  (0 < w -> h = 0 -> rows g = of_Z 0) /\
  (w = 0 -> 0 < h -> rows g = PInf) /\
  (w = 0 -> h = 0 -> rows g = NaN).
Proof.
  intros Hc Hw Hh g. unfold g, calculateGridDimensions, CHAR_Y_PER_X.
  cbn [cols rows].
  rewrite (of_Z_exact w), (of_Z_exact h), (of_Z_exact c), (of_Z_exact 2),
          (of_Z_exact 0) by lia.
  rewrite (fdiv_finite (inject_Z w)) by (apply inject_Z_nonzero; lia).
  split; [reflexivity |].
  assert (Qc : (1 <= inject_Z c)%Q)
    by (change 1%Q with (inject_Z 1); rewrite <- Zle_Qle; lia).
  assert (Qc' : (inject_Z c < 9007199254740992)%Q)
    by (change (inject_Z c < inject_Z 9007199254740992)%Q;
        rewrite <- Zlt_Qlt; lia).
  split; [| split].
  - intros Hw0 ->.
    assert (Qw : (1 <= inject_Z w)%Q)
      by (change 1%Q with (inject_Z 1); rewrite <- Zle_Qle; lia).
    assert (Qw' : (inject_Z w < 9007199254740992)%Q)
      by (change (inject_Z w < inject_Z 9007199254740992)%Q;
          rewrite <- Zlt_Qlt; lia).
    set (x := (inject_Z w / inject_Z c)%Q).
    assert (Hlo : (pow2 (-53) <= x)%Q).
    { apply Qle_shift_div_l; [lra |].
      change (pow2 (-53)) with (1 # 9007199254740992)%Q. lra. }
    assert (Hhi : (x <= pow2 53)%Q).
    { apply Qle_shift_div_r; [lra |].
      change (pow2 53) with 9007199254740992%Q. nra. }
    destruct (round_below x (pow2 53) 1 53) as [q [Eq [_ Hq]]];
      [eapply Qle_trans; [apply Qlt_le_weak, (pow2_pos (-53)) | exact Hlo]
      | exact Hhi | lia | lia | ring |].
    pose proof (round_above x (pow2 (-53)) 1 (-53) q Hlo
                  ltac:(lia) ltac:(lia) ltac:(ring) Eq) as Hq0.
    rewrite Eq. cbn [fmul].
    assert (Hq2 : (pow2 (-53) <= q * inject_Z 2)%Q).
    { change (inject_Z 2) with 2%Q. pose proof (pow2_pos (-53)). lra. }
    destruct (round_below (q * inject_Z 2) (pow2 54) 1 54) as [p [Ep [_ Hp]]].
    + pose proof (pow2_pos (-53)). lra.
    + change (inject_Z 2) with 2%Q. rewrite (pow2_add 53 1).
      change (pow2 1) with 2%Q. lra.
    + lia.
    + lia.
    + ring.
    + pose proof (round_above (q * inject_Z 2) (pow2 (-53)) 1 (-53) p Hq2
                    ltac:(lia) ltac:(lia) ltac:(ring) Ep) as Hp0.
      rewrite Ep. rewrite fdiv_finite
        by (intro Hz; pose proof (pow2_pos (-53)); lra).
      rewrite round_zero by (unfold Qdiv; ring). reflexivity.
  - intros -> Hh0.
    rewrite round_zero by (unfold Qdiv; ring). cbn [fmul].
    rewrite round_zero by ring. cbn [fdiv]. unfold is_zero, is_neg.
    change (Qeq_bool 0 0) with true. cbn iota.
    assert (E1 : Qeq_bool (inject_Z h) 0 = false).
    { destruct (Qeq_bool (inject_Z h) 0) eqn:E; [| reflexivity].
      apply Qeq_bool_iff in E. apply (inject_Z_injective h 0) in E. lia. }
    assert (E2 : Qle_bool 0 (inject_Z h) = true).
    { apply Qle_bool_iff. change 0%Q with (inject_Z 0). rewrite <- Zle_Qle. lia. }
    rewrite E1, E2. reflexivity.
  - intros -> ->.
    rewrite round_zero by (unfold Qdiv; ring). cbn [fmul].
    rewrite round_zero by ring. reflexivity.
Qed.

Lemma C8_witness :
  rows (calculateGridDimensions (of_Z 640) (of_Z 0) (of_Z 80)) = of_Z 0 /\
  rows (calculateGridDimensions (of_Z 0) (of_Z 480) (of_Z 80)) = PInf /\
  rows (calculateGridDimensions (of_Z 0) (of_Z 0) (of_Z 80)) = NaN.
Proof.
  split; [| split].
  - apply (C8_zero_dimensions 640 0 80); lia.
  - apply (C8_zero_dimensions 0 480 80); lia.
  - apply (C8_zero_dimensions 0 0 80); lia.
Defined.

(** C9.  For a non-empty charset, the table that is not inverted has the
    first glyph at 0 and the last glyph at 255, and the glyph index it
    selects does not decrease as the luminance grows. *)
Theorem C9_lut_monotone (charset : jsstring) :
  charset <> [] -> countable (length charset) ->
  exists lut,
    createBrightnessLUT charset false = Ok lut /\
    nth 0 lut VUndefined = VString [hd 0%N charset] /\
    nth 255 lut VUndefined = VString [last charset 0%N] /\
    forall a b, (a <= b)%nat -> (b < 256)%nat ->
      exists ia ib,
        0 <= ia /\ ia <= ib /\ ib < Z.of_nat (length charset) /\
        charIndex (of_Z (Z.of_nat (length charset))) false (of_Z (Z.of_nat a))
          = int ia /\
        charIndex (of_Z (Z.of_nat (length charset))) false (of_Z (Z.of_nat b))
          = int ib /\
        nth a lut VUndefined = VString [nth (Z.to_nat ia) charset 0%N] /\
        nth b lut VUndefined = VString [nth (Z.to_nat ib) charset 0%N].
Proof.
  intros Hne Hc. unfold countable in Hc.
  assert (Hlen : 1 <= Z.of_nat (length charset))
    by (destruct charset; [congruence | cbn [length]; lia]).
  destruct (createBrightnessLUT_entries charset false Hne) as [lut [E [L Hn]]].
  exists lut. split; [exact E |]. split; [| split].
  - rewrite (Hn 0%nat) by lia. change (Z.of_nat 0) with 0.
    rewrite charIndex_darkest by lia. rewrite string_at_int by lia.
    destruct charset; [congruence | reflexivity].
  - rewrite (Hn 255%nat) by lia. change (Z.of_nat 255) with 255.
    rewrite charIndex_brightest by lia. rewrite string_at_int by lia.
    do 2 f_equal.
    destruct (exists_last Hne) as [front [c ->]].
    rewrite last_last, length_app. cbn [length].
    replace (Z.to_nat (Z.of_nat (length front + 1) - 1)) with (length front) by lia.
    rewrite app_nth2 by lia. rewrite Nat.sub_diag. reflexivity.
  - intros a b Hab Hb.
    destruct (charIndex_mono (Z.of_nat (length charset)) (Z.of_nat a) (Z.of_nat b))
      as [ia [ib [Ea [Eb [H0 [Hi Hn1]]]]]]; [lia | lia | lia |].
    exists ia, ib. repeat split; try lia; try assumption.
    + rewrite (Hn a) by lia. rewrite Ea. apply string_at_int. lia.
    + rewrite (Hn b) by lia. rewrite Eb. apply string_at_int. lia.
Qed.

Lemma C9_witness :
  CHARSETS simple <> [] /\ countable (length (CHARSETS simple)) /\
  exists lut,
    createBrightnessLUT (CHARSETS simple) false = Ok lut /\
    nth 0 lut VUndefined = VString (lit " ") /\
    nth 255 lut VUndefined = VString (lit "@").
Proof.
  assert (Hne : CHARSETS simple <> []) by discriminate.
  assert (Hc : countable (length (CHARSETS simple)))
    by (unfold countable; cbn; lia).
  split; [exact Hne |]. split; [exact Hc |].
  destruct (C9_lut_monotone (CHARSETS simple) Hne Hc)
    as [lut [E [H0 [H255 _]]]].
  exists lut. split; [exact E |]. split; [exact H0 | exact H255].
Defined.

(** C10.  On a raster buffer, for grid sizes a counter can reach, the
    luminance of every cell that holds at least one pixel is an integer
    of [0, 255], so the access into a table of 256 entries is in bounds;
    hence every character of the text comes from a table entry of an
    index below 256, the entry 0 for a cell without pixels. *)
Theorem C10_luminance_in_bounds (img : ImageData) (C R : nat)
  (lut : list value) (colorMode : bool) :
  raster_buffer img -> countable C -> countable R -> length lut = 256%nat ->
  (forall row col, (row < R)%nat -> (col < C)%nat ->
     let cellWidth := cellWidth_of img C in
     let cellHeight := cellHeight_of img R in
     let s := cell img cellWidth cellHeight row col in
     pixels (cell_rect cellWidth cellHeight row col) <> [] ->
     exists l,
       calculateLuminance (avgR s) (avgG s) (avgB s) = int l /\
       0 <= l <= 255 /\
       (Z.to_nat l < length lut)%nat /\
       array_at lut (int l) = nth (Z.to_nat l) lut VUndefined) /\
  exists grid,
    index_grid C R grid /\
    ascii (imageDataToAscii img C R lut colorMode) = render lut grid.
Proof.
  intros Hwf HC HR Hlen. split.
  - intros row col Hrow Hcol cw ch s Hne.
    destruct (cell_counts_pixels img C R row col Hwf HC HR Hrow Hcol)
      as [Hs _].
    fold cw ch s in Hs.
    assert (Hn : 0 < Z.of_nat (length (pixels (cell_rect cw ch row col))))
      by (destruct (pixels (cell_rect cw ch row col));
          [congruence | cbn [length]; lia]).
    destruct (cell_luminance _ s Hs Hn) as [l [El Hl]].
    exists l. split; [exact El |]. split; [exact Hl |].
    split; [lia | apply array_at_int; lia].
  - apply conversion_grid; assumption.
Qed.

Lemma C10_witness :
  raster_buffer gray_2x2 /\ countable 2 /\ length simple_lut = 256%nat /\
  (exists l,
     let s := cell gray_2x2 (cellWidth_of gray_2x2 2)
                   (cellHeight_of gray_2x2 2) 1 1 in
     calculateLuminance (avgR s) (avgG s) (avgB s) = int l /\
     0 <= l <= 255) /\
  exists grid,
    index_grid 2 2 grid /\
    ascii (imageDataToAscii gray_2x2 2 2 simple_lut true) =
    render simple_lut grid.
Proof.
  assert (Hwf : raster_buffer gray_2x2) by (unfold raster_buffer; cbn; lia).
  assert (Hc : countable 2) by (unfold countable; lia).
  assert (Hlen : length simple_lut = 256%nat) by (vm_compute; reflexivity).
  assert (Hlt : (1 < 2)%nat) by lia.
  assert (Hne : pixels (cell_rect (cellWidth_of gray_2x2 2)
                          (cellHeight_of gray_2x2 2) 1 1) <> [])
    by (vm_compute; discriminate).
  split; [exact Hwf |]. split; [exact Hc |]. split; [exact Hlen |].
  destruct (C10_luminance_in_bounds gray_2x2 2 2 simple_lut true
              Hwf Hc Hc Hlen) as [Hcell Hgrid].
  split; [| exact Hgrid].
  destruct (Hcell 1%nat 1%nat Hlt Hlt Hne) as [l [El [Hl _]]].
  exists l. split; [exact El | exact Hl].
Defined.

End Claims.

(** * Further properties of the code

    Properties read off the source beyond those of the specification:
    the row count and the glyph index against exact arithmetic, the
    table as a whole, the cells as sums over pixels, whole conversions,
    and what the components do with them. *)

(** ** The row count of the grid *)

Section GridRowsAgree.

Local Open Scope Z_scope.

Lemma round_one_half : round (1 # 2) = Fin (1 # 2).
Proof. vm_compute. reflexivity. Qed.

(** X1.  [SimpleAsciiMirror] computes its row count in line, as
    [Math.floor(videoHeight / (videoWidth / cols) * 0.5)]; for a video of
    positive width it is the row count of [calculateGridDimensions]:
    doubling the divisor and halving the quotient round alike. *)
Theorem X1_animate_rows_agree (w h c : Z) :
  1 <= w < 2 ^ 32 -> 0 <= h < 2 ^ 32 -> 1 <= c < 2 ^ 53 ->
  animate_rows (of_Z w) (of_Z h) (of_Z c) =
  rows (calculateGridDimensions (of_Z w) (of_Z h) (of_Z c)).
Proof.
  intros Hw Hh Hc.
  rewrite (of_Z_exact w), (of_Z_exact h), (of_Z_exact c) by lia.
  unfold animate_rows, calculateGridDimensions. cbn [rows].
  destruct (cell_width_near w c Hw Hc) as [qv [Eqv [_ [_ [Hq0 [Hq1 E2]]]]]].
  rewrite Eqv, E2, round_one_half.
  assert (Nq : ~ (qv == 0)%Q) by (intro H; lra).
  assert (Nq2 : ~ (Qred (qv * 2) == 0)%Q)
    by (rewrite Qred_correct; intro H; apply Nq; lra).
  rewrite !fdiv_finite by assumption.
  assert (Qh' : (inject_Z h < 4294967296)%Q)
    by (change (inject_Z h < inject_Z 4294967296)%Q;
        rewrite <- Zlt_Qlt; lia).
  destruct (Z.eq_dec h 0) as [-> | Nh].
  - rewrite !round_zero by (unfold Qdiv; ring). cbn [fmul].
    rewrite round_zero by ring. reflexivity.
  - assert (Qh : (1 <= inject_Z h)%Q)
      by (change 1%Q with (inject_Z 1); rewrite <- Zle_Qle; lia).
    set (y := (inject_Z h / qv)%Q).
    assert (Ey : (y * qv == inject_Z h)%Q) by (unfold y; field; exact Nq).
    assert (Hy0 : ((1 # 8589934592) <= y)%Q)
      by (apply Qle_shift_div_l; [lra | lra]).
    assert (Hy1 : (y <= 77371252455336267181195264)%Q)
      by (apply Qle_shift_div_r; [lra | nra]).
    assert (Hmin : (pow2 (emin + 1) <= y)%Q).
    { apply Qle_trans with (pow2 (-33)); [apply pow2_le; unfold emin; lia |].
      exact Hy0. }
    assert (Hmax : (y < pow2 1020)%Q).
    { apply Qle_lt_trans with (pow2 86); [exact Hy1 | apply pow2_lt; lia]. }
    destruct (round_error y) as [r [Er _]].
    + eapply Qle_trans; [| exact Hmin]. apply pow2_le. lia.
    + apply Qlt_le_trans with (pow2 87); [| apply pow2_le; lia].
      change (pow2 (-53)) with (1 # 9007199254740992)%Q.
      change (pow2 87) with 154742504910672534362390528%Q. lra.
    + rewrite Er. cbn [fmul].
      rewrite <- (round_half y r Hmin Hmax Er).
      rewrite (round_compat (inject_Z h / Qred (qv * 2)) (y / 2));
        [reflexivity |].
      rewrite Qred_correct. unfold y. field. exact Nq.
Qed.

Lemma X1_witness :
  animate_rows (of_Z 640) (of_Z 480) (of_Z 80) =
  rows (calculateGridDimensions (of_Z 640) (of_Z 480) (of_Z 80)).
Proof. apply (X1_animate_rows_agree 640 480 80); lia. Defined.

(** X2.  When the columns divide the width, the row count is the integer
    quotient of the height by twice the cell width: no rounding error
    reaches the result. *)
Theorem X2_grid_rows_divisible (w h c d : Z) :
  1 <= c -> 1 <= d -> w = c * d -> w < 2 ^ 52 -> 0 <= h < 2 ^ 53 ->
  rows (calculateGridDimensions (of_Z w) (of_Z h) (of_Z c)) =
  int (h / (2 * d)).
Proof.
  intros Hc Hd Ew Hw Hh.
  assert (Hc' : c < 2 ^ 52) by nia.
  assert (Hd' : d < 2 ^ 52) by nia.
  rewrite (of_Z_exact w), (of_Z_exact h), (of_Z_exact c) by lia.
  unfold calculateGridDimensions, CHAR_Y_PER_X. cbn [rows].
  rewrite (of_Z_exact 2) by lia.
  rewrite fdiv_finite by (apply inject_Z_nonzero; lia).
  rewrite (round_int (inject_Z w / inject_Z c) d); [| lia |].
  - rewrite fmul_exact by lia.
    rewrite floor_fdiv_int by lia. rewrite (Z.mul_comm d 2). reflexivity.
  - subst w. rewrite inject_Z_mult. field. apply inject_Z_nonzero. lia.
Qed.

Lemma X2_witness :
  rows (calculateGridDimensions (of_Z 640) (of_Z 480) (of_Z 80)) = int 30.
Proof.
  apply (X2_grid_rows_divisible 640 480 80 8); [lia | lia | reflexivity | lia | lia].
Defined.

End GridRowsAgree.

Section GridRowsExact.

Local Open Scope Z_scope.

(** X3.  The row count against exact arithmetic.  For a source of
    positive width below 2^32 and [h * c] below 2^51, the result is a
    non-negative integer; it is the exact [floor(h * c / (2 * w))]
    whenever that quotient is not an integer, and the quotient or one
    below it when it is. *)
Theorem X3_grid_rows_near_exact (w h c : Z) :
  1 <= w < 2 ^ 32 -> 0 <= h -> 1 <= c < 2 ^ 53 -> h * c < 2 ^ 51 ->
  exists n,
    rows (calculateGridDimensions (of_Z w) (of_Z h) (of_Z c)) = int n /\
    0 <= n /\
    h * c / (2 * w) - 1 <= n <= h * c / (2 * w) /\
    ((h * c) mod (2 * w) <> 0 -> n = h * c / (2 * w)).
Proof.
  intros Hw Hh Hc Hhc.
  assert (Hh' : h < 2 ^ 51) by nia.
  rewrite (of_Z_exact w), (of_Z_exact h), (of_Z_exact c) by lia.
  unfold calculateGridDimensions. cbn [rows].
  destruct (grid_quotient_close w h c Hw Hh Hc Hhc)
    as [r [Er [Hr0 [Hlt [Hge1 Hge]]]]].
  rewrite Er. cbn [Math_floor]. exists (Qfloor r).
  split; [reflexivity |].
  split; [rewrite <- (Qfloor_Z 0); apply Qfloor_resp_le; exact Hr0 |].
  apply floor_close; assumption.
Qed.

Lemma X3_witness :
  rows (calculateGridDimensions (of_Z 1920) (of_Z 1080) (of_Z 120)) = int 33.
Proof.
  destruct (X3_grid_rows_near_exact 1920 1080 120) as [n [E [_ [_ Hn]]]];
    [lia | lia | lia | lia |].
  rewrite E. rewrite Hn; [reflexivity | vm_compute; discriminate].
Defined.

End GridRowsExact.

(** ** More on the lookup table *)

Section TableMore.

Local Open Scope Z_scope.

Lemma charset_length (charset : jsstring) :
  charset <> [] -> 1 <= Z.of_nat (length charset).
Proof. destruct charset; [congruence | cbn [length]; lia]. Qed.

(** The entries of the table are glyphs of the charset. *)
Lemma table_entry (charset : jsstring) (invert : bool) (b : nat) :
  charset <> [] -> countable (length charset) -> (b < 256)%nat ->
  exists i,
    charIndex (of_Z (Z.of_nat (length charset))) invert (of_Z (Z.of_nat b))
      = int i /\
    0 <= i < Z.of_nat (length charset) /\
    nth b (table_of (createBrightnessLUT charset invert)) VUndefined =
    VString [nth (Z.to_nat i) charset 0%N].
Proof.
  intros Hne Hc Hb. unfold countable in Hc.
  pose proof (charset_length charset Hne) as Hlen.
  destruct (createBrightnessLUT_entries charset invert Hne) as [lut [E [L Hn]]].
  destruct (charIndex_range (Z.of_nat (length charset)) (Z.of_nat b) invert)
    as [i [Ei Hi]]; [lia | lia |].
  exists i. split; [exact Ei |]. split; [exact Hi |].
  rewrite E. cbn [table_of]. rewrite (Hn b Hb), Ei.
  apply string_at_int. exact Hi.
Qed.

(** X4.  The table of a non-empty charset is a table of 256 glyphs, every
    one a glyph of the charset: what [createBrightnessLUT] returns is
    what [imageDataToAscii] expects. *)
Theorem X4_createBrightnessLUT_is_lut (charset : jsstring) (invert : bool) :
  charset <> [] -> countable (length charset) ->
  exists lut,
    createBrightnessLUT charset invert = Ok lut /\
    is_lut lut /\
    Forall (fun v => exists c, In c charset /\ v = VString [c]) lut.
Proof.
  intros Hne Hc.
  destruct (createBrightnessLUT_entries charset invert Hne) as [lut [E [L Hn]]].
  exists lut. split; [exact E |].
  assert (Hentry : forall v, In v lut ->
            exists c, In c charset /\ v = VString [c]).
  { intros v Hv. destruct (In_nth lut v VUndefined Hv) as [b [Hb <-]].
    rewrite L in Hb.
    destruct (table_entry charset invert b Hne Hc Hb) as [i [_ [Hi Ev]]].
    rewrite E in Ev. cbn [table_of] in Ev.
    exists (nth (Z.to_nat i) charset 0%N). split; [| exact Ev].
    apply nth_In. lia. }
  split; [split; [exact L |] |].
  - apply forallb_forall. intros v Hv.
    destruct (Hentry v Hv) as [c [_ ->]]. reflexivity.
  - apply Forall_forall. exact Hentry.
Qed.

Lemma X4_witness :
  exists lut,
    createBrightnessLUT (CHARSETS blocks) true = Ok lut /\
    is_lut lut /\
    Forall (fun v => exists c, In c (CHARSETS blocks) /\ v = VString [c]) lut.
Proof.
  apply (X4_createBrightnessLUT_is_lut (CHARSETS blocks) true).
  - discriminate.
  - unfold countable. cbn. lia.
Defined.

(** X5.  Inverting the table is reversing the charset: the inverted
    table of a charset is the table of the reversed charset, for the
    empty charset the same error. *)
Theorem X5_invert_is_reverse (charset : jsstring) :
  countable (length charset) ->
  createBrightnessLUT charset true = createBrightnessLUT (rev charset) false.
Proof.
  intro Hc.
  destruct charset as [| c0 cs]; [reflexivity |].
  set (charset := c0 :: cs) in *.
  assert (Hne : charset <> []) by discriminate.
  assert (Hne' : rev charset <> []).
  { intro H. apply (f_equal (@length _)) in H.
    rewrite length_rev in H. discriminate H. }
  pose proof (charset_length charset Hne) as Hlen.
  unfold countable in Hc.
  destruct (createBrightnessLUT_entries charset true Hne) as [l1 [E1 [L1 N1]]].
  destruct (createBrightnessLUT_entries (rev charset) false Hne')
    as [l2 [E2 [L2 N2]]].
  rewrite E1, E2. f_equal.
  apply (nth_ext l1 l2 VUndefined VUndefined); [congruence |].
  intros b Hb. rewrite L1 in Hb.
  rewrite (N1 b Hb), (N2 b Hb), length_rev.
  destruct (charIndex_invert (Z.of_nat (length charset)) (Z.of_nat b))
    as [i [Ei [Eo Hi]]]; [lia | lia |].
  rewrite Ei, Eo.
  rewrite !string_at_int by (rewrite ?length_rev; lia).
  rewrite rev_nth by lia.
  do 3 f_equal. lia.
Qed.

Lemma X5_witness :
  createBrightnessLUT (CHARSETS simple) true =
  createBrightnessLUT (lit "@%#*+=-:. ") false.
Proof.
  apply (X5_invert_is_reverse (CHARSETS simple)). unfold countable. cbn. lia.
Defined.

(** X6.  The glyph index against exact arithmetic.  For a charset of at
    most 2^32 glyphs the index is the exact [floor(b * (N - 1) / 255)]
    whenever that quotient is not an integer, and the quotient or one
    below it when it is. *)
Theorem X6_charIndex_near_exact (n b : Z) :
  1 <= n <= 2 ^ 32 -> 0 <= b <= 255 ->
  exists i,
    charIndex (of_Z n) false (of_Z b) = int i /\
    b * (n - 1) / 255 - 1 <= i <= b * (n - 1) / 255 /\
    ((b * (n - 1)) mod 255 <> 0 -> i = b * (n - 1) / 255).
Proof.
  intros Hn Hb.
  destruct (index_quotient_close n b Hn Hb) as [p [Ep [Hlt [Hge1 Hge]]]].
  unfold charIndex.
  rewrite (of_Z_exact n), (of_Z_exact b), (of_Z_exact 255), (of_Z_exact 1)
    by lia.
  rewrite fsub_exact, Ep by lia. cbn [Math_floor].
  exists (Qfloor p). split; [reflexivity |].
  apply floor_close; assumption.
Qed.

Lemma X6_witness :
  charIndex (of_Z 10) false (of_Z 128) = int 4.
Proof.
  destruct (X6_charIndex_near_exact 10 128) as [i [E [_ Hi]]]; [lia | lia |].
  rewrite E. rewrite Hi; [reflexivity | vm_compute; discriminate].
Defined.

(** Below 256 glyphs the index grows by at most one from a luminance to
    the next. *)
Lemma charIndex_step (n b : Z) :
  1 <= n <= 255 -> 0 <= b < 255 ->
  exists i j,
    charIndex (of_Z n) false (of_Z b) = int i /\
    charIndex (of_Z n) false (of_Z (b + 1)) = int j /\
    j <= i + 1.
Proof.
  intros Hn Hb. unfold charIndex.
  rewrite (of_Z_exact n), (of_Z_exact 1), (of_Z_exact 255),
          (of_Z_exact b), (of_Z_exact (b + 1)) by lia.
  rewrite fsub_exact by lia.
  destruct (index_product_close n b) as [p [Ep [Hp0 _]]]; [lia | lia |].
  destruct (index_product_close n (b + 1)) as [p' [Ep' [_ Hp1]]];
    [lia | lia |].
  rewrite Ep, Ep'. cbn [Math_floor].
  exists (Qfloor p), (Qfloor p'). split; [reflexivity |].
  split; [reflexivity |].
  set (i := Qfloor p).
  assert (Hi : (p < inject_Z (i + 1))%Q) by apply Qlt_floor.
  set (t := b * (n - 1)) in *.
  assert (Ht0 : 0 <= t) by (unfold t; nia).
  assert (Ht1 : t <= 65025) by (unfold t; nia).
  (* the exact product is at most [i + 1] *)
  assert (Ht : t <= 255 * (i + 1)).
  { apply Znot_gt_le. intro Hgt.
    assert (H : (inject_Z (255 * (i + 1)) + 1 <= inject_Z t)%Q).
    { change 1%Q with (inject_Z 1). rewrite <- inject_Z_plus, <- Zle_Qle. lia. }
    assert (H65 : (inject_Z t <= 65025)%Q)
      by (change 65025%Q with (inject_Z 65025); rewrite <- Zle_Qle; lia).
    rewrite inject_Z_mult in H. change (inject_Z 255) with 255%Q in H.
    clear - H H65 Hp0 Hi. lra. }
  (* hence the next one is below [i + 2] *)
  assert (Ht' : (b + 1) * (n - 1) <= 255 * (i + 2) - 1) by (unfold t in *; nia).
  assert (Hlt : (p' < inject_Z (i + 2))%Q).
  { assert (H : (inject_Z ((b + 1) * (n - 1)) + 1 <= 255 * inject_Z (i + 2))%Q).
    { change 255%Q with (inject_Z 255). change 1%Q with (inject_Z 1).
      rewrite <- inject_Z_mult, <- inject_Z_plus, <- Zle_Qle. lia. }
    assert (H0 : (0 <= inject_Z ((b + 1) * (n - 1)))%Q)
      by (change 0%Q with (inject_Z 0); rewrite <- Zle_Qle; nia).
    assert (H65 : (inject_Z ((b + 1) * (n - 1)) <= 65025)%Q)
      by (change 65025%Q with (inject_Z 65025); rewrite <- Zle_Qle; nia).
    clear - H H0 H65 Hp1. lra. }
  assert (Hj : (inject_Z (Qfloor p') < inject_Z (i + 2))%Q)
    by (eapply Qle_lt_trans; [apply Qfloor_le | exact Hlt]).
  rewrite <- Zlt_Qlt in Hj. lia.
Qed.

(** A sequence of integers that starts at 0 and grows by at most one
    takes every value up to each of its terms. *)
Lemma steps_reach (f : nat -> Z) (m : nat) :
  f 0%nat = 0 -> (forall b, (b < m)%nat -> f (S b) <= f b + 1) ->
  forall i, 0 <= i <= f m -> exists b, (b <= m)%nat /\ f b = i.
Proof.
  intros H0 Hstep. induction m as [| m IH]; intros i Hi.
  - exists 0%nat. split; [lia |]. lia.
  - destruct (Z.eq_dec i (f (S m))) as [-> | Ni].
    + exists (S m). split; [lia | reflexivity].
    + destruct (IH (fun b Hb => Hstep b (Nat.lt_lt_succ_r _ _ Hb)) i)
        as [b [Hb Eb]].
      * pose proof (Hstep m (Nat.lt_succ_diag_r m)). lia.
      * exists b. split; [lia | exact Eb].
Qed.

(** At 256 glyphs the index of a luminance is the luminance. *)
Lemma charIndex_256 :
  map (fun b => charIndex (of_Z 256) false (of_Z b)) luminances =
  map (fun b => int b) luminances.
Proof. vm_compute. reflexivity. Qed.

(** Every index of a charset of at most 256 glyphs is selected at some
    luminance. *)
Lemma index_reached (n i : Z) :
  1 <= n <= 256 -> 0 <= i < n ->
  exists b, 0 <= b <= 255 /\ charIndex (of_Z n) false (of_Z b) = int i.
Proof.
  intros Hn Hi.
  destruct (Z.eq_dec n 256) as [-> | Nn].
  - exists i. split; [lia |].
    pose proof charIndex_256 as H.
    rewrite map_ext_in_iff in H. apply H.
    unfold luminances. apply in_map_iff. exists (Z.to_nat i).
    split; [lia | apply in_seq; lia].
  - set (f := fun b : nat =>
                match to_int (charIndex (of_Z n) false (of_Z (Z.of_nat b))) with
                | Some z => z
                | None => 0
                end).
    destruct (steps_reach f 255) with (i := i) as [b [Hb Eb]].
    + unfold f. change (Z.of_nat 0) with 0.
      rewrite charIndex_darkest by lia. rewrite to_int_int. reflexivity.
    + intros b Hb. unfold f.
      destruct (charIndex_step n (Z.of_nat b)) as [x [y [Ex [Ey Hxy]]]];
        [lia | lia |].
      replace (Z.of_nat (S b)) with (Z.of_nat b + 1) by lia.
      rewrite Ex, Ey, !to_int_int. exact Hxy.
    + unfold f. change (Z.of_nat 255) with 255.
      rewrite charIndex_brightest by lia. rewrite to_int_int. lia.
    + exists (Z.of_nat b). split; [lia |].
      unfold f in Eb.
      destruct (charIndex_range n (Z.of_nat b) false) as [z [Ez _]];
        [lia | lia |].
      rewrite Ez in *. rewrite to_int_int in Eb. congruence.
Qed.

(** X7.  A charset of at most 256 glyphs is used in full: every glyph is
    the entry of some luminance, with either invert flag. *)
Theorem X7_every_glyph_used (charset : jsstring) (invert : bool) (k : nat) :
  (k < length charset)%nat -> (length charset <= 256)%nat ->
  exists lut b,
    createBrightnessLUT charset invert = Ok lut /\ (b < 256)%nat /\
    nth b lut VUndefined = VString [nth k charset 0%N].
Proof.
  intros Hk Hlen.
  assert (Hne : charset <> []) by (intro H; subst charset; inversion Hk).
  destruct (createBrightnessLUT_entries charset invert Hne) as [lut [E [L Hn]]].
  exists lut.
  set (n := length charset) in *.
  set (i := if invert then (n - 1 - k)%nat else k).
  assert (Hi : (i < n)%nat) by (unfold i; destruct invert; lia).
  destruct (index_reached (Z.of_nat n) (Z.of_nat i)) as [bz [Hbz Ebz]];
    [lia | lia |].
  exists (Z.to_nat bz). split; [exact E |]. split; [lia |].
  destruct (charIndex_invert (Z.of_nat n) bz) as [j [Ej0 [Ej1 Hj]]];
    [lia | lia |].
  rewrite Ej0 in Ebz.
  assert (j = Z.of_nat i) by (injection Ebz; auto).
  subst j.
  rewrite (Hn (Z.to_nat bz)) by lia. fold n.
  rewrite Z2Nat.id by lia.
  destruct invert.
  - rewrite Ej1, string_at_int by (fold n; lia).
    do 3 f_equal. unfold i. lia.
  - rewrite Ej0, string_at_int by (fold n; lia).
    do 3 f_equal. unfold i. lia.
Qed.

Lemma X7_witness :
  exists lut b,
    createBrightnessLUT (CHARSETS detailed) true = Ok lut /\ (b < 256)%nat /\
    nth b lut VUndefined = VString [nth 42 (CHARSETS detailed) 0%N].
Proof.
  apply (X7_every_glyph_used (CHARSETS detailed) true 42); vm_compute; lia.
Defined.

End TableMore.

(** ** More on the luminance *)

Section LuminanceMore.

Ltac compute_as t H :=
  let v := eval vm_compute in t in
  assert (H : t = v) by (vm_compute; reflexivity).

Local Open Scope Q_scope.

Lemma luminance_of_grays :
  map (fun v => calculateLuminance (of_Z v) (of_Z v) (of_Z v)) luminances =
  map (fun v => of_Z v) luminances.
Proof. vm_compute. reflexivity. Qed.

(** X8.  A gray keeps its value: the luminance of (v, v, v) is v for
    every channel value v of 0 to 255, the three weights summing to one
    closely enough for the rounding to absorb the error. *)
Theorem X8_calculateLuminance_gray (v : Z) :
  (0 <= v <= 255)%Z ->
  calculateLuminance (of_Z v) (of_Z v) (of_Z v) = of_Z v.
Proof.
  intro Hv. pose proof luminance_of_grays as H.
  rewrite map_ext_in_iff in H. apply H.
  unfold luminances. apply in_map_iff. exists (Z.to_nat v).
  split; [lia | apply in_seq; lia].
Qed.

Lemma X8_witness :
  calculateLuminance (of_Z 128) (of_Z 128) (of_Z 128) = of_Z 128.
Proof. apply (X8_calculateLuminance_gray 128). lia. Defined.

(** X9.  The luminance does not decrease when a channel grows: for
    channel values of [0, 255], raising any of them gives a luminance
    at least as large. *)
Theorem X9_calculateLuminance_monotone (r g b r' g' b' : Q) :
  0 <= r -> r <= r' -> r' <= 255 ->
  0 <= g -> g <= g' -> g' <= 255 ->
  0 <= b -> b <= b' -> b' <= 255 ->
  exists l l' : Z,
    calculateLuminance (Fin r) (Fin g) (Fin b) = int l /\
    calculateLuminance (Fin r') (Fin g') (Fin b') = int l' /\
    (0 <= l <= l')%Z /\ (l' <= 255)%Z.
Proof.
  intros Hr0 Hr Hr' Hg0 Hg Hg' Hb0 Hb Hb'.
  destruct (calculateLuminance_range r' g' b') as [l' [El' Hl']];
    [lra | lra | lra |].
  revert El'. unfold calculateLuminance.
  compute_as LUMINANCE_WEIGHTS.R ER.
  compute_as LUMINANCE_WEIGHTS.G EG.
  compute_as LUMINANCE_WEIGHTS.B EB.
  rewrite ER, EG, EB.
  match type of ER with _ = Fin ?w => set (wr := w) end.
  match type of EG with _ = Fin ?w => set (wg := w) end.
  match type of EB with _ = Fin ?w => set (wb := w) end.
  assert (Hwr : 0 <= wr) by discriminate.
  assert (Hwg : 0 <= wg) by discriminate.
  assert (Hwb : 0 <= wb) by discriminate.
  compute_as (round (255 * wr)) Er.
  compute_as (round (255 * wg)) Eg.
  compute_as (round (255 * wb)) Eb.
  match type of Er with _ = Fin ?p =>
    destruct (fmul_le r' wr 255 p ltac:(lra) Hr' Hwr Er) as [xr' [Fr' [Hxr0' Hxr']]]
  end.
  match type of Eg with _ = Fin ?p =>
    destruct (fmul_le g' wg 255 p ltac:(lra) Hg' Hwg Eg) as [xg' [Fg' [Hxg0' Hxg']]]
  end.
  match type of Eb with _ = Fin ?p =>
    destruct (fmul_le b' wb 255 p ltac:(lra) Hb' Hwb Eb) as [xb' [Fb' [Hxb0' Hxb']]]
  end.
  destruct (fmul_le r wr r' xr' Hr0 Hr Hwr Fr') as [xr [Fr [Hxr0 Hxr]]].
  destruct (fmul_le g wg g' xg' Hg0 Hg Hwg Fg') as [xg [Fg [Hxg0 Hxg]]].
  destruct (fmul_le b wb b' xb' Hb0 Hb Hwb Fb') as [xb [Fb [Hxb0 Hxb]]].
  rewrite Fr, Fg, Fb, Fr', Fg', Fb'.
  match type of Hxr' with _ <= ?P => match type of Hxg' with _ <= ?Q =>
    compute_as (round (P + Q)) E1;
    match type of E1 with _ = Fin ?p =>
      destruct (fadd_le xr' xg' P Q p Hxr0' Hxr' Hxg0' Hxg' E1)
        as [y1' [F1' [Hy0' Hy1']]]
    end
  end end.
  destruct (fadd_le xr xg xr' xg' y1' Hxr0 Hxr Hxg0 Hxg F1')
    as [y1 [F1 [Hy0 Hy1]]].
  rewrite F1, F1'.
  match type of Hy1' with _ <= ?P => match type of Hxb' with _ <= ?Q =>
    compute_as (round (P + Q)) E2;
    match type of E2 with _ = Fin ?p =>
      destruct (fadd_le y1' xb' P Q p Hy0' Hy1' Hxb0' Hxb' E2)
        as [y2' [F2' [Hz0' Hz1']]]
    end
  end end.
  destruct (fadd_le y1 xb y1' xb' y2' Hy0 Hy1 Hxb0 Hxb F2')
    as [y2 [F2 [Hz0 Hz1]]].
  rewrite F2, F2'. cbn [Math_round]. intro El'.
  assert (E : Qfloor (y2' + (1 # 2)) = l') by (injection El'; auto).
  exists (Qfloor (y2 + (1 # 2))), l'.
  split; [reflexivity |]. split; [rewrite E; reflexivity |].
  split; [| lia]. split.
  - change 0%Z with (Qfloor 0). apply Qfloor_resp_le. lra.
  - rewrite <- E. apply Qfloor_resp_le. lra.
Qed.

Lemma X9_witness :
  exists l l' : Z,
    calculateLuminance (Fin 10) (Fin 20) (Fin 30) = int l /\
    calculateLuminance (Fin 40) (Fin 50) (Fin 60) = int l' /\
    (0 <= l <= l')%Z /\ (l' <= 255)%Z.
Proof.
  apply (X9_calculateLuminance_monotone 10 20 30 40 50 60);
    unfold Qle; cbn; lia.
Defined.

End LuminanceMore.

(** ** The cells as sums over pixels *)

Section CellTotals.

Local Open Scope Z_scope.

Variable img : ImageData.
Hypothesis Hwf : raster_buffer img.

Lemma channel_total_cons (c : Z) (p : Z * Z) (ps : list (Z * Z)) :
  channel_total img c (p :: ps) =
  channel img c (fst p) (snd p) + channel_total img c ps.
Proof. reflexivity. Qed.

Lemma channel_total_app (c : Z) (ps qs : list (Z * Z)) :
  channel_total img c (ps ++ qs) =
  channel_total img c ps + channel_total img c qs.
Proof.
  induction ps as [| p ps IH]; [reflexivity |].
  cbn [app]. rewrite !channel_total_cons, IH. lia.
Qed.

(** The byte a pixel loop reads is the channel of the pixel. *)
Lemma data_at_channel (c y x : Z) :
  0 <= y < Z.of_N (height img) -> 0 <= x < Z.of_N (width img) ->
  0 <= c <= 3 ->
  data_at (data img) (int ((y * Z.of_N (width img) + x) * 4 + c)) =
    int (channel img c y x) /\
  0 <= channel img c y x <= 255.
Proof.
  intros Hy Hx Hc. destruct Hwf as [_ [_ [_ Hlen]]].
  assert (Hk : 0 <= (y * Z.of_N (width img) + x) * 4 + c <
               4 * (Z.of_N (width img) * Z.of_N (height img))) by nia.
  unfold data_at, channel. rewrite index_of_int by lia.
  destruct (nth_error (data img)
              (Z.to_nat ((y * Z.of_N (width img) + x) * 4 + c)))
    as [b |] eqn:E.
  - pose proof (to_N_bounded b) as Hb.
    split; [apply of_Z_exact; lia | lia].
  - apply nth_error_None in E. lia.
Qed.

(** The body of the pixel loops adds the three channels of the pixel. *)
Lemma add_pixel_totals (y x tr tg tb n : Z) :
  0 <= y < Z.of_N (height img) -> 0 <= x < Z.of_N (width img) ->
  0 <= n < 2 ^ 45 ->
  0 <= tr <= 255 * n -> 0 <= tg <= 255 * n -> 0 <= tb <= 255 * n ->
  add_pixel img y x (integer_sums tr tg tb n) =
  integer_sums (tr + channel img 0 y x) (tg + channel img 1 y x)
               (tb + channel img 2 y x) (n + 1).
Proof.
  intros Hy Hx Hn Hr Hg Hb.
  destruct Hwf as [Hw [Hh [Hwh _]]].
  set (W := Z.of_N (width img)) in *.
  assert (Hyx : 0 <= y * W + x < W * Z.of_N (height img)) by nia.
  unfold add_pixel, integer_sums. cbn [totalR totalG totalB pixelCount].
  fold W.
  rewrite (of_Z_exact y), (of_Z_exact W), (of_Z_exact x), (of_Z_exact 4),
          (of_Z_exact 1), (of_Z_exact 2) by lia.
  rewrite (fmul_exact y W) by nia.
  rewrite (fadd_exact (y * W) x) by nia.
  rewrite (fmul_exact (y * W + x) 4) by lia.
  rewrite !fadd_exact by lia.
  destruct (data_at_channel 0 y x Hy Hx) as [Er Hvr]; [lia |].
  destruct (data_at_channel 1 y x Hy Hx) as [Eg Hvg]; [lia |].
  destruct (data_at_channel 2 y x Hy Hx) as [Eb Hvb]; [lia |].
  fold W in Er, Eg, Eb. rewrite Z.add_0_r in Er.
  rewrite Er, Eg, Eb. rewrite !fadd_exact by lia. reflexivity.
Qed.

Lemma channel_total_range (c : Z) (ps : list (Z * Z)) :
  0 <= c <= 3 ->
  Forall (fun p => 0 <= fst p < Z.of_N (height img) /\
                   0 <= snd p < Z.of_N (width img)) ps ->
  0 <= channel_total img c ps <= 255 * Z.of_nat (length ps).
Proof.
  intros Hc Hps. induction Hps as [| p ps [Hy Hx] _ IH];
    [cbn; lia |].
  rewrite channel_total_cons. cbn [length].
  destruct (data_at_channel c (fst p) (snd p) Hy Hx Hc) as [_ Hv]. lia.
Qed.

(** One row of a rectangle. *)
Lemma row_totals (y : Z) (xs : list Z) (tr tg tb n : Z) :
  0 <= y < Z.of_N (height img) ->
  Forall (fun x => 0 <= x < Z.of_N (width img)) xs ->
  0 <= n -> n + Z.of_nat (length xs) <= 2 ^ 45 ->
  0 <= tr <= 255 * n -> 0 <= tg <= 255 * n -> 0 <= tb <= 255 * n ->
  let ps := map (fun x => (y, x)) xs in
  fold_left (fun s x => add_pixel img y x s) xs (integer_sums tr tg tb n) =
  integer_sums (tr + channel_total img 0 ps) (tg + channel_total img 1 ps)
               (tb + channel_total img 2 ps) (n + Z.of_nat (length xs)).
Proof.
  intros Hy Hxs. revert tr tg tb n.
  induction Hxs as [| x xs Hx _ IH]; intros tr tg tb n Hn Hlen Hr Hg Hb;
    cbn [fold_left length map].
  - cbn. rewrite !Z.add_0_r. reflexivity.
  - cbn [length] in Hlen.
    rewrite add_pixel_totals by (assumption || lia).
    destruct (data_at_channel 0 y x Hy Hx) as [_ H0]; [lia |].
    destruct (data_at_channel 1 y x Hy Hx) as [_ H1]; [lia |].
    destruct (data_at_channel 2 y x Hy Hx) as [_ H2]; [lia |].
    rewrite IH by lia. rewrite !channel_total_cons. cbn [fst snd].
    f_equal; lia.
Qed.

Lemma row_pixels_within (y : Z) (xs : list Z) :
  0 <= y < Z.of_N (height img) ->
  Forall (fun x => 0 <= x < Z.of_N (width img)) xs ->
  Forall (fun p => 0 <= fst p < Z.of_N (height img) /\
                   0 <= snd p < Z.of_N (width img))
         (map (fun x => (y, x)) xs).
Proof.
  intros Hy Hxs. apply Forall_map. eapply Forall_impl; [| exact Hxs].
  intros x Hx. cbn [fst snd]. auto.
Qed.

(** The rows of a rectangle. *)
Lemma rows_totals (ys xs : list Z) (tr tg tb n : Z) :
  Forall (fun y => 0 <= y < Z.of_N (height img)) ys ->
  Forall (fun x => 0 <= x < Z.of_N (width img)) xs ->
  0 <= n -> n + Z.of_nat (length ys) * Z.of_nat (length xs) <= 2 ^ 45 ->
  0 <= tr <= 255 * n -> 0 <= tg <= 255 * n -> 0 <= tb <= 255 * n ->
  let ps := flat_map (fun y => map (fun x => (y, x)) xs) ys in
  fold_left
    (fun s y => fold_left (fun s x => add_pixel img y x s) xs s) ys
    (integer_sums tr tg tb n) =
  integer_sums (tr + channel_total img 0 ps) (tg + channel_total img 1 ps)
               (tb + channel_total img 2 ps) (n + Z.of_nat (length ps)).
Proof.
  intros Hys Hxs. revert tr tg tb n.
  induction Hys as [| y ys Hy _ IH]; intros tr tg tb n Hn Hlen Hr Hg Hb;
    cbn [fold_left length flat_map].
  - cbn. rewrite !Z.add_0_r. reflexivity.
  - cbn [length] in Hlen.
    rewrite row_totals by (assumption || nia).
    pose proof (row_pixels_within y xs Hy Hxs) as Hps.
    pose proof (channel_total_range 0 _ ltac:(lia) Hps) as H0.
    pose proof (channel_total_range 1 _ ltac:(lia) Hps) as H1.
    pose proof (channel_total_range 2 _ ltac:(lia) Hps) as H2.
    rewrite length_map in H0, H1, H2.
    rewrite IH by nia.
    rewrite !channel_total_app, length_app, length_map.
    f_equal; lia.
Qed.

(** The sums over a rectangle inside the raster are the totals of the
    three color channels over its pixels, and their number. *)
Lemma cell_sums_totals (r : rect) :
  rect_within img r ->
  cell_sums img r =
  integer_sums (channel_total img 0 (pixels r)) (channel_total img 1 (pixels r))
               (channel_total img 2 (pixels r))
               (Z.of_nat (length (pixels r))).
Proof.
  intros [sx [ex [sy [ey [-> [Hsx [Hex [Hsy Hey]]]]]]]].
  destruct Hwf as [_ [_ [Hwh _]]].
  unfold cell_sums, pixels. cbn [startX endX startY endY].
  destruct (range_within img sx ex (Z.of_N (width img)) Hsx (proj2 Hex))
    as [Fx Lx]; [lia |].
  destruct (range_within img sy ey (Z.of_N (height img)) Hsy (proj2 Hey))
    as [Fy Ly]; [lia |].
  change no_sums with (integer_sums 0 0 0 0).
  rewrite rows_totals; [reflexivity | exact Fy | exact Fx | lia | nia | lia ..].
Qed.

End CellTotals.

(** ** Cells, blocks and uniform rasters *)

Section Blocks.

Local Open Scope Z_scope.

Lemma pixels_within (img : ImageData) (r : rect) :
  rect_within img r ->
  Forall (fun p => 0 <= fst p < Z.of_N (height img) /\
                   0 <= snd p < Z.of_N (width img)) (pixels r).
Proof.
  intros [sx [ex [sy [ey [-> [Hsx [Hex [Hsy Hey]]]]]]]].
  unfold pixels. cbn [startX endX startY endY].
  apply Forall_forall. intros [y x] Hp.
  apply in_flat_map in Hp. destruct Hp as [y' [Hy Hp]].
  apply in_map_iff in Hp. destruct Hp as [x' [E Hx]].
  injection E as <- <-.
  apply in_for_range in Hy. apply in_for_range in Hx. cbn [fst snd]. lia.
Qed.

(** X10.  The sums of a cell are exact: on a raster buffer the three
    totals of a cell are the sums of the red, green and blue bytes of
    the pixels of its rectangle, the count is their number, and every
    pixel read lies inside the raster. *)
Theorem X10_cell_totals (img : ImageData) (cols rows row col : nat) :
  raster_buffer img -> countable cols -> countable rows ->
  (row < rows)%nat -> (col < cols)%nat ->
  let cw := cellWidth_of img cols in
  let ch := cellHeight_of img rows in
  let ps := pixels (cell_rect cw ch row col) in
  cell img cw ch row col =
    integer_sums (channel_total img 0 ps) (channel_total img 1 ps)
                 (channel_total img 2 ps) (Z.of_nat (length ps)) /\
  Forall (fun p => 0 <= fst p < Z.of_N (height img) /\
                   0 <= snd p < Z.of_N (width img)) ps.
Proof.
  intros Hwf Hc Hr Hrow Hcol cw ch ps.
  pose proof (cell_rect_within img cols rows row col Hwf Hc Hr Hcol Hrow) as Hin.
  split.
  - unfold cell. apply (cell_sums_totals img Hwf). exact Hin.
  - apply pixels_within. exact Hin.
Qed.

Lemma X10_witness :
  cell gray_2x2 (cellWidth_of gray_2x2 2) (cellHeight_of gray_2x2 2) 1 1 =
  integer_sums 128 128 128 1.
Proof.
  assert (Hwf : raster_buffer gray_2x2) by (unfold raster_buffer; cbn; lia).
  assert (Hc : countable 2) by (unfold countable; lia).
  assert (Hlt : (1 < 2)%nat) by lia.
  exact (proj1 (X10_cell_totals gray_2x2 2 2 1 1 Hwf Hc Hc Hlt Hlt)).
Defined.

(** An edge of a grid that divides the raster is a multiple of the
    cell size. *)
Lemma edge_divisible (size count d k : Z) :
  size = count * d -> size < 2 ^ 53 -> 0 <= d -> 1 <= count < 2 ^ 53 ->
  0 <= k <= count ->
  Math_floor (fmul (int k) (fdiv (int size) (int count))) = int (k * d).
Proof.
  intros Es Hs Hd Hc Hk.
  rewrite fdiv_finite by (apply inject_Z_nonzero; lia).
  rewrite (round_int (inject_Z size / inject_Z count) d); [| nia |].
  - rewrite fmul_exact by nia. apply Math_floor_int.
  - subst size. rewrite inject_Z_mult. field. apply inject_Z_nonzero. lia.
Qed.

(** The rectangle of a cell of a grid that divides the raster. *)
Lemma divisible_rect (img : ImageData) (C R row col : nat) (d e : Z) :
  Z.of_N (width img) = Z.of_nat C * d -> Z.of_N (height img) = Z.of_nat R * e ->
  Z.of_N (width img) < 2 ^ 32 -> Z.of_N (height img) < 2 ^ 32 ->
  countable C -> countable R -> (row < R)%nat -> (col < C)%nat ->
  cell_rect (cellWidth_of img C) (cellHeight_of img R) row col =
  {| startX := int (Z.of_nat col * d);
     endX := int (Z.of_nat col * d + d);
     startY := int (Z.of_nat row * e);
     endY := int (Z.of_nat row * e + e) |}.
Proof.
  intros Ew Eh Hw Hh Hc Hr Hrow Hcol. unfold countable in *.
  assert (Hd : 0 <= d) by nia.
  assert (He : 0 <= e) by nia.
  unfold cell_rect, cellWidth_of, cellHeight_of.
  rewrite (of_Z_exact (Z.of_nat col)), (of_Z_exact (Z.of_nat row)),
          (of_Z_exact 1), (of_Z_exact (Z.of_nat C)),
          (of_Z_exact (Z.of_nat R)), (of_Z_exact (Z.of_N (width img))),
          (of_Z_exact (Z.of_N (height img))) by lia.
  rewrite !fadd_exact by lia.
  rewrite !(edge_divisible (Z.of_N (width img)) (Z.of_nat C) d)
    by (assumption || lia).
  rewrite !(edge_divisible (Z.of_N (height img)) (Z.of_nat R) e)
    by (assumption || lia).
  do 2 f_equal; f_equal; ring.
Qed.

(** The pixels of a block, row by row. *)
Lemma block_pixels (sx sy d e : Z) :
  0 <= d -> 0 <= e ->
  pixels {| startX := int sx; endX := int (sx + d);
            startY := int sy; endY := int (sy + e) |} =
  flat_map (fun j => map (fun i => (sy + Z.of_nat j, sx + Z.of_nat i))
                         (seq 0 (Z.to_nat d)))
           (seq 0 (Z.to_nat e)).
Proof.
  intros Hd He. unfold pixels. cbn [startX endX startY endY].
  rewrite !for_range_int.
  replace (sy + e - sy) with e by ring. replace (sx + d - sx) with d by ring.
  induction (seq 0 (Z.to_nat e)) as [| j js IH]; [reflexivity |].
  cbn [map flat_map]. rewrite IH, map_map. reflexivity.
Qed.

Lemma length_block (A : Type) (f : nat -> nat -> A) (n m : nat) :
  length (flat_map (fun j => map (f j) (seq 0 n)) (seq 0 m)) = (m * n)%nat.
Proof.
  generalize 0%nat at 2. induction m as [| m IH]; intro s; [reflexivity |].
  cbn [seq flat_map]. rewrite length_app, length_map, length_seq, IH.
  reflexivity.
Qed.

(** X11.  When the grid divides the raster (width = C * d, height =
    R * e), the cell at (row, col) is the block of d by e pixels at
    (col * d, row * e), read row by row: the cells tile the raster, no
    pixel is left out or read twice. *)
Theorem X11_cell_rect_divisible (img : ImageData) (C R row col : nat)
  (d e : Z) :
  Z.of_N (width img) = Z.of_nat C * d -> Z.of_N (height img) = Z.of_nat R * e ->
  Z.of_N (width img) < 2 ^ 32 -> Z.of_N (height img) < 2 ^ 32 ->
  countable C -> countable R -> (row < R)%nat -> (col < C)%nat ->
  let r := cell_rect (cellWidth_of img C) (cellHeight_of img R) row col in
  r = {| startX := int (Z.of_nat col * d);
         endX := int (Z.of_nat col * d + d);
         startY := int (Z.of_nat row * e);
         endY := int (Z.of_nat row * e + e) |} /\
  pixels r =
    flat_map (fun j => map (fun i => (Z.of_nat row * e + Z.of_nat j,
                                      Z.of_nat col * d + Z.of_nat i))
                           (seq 0 (Z.to_nat d)))
             (seq 0 (Z.to_nat e)) /\
  Z.of_nat (length (pixels r)) = d * e.
Proof.
  intros Ew Eh Hw Hh Hc Hr Hrow Hcol r.
  assert (Hd : 0 <= d) by nia.
  assert (He : 0 <= e) by nia.
  pose proof (divisible_rect img C R row col d e Ew Eh Hw Hh Hc Hr Hrow Hcol)
    as E.
  fold r in E. rewrite E. split; [reflexivity |].
  rewrite block_pixels by assumption. split; [reflexivity |].
  rewrite length_block. lia.
Qed.

Lemma X11_witness :
  pixels (cell_rect (cellWidth_of gray_2x2 2) (cellHeight_of gray_2x2 2) 1 0)
  = [(1, 0)].
Proof.
  refine (proj1 (proj2 (X11_cell_rect_divisible gray_2x2 2 2 1 0 1 1
                          _ _ _ _ _ _ _ _))).
  - reflexivity.
  - reflexivity.
  - reflexivity.
  - reflexivity.
  - unfold countable. lia.
  - unfold countable. lia.
  - lia.
  - lia.
Defined.

Lemma channel_total_uniform (img : ImageData) (c v : Z) (ps : list (Z * Z)) :
  Forall (fun p => channel img c (fst p) (snd p) = v) ps ->
  channel_total img c ps = v * Z.of_nat (length ps).
Proof.
  intro H. induction H as [| p ps Hp _ IH]; [cbn; lia |].
  rewrite channel_total_cons, IH, Hp. cbn [length]. lia.
Qed.

(** The mean of [n] equal values is the value. *)
Lemma mean_exact (v n : Z) :
  0 <= v < 2 ^ 53 -> 0 < n -> fdiv (int (v * n)) (int n) = int v.
Proof.
  intros Hv Hn. rewrite fdiv_finite by (apply inject_Z_nonzero; lia).
  apply round_int; [exact Hv |].
  rewrite inject_Z_mult. field. apply inject_Z_nonzero. lia.
Qed.

Lemma Math_round_int (v : Z) : Math_round (int v) = int v.
Proof.
  cbn [Math_round]. do 2 f_equal.
  assert (H : (inject_Z v <= inject_Z v + (1 # 2))%Q) by lra.
  assert (H' : (inject_Z v + (1 # 2) < inject_Z (v + 1))%Q).
  { rewrite inject_Z_plus. change (inject_Z 1) with 1%Q. lra. }
  apply Qfloor_resp_le in H. rewrite Qfloor_Z in H.
  pose proof (Qfloor_le (inject_Z v + (1 # 2))) as G.
  assert (K : (inject_Z (Qfloor (inject_Z v + (1 # 2))) < inject_Z (v + 1))%Q)
    by lra.
  rewrite <- Zlt_Qlt in K. lia.
Qed.

(** A rectangle with a pixel, inside a raster of one color, has that
    color as its means. *)
Lemma uniform_rect (img : ImageData) (r : rect) (lut : list value)
  (vr vg vb : Z) :
  raster_buffer img -> uniform img vr vg vb -> rect_within img r ->
  pixels r <> [] ->
  let s := cell_sums img r in
  avgR s = int vr /\ avgG s = int vg /\ avgB s = int vb /\
  cell_text lut s =
    to_string (array_at lut (calculateLuminance (int vr) (int vg) (int vb))) /\
  rgb s = rgb_text vr vg vb.
Proof.
  intros Hwf Hu Hin Hne s.
  pose proof (cell_sums_totals img Hwf r Hin) as Es. fold s in Es.
  pose proof (pixels_within img r Hin) as Hps.
  set (ps := pixels r) in *.
  assert (Hn : 0 < Z.of_nat (length ps))
    by (destruct ps; [congruence | cbn [length]; lia]).
  assert (Hall : forall c v,
            (forall y x, 0 <= y < Z.of_N (height img) ->
                         0 <= x < Z.of_N (width img) -> channel img c y x = v) ->
            channel_total img c ps = v * Z.of_nat (length ps)).
  { intros c v Hv. apply channel_total_uniform.
    eapply Forall_impl; [| exact Hps]. intros p [Hy Hx]. apply Hv; assumption. }
  rewrite (Hall 0 vr), (Hall 1 vg), (Hall 2 vb) in Es
    by (intros y x Hy Hx; apply (Hu y x Hy Hx)).
  (* the color is a color: some pixel has it *)
  assert (Hv : 0 <= vr <= 255 /\ 0 <= vg <= 255 /\ 0 <= vb <= 255).
  { destruct ps as [| p ps']; [congruence |].
    apply Forall_inv in Hps. destruct Hps as [Hy Hx].
    destruct (Hu _ _ Hy Hx) as [E0 [E1 E2]].
    destruct (data_at_channel img Hwf 0 _ _ Hy Hx) as [_ H0]; [lia |].
    destruct (data_at_channel img Hwf 1 _ _ Hy Hx) as [_ H1]; [lia |].
    destruct (data_at_channel img Hwf 2 _ _ Hy Hx) as [_ H2]; [lia |].
    lia. }
  assert (Er : avgR s = int vr)
    by (rewrite Es; unfold avgR, integer_sums; cbn [totalR pixelCount];
        apply mean_exact; lia).
  assert (Eg : avgG s = int vg)
    by (rewrite Es; unfold avgG, integer_sums; cbn [totalG pixelCount];
        apply mean_exact; lia).
  assert (Eb : avgB s = int vb)
    by (rewrite Es; unfold avgB, integer_sums; cbn [totalB pixelCount];
        apply mean_exact; lia).
  split; [exact Er |]. split; [exact Eg |]. split; [exact Eb |]. split.
  - unfold cell_text. rewrite Er, Eg, Eb.
    assert (Ep : fgt (pixelCount s) (of_Z 0) = true).
    { rewrite Es. unfold integer_sums. cbn [pixelCount]. unfold fgt.
      rewrite (of_Z_exact 0), flt_int by lia. apply Z.ltb_lt. exact Hn. }
    rewrite Ep. reflexivity.
  - unfold rgb, rgb_text. rewrite Er, Eg, Eb, !Math_round_int. reflexivity.
Qed.

(** X12.  On a raster of one color, every cell that holds a pixel has
    that color as its means: the cell resolves to the table entry at
    the luminance of the color, and its color text is the color. *)
Theorem X12_uniform_cell (img : ImageData) (C R row col : nat)
  (lut : list value) (vr vg vb : Z) :
  raster_buffer img -> countable C -> countable R ->
  (row < R)%nat -> (col < C)%nat -> uniform img vr vg vb ->
  let cw := cellWidth_of img C in
  let ch := cellHeight_of img R in
  let s := cell img cw ch row col in
  pixels (cell_rect cw ch row col) <> [] ->
  avgR s = int vr /\ avgG s = int vg /\ avgB s = int vb /\
  cell_text lut s =
    to_string (array_at lut (calculateLuminance (int vr) (int vg) (int vb))) /\
  rgb s = rgb_text vr vg vb.
Proof.
  intros Hwf Hc Hr Hrow Hcol Hu cw ch s Hne.
  apply (uniform_rect img (cell_rect cw ch row col) lut vr vg vb Hwf Hu);
    [| exact Hne].
  apply cell_rect_within; assumption.
Qed.

Lemma uniform_gray_2x2 : uniform gray_2x2 128 128 128.
Proof.
  intros y x Hy Hx. cbn in Hy, Hx.
  assert (Hc : (y = 0 \/ y = 1) /\ (x = 0 \/ x = 1)) by lia.
  destruct Hc as [[-> | ->] [-> | ->]]; repeat split; reflexivity.
Qed.

Lemma X12_witness :
  let s := cell gray_2x2 (cellWidth_of gray_2x2 2) (cellHeight_of gray_2x2 2)
                0 1 in
  avgR s = int 128 /\ avgG s = int 128 /\ avgB s = int 128 /\
  cell_text simple_lut s = lit "=" /\
  rgb s = lit "rgb(128, 128, 128)".
Proof.
  assert (Hwf : raster_buffer gray_2x2) by (unfold raster_buffer; cbn; lia).
  assert (Hc : countable 2) by (unfold countable; lia).
  assert (H0 : (0 < 2)%nat) by lia.
  assert (H1 : (1 < 2)%nat) by lia.
  assert (Hne : pixels (cell_rect (cellWidth_of gray_2x2 2)
                          (cellHeight_of gray_2x2 2) 0 1) <> [])
    by (vm_compute; discriminate).
  exact (X12_uniform_cell gray_2x2 2 2 0 1 simple_lut 128 128 128
           Hwf Hc Hc H0 H1 uniform_gray_2x2 Hne).
Defined.

End Blocks.

(** ** Whole conversions *)

Section Whole.

Local Open Scope Z_scope.

Lemma flat_map_constant {A : Type} (f : A -> jsstring) (g : jsstring)
  (l : list A) :
  (forall x, In x l -> f x = g) ->
  flat_map f l = concat (repeat g (length l)).
Proof.
  intro H. induction l as [| a l IH]; [reflexivity |].
  cbn [flat_map length repeat concat].
  rewrite (H a (or_introl eq_refl)), IH; [reflexivity |].
  intros x Hx. apply H. right. exact Hx.
Qed.

Lemma map_constant {A B : Type} (f : A -> B) (g : B) (l : list A) :
  (forall x, In x l -> f x = g) -> map f l = repeat g (length l).
Proof.
  intro H. induction l as [| a l IH]; [reflexivity |].
  cbn [map length repeat].
  rewrite (H a (or_introl eq_refl)), IH; [reflexivity |].
  intros x Hx. apply H. right. exact Hx.
Qed.

Lemma conversion_eta (r : conversion) :
  r = {| ascii := ascii r; colors := colors r |}.
Proof. destruct r. reflexivity. Qed.

(** A block of positive sides holds a pixel. *)
Lemma block_not_empty (sx sy d e : Z) :
  1 <= d -> 1 <= e ->
  pixels {| startX := int sx; endX := int (sx + d);
            startY := int sy; endY := int (sy + e) |} <> [].
Proof.
  intros Hd He. unfold pixels. cbn [startX endX startY endY].
  rewrite !for_range_int.
  replace (sy + e - sy) with e by ring. replace (sx + d - sx) with d by ring.
  destruct (Z.to_nat e) as [| ne] eqn:Ee; [lia |].
  destruct (Z.to_nat d) as [| nd] eqn:Ed; [lia |].
  cbn. discriminate.
Qed.

(** X13.  A raster of one color on a grid that divides it converts to
    R equal lines of C copies of one glyph, the table entry at the
    luminance of the color, and in color mode to R times the text of the
    color. *)
Theorem X13_uniform_raster_conversion (img : ImageData) (C R : nat) (d e : Z)
  (lut : list value) (colorMode : bool) (vr vg vb : Z) :
  raster_buffer img -> uniform img vr vg vb ->
  (1 <= C)%nat -> 1 <= d -> 1 <= e ->
  Z.of_N (width img) = Z.of_nat C * d -> Z.of_N (height img) = Z.of_nat R * e ->
  let glyph :=
    to_string (array_at lut (calculateLuminance (int vr) (int vg) (int vb))) in
  imageDataToAscii img C R lut colorMode =
  {| ascii := concat (repeat (concat (repeat glyph C) ++ [newline]) R);
     colors := if colorMode then Some (repeat (rgb_text vr vg vb) R)
               else None |}.
Proof.
  intros Hwf Hu HC Hd He Ew Eh glyph.
  pose proof Hwf as [Hw [Hh _]].
  assert (Hc : countable C) by (unfold countable; nia).
  assert (Hr : countable R) by (unfold countable; nia).
  set (cw := cellWidth_of img C). set (ch := cellHeight_of img R).
  assert (Hcell : forall row col, (row < R)%nat -> (col < C)%nat ->
            cell_text lut (cell img cw ch row col) = glyph /\
            rgb (cell img cw ch row col) = rgb_text vr vg vb /\
            fgt (pixelCount (cell img cw ch row col)) (of_Z 0) = true).
  { intros row col Hrow Hcol.
    assert (Hne : pixels (cell_rect cw ch row col) <> []).
    { unfold cw, ch.
      rewrite (divisible_rect img C R row col d e Ew Eh Hw Hh Hc Hr
                 Hrow Hcol).
      apply block_not_empty; assumption. }
    destruct (uniform_rect img (cell_rect cw ch row col) lut vr vg vb Hwf Hu
                (cell_rect_within img C R row col Hwf Hc Hr Hcol Hrow) Hne)
      as [_ [_ [_ [Et Ergb]]]].
    fold (cell img cw ch row col) in Et, Ergb.
    split; [exact Et |]. split; [exact Ergb |].
    destruct (cell_counts_pixels img C R row col Hwf Hc Hr Hrow Hcol)
      as [_ Ep].
    fold cw ch in Ep. rewrite Ep.
    destruct (pixels (cell_rect cw ch row col)); [congruence | reflexivity]. }
  rewrite (conversion_eta (imageDataToAscii img C R lut colorMode)).
  destruct (imageDataToAscii_rows img C R lut colorMode) as [Ea Ec].
  fold cw ch in Ea, Ec. rewrite Ea, Ec. f_equal.
  - rewrite (flat_map_constant _ (concat (repeat glyph C) ++ [newline]));
      [rewrite length_seq; reflexivity |].
    intros row Hrow. apply in_seq in Hrow. f_equal.
    rewrite rowString_convert_row.
    rewrite (flat_map_constant _ glyph); [rewrite length_seq; reflexivity |].
    intros col Hcol. apply in_seq in Hcol.
    apply (Hcell row col); lia.
  - destruct colorMode; [| reflexivity]. f_equal.
    rewrite (map_constant _ (rgb_text vr vg vb));
      [rewrite length_seq; reflexivity |].
    intros row Hrow. apply in_seq in Hrow.
    destruct (Hcell row (C - 1)%nat) as [_ [Ergb Ep]]; [lia | lia |].
    rewrite rowColor_convert_row_last by (lia || exact Ep).
    exact Ergb.
Qed.

Lemma X13_witness :
  imageDataToAscii gray_2x2 2 2 simple_lut true =
  {| ascii := lit "==" ++ [newline] ++ lit "==" ++ [newline];
     colors := Some [lit "rgb(128, 128, 128)"; lit "rgb(128, 128, 128)"] |}.
Proof.
  assert (Hwf : raster_buffer gray_2x2) by (unfold raster_buffer; cbn; lia).
  apply (X13_uniform_raster_conversion gray_2x2 2 2 1 1 simple_lut true
           128 128 128 Hwf uniform_gray_2x2); try reflexivity; lia.
Defined.

(** X14.  The color mode changes nothing in the text: with and without
    it the text is the same; without it no colors are returned, with it
    one color per row. *)
Theorem X14_colorMode_keeps_text (img : ImageData) (C R : nat)
  (lut : list value) :
  ascii (imageDataToAscii img C R lut true) =
    ascii (imageDataToAscii img C R lut false) /\
  colors (imageDataToAscii img C R lut false) = None /\
  exists cs, colors (imageDataToAscii img C R lut true) = Some cs /\
             length cs = R.
Proof.
  destruct (imageDataToAscii_rows img C R lut true) as [Ea Ec].
  destruct (imageDataToAscii_rows img C R lut false) as [Ea' Ec'].
  split; [| split].
  - rewrite Ea, Ea'. apply flat_map_ext. intro row.
    rewrite !rowString_convert_row. reflexivity.
  - exact Ec'.
  - eexists. split; [exact Ec |]. rewrite length_map, length_seq. reflexivity.
Qed.

Lemma fold_left_ext_in {A B : Type} (f g : A -> B -> A) (l : list B) (a : A) :
  (forall x, In x l -> forall s, f s x = g s x) ->
  fold_left f l a = fold_left g l a.
Proof.
  revert a. induction l as [| b l IH]; intros a H; [reflexivity |].
  cbn [fold_left]. rewrite (H b (or_introl eq_refl)).
  apply IH. intros x Hx. apply H. right. exact Hx.
Qed.

Lemma channel_total_ext (img img' : ImageData) (c : Z) (ps : list (Z * Z)) :
  Forall (fun p => channel img' c (fst p) (snd p) =
                   channel img c (fst p) (snd p)) ps ->
  channel_total img' c ps = channel_total img c ps.
Proof.
  intro H. induction H as [| p ps Hp _ IH]; [reflexivity |].
  rewrite !channel_total_cons, IH, Hp. reflexivity.
Qed.

(** X15.  The alpha channel is ignored: two rasters of the same
    dimensions whose bytes agree except at the alpha positions (every
    fourth byte) convert alike. *)
Theorem X15_alpha_ignored (img img' : ImageData) (C R : nat) (lut : list value)
  (colorMode : bool) :
  raster_buffer img -> raster_buffer img' ->
  width img' = width img -> height img' = height img ->
  (forall k, (k mod 4 <> 3)%nat ->
     nth_error (data img') k = nth_error (data img) k) ->
  countable C -> countable R ->
  imageDataToAscii img' C R lut colorMode =
  imageDataToAscii img C R lut colorMode.
Proof.
  intros Hwf Hwf' Ew Eh Hd Hc Hr.
  assert (Hch : forall c y x, 0 <= c <= 2 -> 0 <= y -> 0 <= x ->
            channel img' c y x = channel img c y x).
  { intros c y x Hc3 Hy Hx. unfold channel. rewrite Ew, Hd; [reflexivity |].
    set (k := y * Z.of_N (width img) + x).
    assert (Hk : 0 <= k) by (unfold k; nia).
    replace (Z.to_nat (k * 4 + c)) with (Z.to_nat k * 4 + Z.to_nat c)%nat
      by lia.
    rewrite Nat.Div0.add_mod, Nat.Div0.mod_mul, Nat.add_0_l,
            Nat.Div0.mod_mod.
    assert (Z.to_nat c < 3)%nat by lia.
    rewrite Nat.mod_small by lia. lia. }
  assert (Hcell : forall row col, (row < R)%nat -> (col < C)%nat ->
            cell img' (cellWidth_of img C) (cellHeight_of img R) row col =
            cell img (cellWidth_of img C) (cellHeight_of img R) row col).
  { intros row col Hrow Hcol.
    pose proof (cell_rect_within img C R row col Hwf Hc Hr Hcol Hrow) as Hr1.
    pose proof (cell_rect_within img' C R row col Hwf' Hc Hr Hcol Hrow) as Hr2.
    unfold cellWidth_of, cellHeight_of in Hr2. rewrite Ew, Eh in Hr2.
    fold (cellWidth_of img C) in Hr2. fold (cellHeight_of img R) in Hr2.
    pose proof (cell_sums_totals img Hwf _ Hr1) as E.
    pose proof (cell_sums_totals img' Hwf' _ Hr2) as E'.
    pose proof (pixels_within img _ Hr1) as Hin.
    unfold cell.
    rewrite E, E'.
    assert (Ht : forall c, 0 <= c <= 2 ->
              channel_total img' c
                (pixels (cell_rect (cellWidth_of img C) (cellHeight_of img R)
                           row col)) =
              channel_total img c
                (pixels (cell_rect (cellWidth_of img C) (cellHeight_of img R)
                           row col))).
    { intros c Hc3. apply channel_total_ext.
      eapply Forall_impl; [| exact Hin].
      intros p [Hy Hx]. apply Hch; lia. }
    rewrite (Ht 0), (Ht 1), (Ht 2) by lia. reflexivity. }
  unfold imageDataToAscii. rewrite Ew, Eh.
  fold (cellWidth_of img C). fold (cellHeight_of img R).
  assert (Hrow : forall row, (row < R)%nat ->
            convert_row img' (cellWidth_of img C) (cellHeight_of img R)
                        lut colorMode C row =
            convert_row img (cellWidth_of img C) (cellHeight_of img R)
                        lut colorMode C row).
  { intros row Hrow. unfold convert_row. apply fold_left_ext_in.
    intros col Hcol st. apply in_seq in Hcol.
    rewrite Hcell by lia. reflexivity. }
  rewrite (fold_left_ext_in
             (fun acc row =>
                let st := convert_row img' (cellWidth_of img C)
                            (cellHeight_of img R) lut colorMode C row in
                (fst acc ++ (rowString st ++ [newline]),
                 if colorMode then snd acc ++ [rowColor st] else snd acc))
             (fun acc row =>
                let st := convert_row img (cellWidth_of img C)
                            (cellHeight_of img R) lut colorMode C row in
                (fst acc ++ (rowString st ++ [newline]),
                 if colorMode then snd acc ++ [rowColor st] else snd acc))).
  - reflexivity.
  - intros row Hrow' acc. apply in_seq in Hrow'. cbn zeta.
    rewrite Hrow by lia. reflexivity.
Qed.

Lemma X15_witness :
  imageDataToAscii
    {| data := [x0a; x14; x1e; x00; x28; x32; x3c; x80];
       width := 2; height := 1 |} 2 1 simple_lut true =
  imageDataToAscii two_pixels 2 1 simple_lut true.
Proof.
  apply X15_alpha_ignored.
  - unfold raster_buffer. cbn. lia.
  - unfold raster_buffer. cbn. lia.
  - reflexivity.
  - reflexivity.
  - intros k Hk.
    do 8 (destruct k as [| k]; [try reflexivity; cbn in Hk; lia |]).
    destruct k; reflexivity.
  - unfold countable. lia.
  - unfold countable. lia.
Defined.

End Whole.

(** ** The cells of a row tile the raster *)

Section Tiling.

Local Open Scope Z_scope.

Lemma map_seq_from {A : Type} (f : nat -> A) (n s : nat) :
  map f (seq s n) = map (fun k => f (s + k)%nat) (seq 0 n).
Proof.
  revert s. induction n as [| n IH]; intro s; [reflexivity |].
  cbn [seq map]. rewrite Nat.add_0_r. f_equal.
  rewrite IH, <- seq_shift, map_map.
  apply map_ext. intro k. rewrite Nat.add_succ_r. reflexivity.
Qed.

Lemma flat_map_ext_within {A B : Type} (f g : A -> list B) (l : list A) :
  (forall x, In x l -> f x = g x) -> flat_map f l = flat_map g l.
Proof.
  intro H. induction l as [| a l IH]; [reflexivity |].
  cbn [flat_map]. rewrite (H a (or_introl eq_refl)), IH; [reflexivity |].
  intros x Hx. apply H. right. exact Hx.
Qed.

(** Consecutive ranges join. *)
Lemma for_range_app (a b c : Z) :
  a <= b -> b <= c ->
  for_range (int a) (int b) ++ for_range (int b) (int c) =
  for_range (int a) (int c).
Proof.
  intros Hab Hbc. rewrite !for_range_int.
  replace (Z.to_nat (c - a)) with (Z.to_nat (b - a) + Z.to_nat (c - b))%nat
    by lia.
  rewrite seq_app, map_app. f_equal.
  rewrite (map_seq_from _ _ (0 + Z.to_nat (b - a))).
  apply map_ext. intro k. lia.
Qed.

(** The edges of the cells: the first is 0, they do not decrease, and
    the last is the size or one below it. *)
Lemma cell_edges (size count : Z) :
  0 <= size < 2 ^ 32 -> 1 <= count < 2 ^ 53 ->
  exists edge : Z -> Z,
    (forall k, 0 <= k <= count ->
       Math_floor (fmul (int k) (fdiv (int size) (int count))) = int (edge k)) /\
    edge 0 = 0 /\
    (forall k, 0 <= k < count -> edge k <= edge (k + 1)) /\
    size - 1 <= edge count <= size /\ 0 <= edge count.
Proof.
  intros Hs Hc.
  destruct (Z.eq_dec size 0) as [-> | Ns].
  - exists (fun _ => 0). split; [| repeat split; lia].
    intros k Hk. rewrite fdiv_finite by (apply inject_Z_nonzero; lia).
    rewrite round_zero by (unfold Qdiv; ring).
    cbn [fmul]. rewrite round_zero by ring. reflexivity.
  - destruct (cell_width_near size count) as [cw [Ecw [Hlo [Hhi [Hc0 [Hc1 _]]]]]];
      [lia | lia |].
    rewrite Ecw.
    assert (Qc : (1 <= inject_Z count)%Q)
      by (change 1%Q with (inject_Z 1); rewrite <- Zle_Qle; lia).
    assert (Qs : (1 <= inject_Z size)%Q)
      by (change 1%Q with (inject_Z 1); rewrite <- Zle_Qle; lia).
    assert (Qs' : (inject_Z size < 4294967296)%Q)
      by (change (inject_Z size < inject_Z 4294967296)%Q;
          rewrite <- Zlt_Qlt; lia).
    (* every product is finite *)
    assert (Hfin : forall k, 0 <= k <= count ->
              exists p, round (inject_Z k * cw) = Fin p /\ (0 <= p)%Q /\
                        (p <= inject_Z size + (1 # 2097152))%Q).
    { intros k Hk.
      assert (Qk0 : (0 <= inject_Z k)%Q)
        by (change 0%Q with (inject_Z 0); rewrite <- Zle_Qle; lia).
      assert (Qkc : (inject_Z k <= inject_Z count)%Q)
        by (rewrite <- Zle_Qle; lia).
      apply (round_below (inject_Z k * cw)
               (inject_Z size + (1 # 2097152)) (size * 2 ^ 21 + 1) (-21)).
      - apply Qmult_le_0_compat; [exact Qk0 | lra].
      - apply Qle_trans with (inject_Z count * cw)%Q;
          [apply Qmult_le_compat_r; [exact Qkc | lra] |].
        clear - Hhi Qs'. lra.
      - lia.
      - lia.
      - rewrite inject_Z_plus, inject_Z_mult.
        change (pow2 (-21)) with (1 # 2097152)%Q.
        change (inject_Z (2 ^ 21)) with 2097152%Q.
        change (inject_Z 1) with 1%Q. field. }
    exists (fun k => match round (inject_Z k * cw) with
                     | Fin p => Qfloor p
                     | _ => 0
                     end).
    split; [| split; [| split]].
    + intros k Hk. cbn [fmul].
      destruct (Hfin k Hk) as [p [-> _]]. reflexivity.
    + rewrite round_zero by ring. reflexivity.
    + intros k Hk.
      destruct (Hfin (k + 1)) as [p' [Ep' [Hp0' Hp1']]]; [lia |].
      assert (Qk0 : (0 <= inject_Z k)%Q)
        by (change 0%Q with (inject_Z 0); rewrite <- Zle_Qle; lia).
      destruct (round_le (inject_Z k * cw) (inject_Z (k + 1) * cw) p')
        as [p [Ep [Hp0 Hp1]]].
      * apply Qmult_le_0_compat; [exact Qk0 | lra].
      * apply Qmult_le_compat_r; [rewrite <- Zle_Qle; lia | lra].
      * exact Ep'.
      * rewrite Ep, Ep'. apply Qfloor_resp_le. exact Hp1.
    + destruct (Hfin count) as [p [Ep [Hp0 Hp1]]]; [lia |].
      rewrite Ep.
      assert (Hup : Qfloor p <= size).
      { assert (H : (inject_Z (Qfloor p) < inject_Z (size + 1))%Q).
        { eapply Qle_lt_trans; [apply Qfloor_le |].
          rewrite inject_Z_plus. change (inject_Z 1) with 1%Q. lra. }
        rewrite <- Zlt_Qlt in H. lia. }
      assert (Hdn : size - 1 <= Qfloor p).
      { rewrite <- (Qfloor_Z (size - 1)). apply Qfloor_resp_le.
        destruct (round_near (inject_Z count * cw)) as [q [Eq [Hq0 _]]].
        - apply Qle_trans with (pow2 (-1)); [apply pow2_le; unfold emin; lia |].
          change (pow2 (-1)) with (1 # 2)%Q.
          rewrite (Qmult_comm (inject_Z count) cw). clear - Hlo Qs. lra.
        - apply Qlt_le_trans with (pow2 33); [| apply pow2_le; lia].
          change (pow2 (-53)) with (1 # 9007199254740992)%Q.
          change (pow2 33) with 8589934592%Q.
          rewrite (Qmult_comm (inject_Z count) cw). clear - Hhi Qs'. lra.
        - assert (E : q = p) by congruence. subst q.
          change (pow2 (-53)) with (1 # 9007199254740992)%Q in Hq0.
          rewrite (Qmult_comm (inject_Z count) cw) in Hq0.
          unfold Z.sub. rewrite inject_Z_plus.
          change (inject_Z (- (1))) with (- (1))%Q.
          clear - Hq0 Hlo Qs Qs'. nra. }
      split; [split; assumption |].
      change 0 with (Qfloor 0). apply Qfloor_resp_le. exact Hp0.
Qed.

(** The ranges between consecutive edges, joined, are the range up to
    the last edge. *)
Lemma ranges_tile (edge : Z -> Z) (n : nat) :
  edge 0 = 0 ->
  (forall k, 0 <= k < Z.of_nat n -> edge k <= edge (k + 1)) ->
  flat_map (fun k => for_range (int (edge (Z.of_nat k)))
                               (int (edge (Z.of_nat k + 1)))) (seq 0 n) =
  for_range (int 0) (int (edge (Z.of_nat n))).
Proof.
  intros H0 Hmono. induction n as [| n IH].
  - cbn [seq flat_map]. change (Z.of_nat 0) with 0. rewrite H0.
    rewrite for_range_int. reflexivity.
  - rewrite seq_S, flat_map_app. cbn [flat_map Nat.add]. rewrite app_nil_r.
    rewrite IH by (intros k Hk; apply Hmono; lia).
    replace (Z.of_nat (S n)) with (Z.of_nat n + 1) by lia.
    apply for_range_app.
    + assert (G : forall m : nat, (m <= n)%nat -> 0 <= edge (Z.of_nat m)).
      { induction m as [| m IHm]; intro Hm.
        - change (Z.of_nat 0) with 0. lia.
        - replace (Z.of_nat (S m)) with (Z.of_nat m + 1) by lia.
          pose proof (Hmono (Z.of_nat m) ltac:(lia)).
          pose proof (IHm ltac:(lia)). lia. }
      apply G. lia.
    + apply Hmono. lia.
Qed.

(** X16.  The cells of a row read the pixel columns 0, 1, 2, ... in
    order, each once, up to the width or one short of it: only the last
    column can be left out.  The rows of cells do the same with the
    pixel rows. *)
Theorem X16_cells_tile (img : ImageData) (C R : nat) :
  Z.of_N (width img) < 2 ^ 32 -> Z.of_N (height img) < 2 ^ 32 ->
  (1 <= C)%nat -> (1 <= R)%nat -> countable C -> countable R ->
  let cw := cellWidth_of img C in
  let ch := cellHeight_of img R in
  exists X Y : Z,
    Z.of_N (width img) - 1 <= X <= Z.of_N (width img) /\ 0 <= X /\
    Z.of_N (height img) - 1 <= Y <= Z.of_N (height img) /\ 0 <= Y /\
    (forall row,
       flat_map (fun col => for_range (startX (cell_rect cw ch row col))
                                      (endX (cell_rect cw ch row col)))
                (seq 0 C) = map Z.of_nat (seq 0 (Z.to_nat X))) /\
    (forall col,
       flat_map (fun row => for_range (startY (cell_rect cw ch row col))
                                      (endY (cell_rect cw ch row col)))
                (seq 0 R) = map Z.of_nat (seq 0 (Z.to_nat Y))).
Proof.
  intros Hw Hh HC HR Hc Hr cw ch. unfold countable in *.
  destruct (cell_edges (Z.of_N (width img)) (Z.of_nat C))
    as [ex [Ex [Ex0 [Exm [Exl Exn]]]]]; [lia | lia |].
  destruct (cell_edges (Z.of_N (height img)) (Z.of_nat R))
    as [ey [Ey [Ey0 [Eym [Eyl Eyn]]]]]; [lia | lia |].
  exists (ex (Z.of_nat C)), (ey (Z.of_nat R)).
  split; [exact Exl |]. split; [exact Exn |].
  split; [exact Eyl |]. split; [exact Eyn |].
  assert (Hzero : forall n, for_range (int 0) (int n) =
                            map Z.of_nat (seq 0 (Z.to_nat n))).
  { intro n. rewrite for_range_int, Z.sub_0_r. apply map_ext. intro k. lia. }
  split.
  - intro row. rewrite <- Hzero, <- (ranges_tile ex C Ex0 Exm).
    apply flat_map_ext_within. intros col Hcol. apply in_seq in Hcol.
    unfold cell_rect, cw, cellWidth_of. cbn [startX endX].
    rewrite (of_Z_exact (Z.of_nat col)), (of_Z_exact 1),
            (of_Z_exact (Z.of_nat C)), (of_Z_exact (Z.of_N (width img)))
      by lia.
    rewrite fadd_exact by lia.
    rewrite !Ex by lia. reflexivity.
  - intro col. rewrite <- Hzero, <- (ranges_tile ey R Ey0 Eym).
    apply flat_map_ext_within. intros row Hrow. apply in_seq in Hrow.
    unfold cell_rect, ch, cellHeight_of. cbn [startY endY].
    rewrite (of_Z_exact (Z.of_nat row)), (of_Z_exact 1),
            (of_Z_exact (Z.of_nat R)), (of_Z_exact (Z.of_N (height img)))
      by lia.
    rewrite fadd_exact by lia.
    rewrite !Ey by lia. reflexivity.
Qed.

Lemma X16_witness :
  exists X Y : Z,
    2 - 1 <= X <= 2 /\ 0 <= X /\ 1 - 1 <= Y <= 1 /\ 0 <= Y /\
    (forall row,
       flat_map (fun col =>
                   for_range (startX (cell_rect (cellWidth_of two_pixels 49)
                                        (cellHeight_of two_pixels 1) row col))
                             (endX (cell_rect (cellWidth_of two_pixels 49)
                                      (cellHeight_of two_pixels 1) row col)))
                (seq 0 49) = map Z.of_nat (seq 0 (Z.to_nat X))) /\
    (forall col,
       flat_map (fun row =>
                   for_range (startY (cell_rect (cellWidth_of two_pixels 49)
                                        (cellHeight_of two_pixels 1) row col))
                             (endY (cell_rect (cellWidth_of two_pixels 49)
                                      (cellHeight_of two_pixels 1) row col)))
                (seq 0 1) = map Z.of_nat (seq 0 (Z.to_nat Y))).
Proof.
  apply (X16_cells_tile two_pixels 49 1).
  - reflexivity.
  - reflexivity.
  - lia.
  - lia.
  - unfold countable. lia.
  - unfold countable. lia.
Defined.

End Tiling.

(** ** Further edges *)

Section Edges.

Local Open Scope Z_scope.

(** X17.  The text of a conversion with the table of a charset holds
    nothing but glyphs of that charset and line terminators. *)
Theorem X17_conversion_uses_charset (img : ImageData) (C R : nat)
  (charset : jsstring) (invert colorMode : bool) :
  raster_buffer img -> countable C -> countable R ->
  charset <> [] -> countable (length charset) ->
  exists lut,
    createBrightnessLUT charset invert = Ok lut /\
    Forall (fun u => u = newline \/ In u charset)
           (ascii (imageDataToAscii img C R lut colorMode)).
Proof.
  intros Hwf Hc Hr Hne Hcs.
  destruct (createBrightnessLUT_entries charset invert Hne) as [lut [E [L Hn]]].
  exists lut. split; [exact E |].
  destruct (conversion_grid img C R lut colorMode Hwf Hc Hr)
    as [grid [[_ F] ->]].
  unfold render. apply Forall_forall. intros u Hu.
  apply in_flat_map in Hu. destruct Hu as [line [Hline Hu]].
  apply in_app_or in Hu. destruct Hu as [Hu | [<- | []]]; [| left; reflexivity].
  right. apply in_flat_map in Hu. destruct Hu as [l [Hl Hu]].
  rewrite Forall_forall in F. destruct (F line Hline) as [_ Fl].
  rewrite Forall_forall in Fl. specialize (Fl l Hl).
  destruct (table_entry charset invert l Hne Hcs Fl) as [i [_ [Hi Ei]]].
  rewrite E in Ei. cbn [table_of] in Ei. rewrite Ei in Hu.
  cbn [to_string] in Hu. destruct Hu as [<- | []].
  apply nth_In. lia.
Qed.

Lemma X17_witness :
  exists lut,
    createBrightnessLUT (CHARSETS blocks) true = Ok lut /\
    Forall (fun u => u = newline \/ In u (CHARSETS blocks))
           (ascii (imageDataToAscii two_pixels 2 1 lut true)).
Proof.
  apply (X17_conversion_uses_charset two_pixels 2 1 (CHARSETS blocks)
           true true).
  - unfold raster_buffer. cbn. lia.
  - unfold countable. lia.
  - unfold countable. lia.
  - discriminate.
  - unfold countable. cbn. lia.
Defined.

(** X18.  A grid without columns converts to R empty lines (and R empty
    colors), a grid without rows to the empty text, whatever the
    raster. *)
Theorem X18_empty_grid (img : ImageData) (C R : nat) (lut : list value)
  (colorMode : bool) :
  imageDataToAscii img 0 R lut colorMode =
    {| ascii := repeat newline R;
       colors := if colorMode then Some (repeat [] R) else None |} /\
  imageDataToAscii img C 0 lut colorMode =
    {| ascii := []; colors := if colorMode then Some [] else None |}.
Proof.
  split; [| reflexivity].
  rewrite (conversion_eta (imageDataToAscii img 0 R lut colorMode)).
  destruct (imageDataToAscii_rows img 0 R lut colorMode) as [-> ->].
  set (cw := cellWidth_of img 0). set (ch := cellHeight_of img R).
  clearbody cw ch.
  assert (Ga : forall s,
            flat_map (fun row =>
                        rowString (convert_row img cw ch lut colorMode 0 row)
                        ++ [newline]) (seq s R) = repeat newline R).
  { clear. induction R as [| R IH]; intro s; [reflexivity |].
    cbn [seq flat_map repeat]. rewrite IH. reflexivity. }
  assert (Gc : forall s,
            map (fun row => rowColor (convert_row img cw ch lut colorMode 0 row))
                (seq s R) = repeat [] R).
  { clear. induction R as [| R IH]; intro s; [reflexivity |].
    cbn [seq map repeat]. rewrite IH. reflexivity. }
  rewrite Ga. f_equal.
  destruct colorMode; [| reflexivity]. rewrite Gc. reflexivity.
Qed.

End Edges.

(** ** A buffer without bytes *)

Section Missing.

Local Open Scope Z_scope.

Lemma data_at_nil (i : number) : data_at [] i = NaN.
Proof.
  unfold data_at. destruct (index_of i) as [k |]; [| reflexivity].
  destruct k; reflexivity.
Qed.

Lemma fadd_NaN (a : number) : fadd a NaN = NaN.
Proof. destruct a; reflexivity. Qed.

Lemma add_pixel_missing (img : ImageData) (y x n : Z) (s : sums) :
  data img = [] -> pixelCount s = int n -> 0 <= n < 2 ^ 53 - 1 ->
  add_pixel img y x s = missing_sums (n + 1).
Proof.
  intros Hd Hp Hn. unfold add_pixel, missing_sums.
  rewrite Hd, !data_at_nil, !fadd_NaN, Hp.
  rewrite (of_Z_exact 1) by lia. rewrite fadd_exact by lia. reflexivity.
Qed.

Lemma row_missing (img : ImageData) (y : Z) (xs : list Z) (n : Z) :
  data img = [] -> 0 <= n -> n + Z.of_nat (length xs) < 2 ^ 53 ->
  fold_left (fun s x => add_pixel img y x s) xs (missing_sums n) =
  missing_sums (n + Z.of_nat (length xs)).
Proof.
  intros Hd. revert n. induction xs as [| x xs IH]; intros n Hn Hlen.
  - cbn [fold_left length]. rewrite Z.add_0_r. reflexivity.
  - cbn [fold_left length] in *.
    rewrite (add_pixel_missing img y x n) by (try reflexivity; assumption || lia).
    rewrite IH by lia. f_equal. lia.
Qed.

Lemma rows_missing (img : ImageData) (ys xs : list Z) (n : Z) :
  data img = [] -> 0 <= n ->
  n + Z.of_nat (length ys) * Z.of_nat (length xs) < 2 ^ 53 ->
  fold_left (fun s y => fold_left (fun s x => add_pixel img y x s) xs s) ys
            (missing_sums n) =
  missing_sums (n + Z.of_nat (length ys) * Z.of_nat (length xs)).
Proof.
  intros Hd. revert n. induction ys as [| y ys IH]; intros n Hn Hlen.
  - cbn [fold_left length]. rewrite Z.mul_0_l, Z.add_0_r. reflexivity.
  - cbn [fold_left length] in *.
    rewrite row_missing by (assumption || nia).
    rewrite IH by nia. f_equal. lia.
Qed.

Lemma length_pixels (sx ex sy ey : Z) :
  Z.of_nat (length (pixels {| startX := int sx; endX := int ex;
                              startY := int sy; endY := int ey |})) =
  Z.of_nat (length (for_range (int sy) (int ey))) *
  Z.of_nat (length (for_range (int sx) (int ex))).
Proof.
  unfold pixels. cbn [startX endX startY endY].
  induction (for_range (int sy) (int ey)) as [| y ys IH];
    cbn [flat_map length]; [lia |].
  rewrite length_app, length_map. lia.
Qed.

Lemma row_first_missing (img : ImageData) (y : Z) (xs : list Z) (n : Z)
  (s : sums) :
  data img = [] -> pixelCount s = int n -> xs <> [] -> 0 <= n ->
  n + Z.of_nat (length xs) < 2 ^ 53 ->
  fold_left (fun s x => add_pixel img y x s) xs s =
  missing_sums (n + Z.of_nat (length xs)).
Proof.
  intros Hd Hp Hne Hn Hlen. destruct xs as [| x xs]; [congruence |].
  cbn [fold_left length] in *.
  rewrite (add_pixel_missing img y x n) by (assumption || lia).
  rewrite row_missing by (assumption || lia). f_equal. lia.
Qed.

(** The sums of a rectangle with a pixel, over a buffer without bytes. *)
Lemma cell_sums_missing (img : ImageData) (sx ex sy ey : Z) :
  let r := {| startX := int sx; endX := int ex;
              startY := int sy; endY := int ey |} in
  data img = [] -> pixels r <> [] ->
  Z.of_nat (length (pixels r)) < 2 ^ 53 ->
  cell_sums img r = missing_sums (Z.of_nat (length (pixels r))).
Proof.
  intros r Hd Hne Hlen. unfold r in *. rewrite length_pixels in *.
  unfold cell_sums, pixels in *. cbn [startX endX startY endY] in *.
  set (xs := for_range (int sx) (int ex)) in *.
  set (ys := for_range (int sy) (int ey)) in *.
  clearbody xs ys.
  assert (Hxs : xs <> []).
  { intros ->. apply Hne. clear. induction ys; [reflexivity | assumption]. }
  destruct ys as [| y ys]; [exfalso; apply Hne; reflexivity |].
  cbn [fold_left length] in *.
  rewrite (row_first_missing img y xs 0) by (reflexivity || assumption || nia).
  rewrite rows_missing by (assumption || nia).
  f_equal. lia.
Qed.

Lemma cell_rect_integer (img : ImageData) (cols rows row col : nat) :
  Z.of_N (width img) < 2 ^ 32 -> Z.of_N (height img) < 2 ^ 32 ->
  countable cols -> countable rows ->
  (col < cols)%nat -> (row < rows)%nat ->
  rect_within img
    (cell_rect (cellWidth_of img cols) (cellHeight_of img rows) row col).
Proof.
  intros Hw Hh Hc Hr Hcol Hrow. unfold countable in *.
  unfold cell_rect, cellWidth_of, cellHeight_of.
  rewrite (of_Z_exact (Z.of_nat col)), (of_Z_exact (Z.of_nat row)),
          (of_Z_exact 1), (of_Z_exact (Z.of_nat cols)),
          (of_Z_exact (Z.of_nat rows)), (of_Z_exact (Z.of_N (width img))),
          (of_Z_exact (Z.of_N (height img))) by lia.
  rewrite !fadd_exact by lia.
  destruct (cell_edge (Z.of_N (width img)) (Z.of_nat cols) (Z.of_nat col))
    as [sx [Esx Hsx]]; [lia | lia | lia |].
  destruct (cell_edge (Z.of_N (width img)) (Z.of_nat cols) (Z.of_nat col + 1))
    as [ex [Eex Hex]]; [lia | lia | lia |].
  destruct (cell_edge (Z.of_N (height img)) (Z.of_nat rows) (Z.of_nat row))
    as [sy [Esy Hsy]]; [lia | lia | lia |].
  destruct (cell_edge (Z.of_N (height img)) (Z.of_nat rows) (Z.of_nat row + 1))
    as [ey [Eey Hey]]; [lia | lia | lia |].
  rewrite Esx, Eex, Esy, Eey.
  exists sx, ex, sy, ey. repeat split; lia.
Qed.

(** X19.  A buffer that lacks the bytes of its pixels raises no error: a
    cell with a pixel reads [undefined], its sums become NaN, and it
    adds the text ["undefined"] to its row and the color
    ["rgb(NaN, NaN, NaN)"]. *)
Theorem X19_missing_bytes_print_undefined (img : ImageData) (C R row col : nat)
  (lut : list value) :
  data img = [] ->
  Z.of_N (width img) < 2 ^ 32 -> Z.of_N (height img) < 2 ^ 32 ->
  Z.of_N (width img) * Z.of_N (height img) < 2 ^ 53 ->
  countable C -> countable R -> (row < R)%nat -> (col < C)%nat ->
  let cw := cellWidth_of img C in
  let ch := cellHeight_of img R in
  pixels (cell_rect cw ch row col) <> [] ->
  cell_text lut (cell img cw ch row col) = lit "undefined" /\
  rgb (cell img cw ch row col) = lit "rgb(NaN, NaN, NaN)".
Proof.
  intros Hd Hw Hh Hwh Hc Hr Hrow Hcol cw ch Hne.
  destruct (cell_rect_integer img C R row col Hw Hh Hc Hr Hcol Hrow)
    as [sx [ex [sy [ey [E [Hsx [Hex [Hsy Hey]]]]]]]].
  fold cw ch in E. unfold cell. rewrite E in *.
  assert (Hlen : Z.of_nat (length (pixels
                   {| startX := int sx; endX := int ex;
                      startY := int sy; endY := int ey |})) < 2 ^ 53).
  { rewrite length_pixels.
    destruct (range_within img sx ex (Z.of_N (width img))) as [_ Lx];
      [lia | lia | lia |].
    destruct (range_within img sy ey (Z.of_N (height img))) as [_ Ly];
      [lia | lia | lia |].
    pose proof (Nat2Z.is_nonneg (length (for_range (int sx) (int ex)))).
    pose proof (Nat2Z.is_nonneg (length (for_range (int sy) (int ey)))).
    nia. }
  rewrite (cell_sums_missing img sx ex sy ey Hd Hne Hlen).
  set (n := Z.of_nat (length _)) in *.
  assert (Hn : 0 < n).
  { unfold n.
    destruct (pixels {| startX := int sx; endX := int ex;
                        startY := int sy; endY := int ey |});
      [congruence | cbn [length]; lia]. }
  split.
  - unfold cell_text, missing_sums. cbn [pixelCount].
    unfold fgt. rewrite (of_Z_exact 0), flt_int by lia.
    destruct (Z.ltb_spec 0 n); [reflexivity | lia].
  - reflexivity.
Qed.

Lemma X19_witness :
  cell_text simple_lut
    (cell {| data := []; width := 1; height := 1 |}
          (cellWidth_of {| data := []; width := 1; height := 1 |} 1)
          (cellHeight_of {| data := []; width := 1; height := 1 |} 1) 0 0)
    = lit "undefined" /\
  rgb (cell {| data := []; width := 1; height := 1 |}
            (cellWidth_of {| data := []; width := 1; height := 1 |} 1)
            (cellHeight_of {| data := []; width := 1; height := 1 |} 1) 0 0)
    = lit "rgb(NaN, NaN, NaN)".
Proof.
  apply (X19_missing_bytes_print_undefined
           {| data := []; width := 1; height := 1 |} 1 1 0 0 simple_lut).
  - reflexivity.
  - reflexivity.
  - reflexivity.
  - reflexivity.
  - unfold countable. lia.
  - unfold countable. lia.
  - lia.
  - lia.
  - vm_compute. discriminate.
Defined.

End Missing.

(** ** The display *)

Section Display.

Local Open Scope Z_scope.

Lemma split_line (sep : code_unit) (l rest : jsstring) :
  ~ In sep l -> split sep (l ++ sep :: rest) = l :: split sep rest.
Proof.
  intro Hl. induction l as [| c l IH]; cbn [app split].
  - rewrite N.eqb_refl. reflexivity.
  - destruct (N.eqb_spec c sep) as [-> | Hc].
    + exfalso. apply Hl. left. reflexivity.
    + rewrite IH; [reflexivity |]. intro H. apply Hl. right. exact H.
Qed.

(** Splitting terminated lines gives the lines back, and an empty piece
    after the last terminator. *)
Lemma split_lines (sep : code_unit) (lines : list jsstring) :
  Forall (fun l => ~ In sep l) lines ->
  split sep (flat_map (fun l => l ++ [sep]) lines) = lines ++ [[]].
Proof.
  intro H. induction H as [| l lines Hl _ IH]; [reflexivity |].
  cbn [flat_map app]. rewrite <- app_assoc. cbn [app].
  rewrite split_line by exact Hl. rewrite IH. reflexivity.
Qed.

Lemma terminated_lines {A : Type} (f : A -> jsstring) (l : list A) :
  flat_map (fun a => f a ++ [newline]) l =
  flat_map (fun line => line ++ [newline]) (map f l).
Proof.
  induction l as [| a l IH]; [reflexivity |].
  cbn [flat_map map]. rewrite IH. reflexivity.
Qed.

(** On a raster buffer the text of a row holds no line terminator when
    the table holds none. *)
Lemma row_without_newline (img : ImageData) (C R row : nat)
  (lut : list value) (colorMode : bool) :
  raster_buffer img -> is_lut lut -> countable C -> countable R ->
  ~ In (VString [newline]) lut -> (row < R)%nat ->
  ~ In newline
       (rowString (convert_row img (cellWidth_of img C) (cellHeight_of img R)
                               lut colorMode C row)).
Proof.
  intros Hwf Hlut Hc Hr Hnl Hrow.
  rewrite rowString_convert_row. intro Hin.
  apply in_flat_map in Hin. destruct Hin as [col [Hcol Hin]].
  apply in_seq in Hcol.
  destruct (cell_sums_exact img Hwf _
              (cell_rect_within img C R row col Hwf Hc Hr
                 ltac:(lia) Hrow)) as [n [Hs Hn]].
  destruct (cell_text_entry lut n _ Hs ltac:(lia)) as [l [Hl El]].
  unfold cell in Hin. rewrite El in Hin.
  destruct Hlut as [L F].
  assert (Hv : In (nth l lut VUndefined) lut) by (apply nth_In; lia).
  rewrite forallb_forall in F. specialize (F _ Hv).
  destruct (nth l lut VUndefined) as [| [| c [| c' s]]]; try discriminate F.
  cbn [to_string] in Hin. destruct Hin as [Hin | []]. subst c.
  apply Hnl. exact Hv.
Qed.

(** The pieces of the text of a conversion. *)
Lemma split_conversion (img : ImageData) (C R : nat) (lut : list value)
  (colorMode : bool) :
  raster_buffer img -> is_lut lut -> countable C -> countable R ->
  ~ In (VString [newline]) lut ->
  split newline (ascii (imageDataToAscii img C R lut colorMode)) =
  map (fun row =>
         rowString (convert_row img (cellWidth_of img C) (cellHeight_of img R)
                                lut colorMode C row))
      (seq 0 R) ++ [[]].
Proof.
  intros Hwf Hlut Hc Hr Hnl.
  destruct (imageDataToAscii_rows img C R lut colorMode) as [-> _].
  rewrite (terminated_lines
             (fun row =>
                rowString (convert_row img (cellWidth_of img C)
                             (cellHeight_of img R) lut colorMode C row))).
  apply split_lines.
  apply Forall_map, Forall_forall. intros row Hrow. apply in_seq in Hrow.
  apply row_without_newline; (assumption || lia).
Qed.

(** X20.  Splitting the text of a conversion at the line terminators
    gives R + 1 pieces: the R row texts, each of C characters, and one
    empty string after the last terminator. *)
Theorem X20_split_recovers_rows (img : ImageData) (C R : nat)
  (lut : list value) (colorMode : bool) :
  raster_buffer img -> is_lut lut -> countable C -> countable R ->
  ~ In (VString [newline]) lut ->
  let pieces :=
    split newline (ascii (imageDataToAscii img C R lut colorMode)) in
  pieces =
    map (fun row =>
           rowString (convert_row img (cellWidth_of img C)
                        (cellHeight_of img R) lut colorMode C row))
        (seq 0 R) ++ [[]] /\
  length pieces = S R /\
  (forall row, (row < R)%nat -> length (nth row pieces []) = C) /\
  nth R pieces (lit "x") = [].
Proof.
  intros Hwf Hlut Hc Hr Hnl pieces.
  pose proof (split_conversion img C R lut colorMode Hwf Hlut Hc Hr Hnl) as E.
  fold pieces in E. split; [exact E |]. rewrite E. split; [| split].
  - rewrite length_app, length_map, length_seq. cbn [length]. lia.
  - intros row Hrow.
    rewrite app_nth1 by (rewrite length_map, length_seq; exact Hrow).
    rewrite (nth_indep _ [] (rowString
               (convert_row img (cellWidth_of img C) (cellHeight_of img R)
                            lut colorMode C 0)))
      by (rewrite length_map, length_seq; exact Hrow).
    rewrite (map_nth (fun row =>
               rowString (convert_row img (cellWidth_of img C)
                            (cellHeight_of img R) lut colorMode C row))).
    rewrite seq_nth by exact Hrow. cbn [Nat.add].
    rewrite rowString_convert_row.
    assert (G : forall cs, Forall (fun col => (col < C)%nat) cs ->
              length (flat_map
                        (fun col => cell_text lut
                           (cell img (cellWidth_of img C) (cellHeight_of img R)
                                 row col)) cs) = length cs).
    { intros cs Hcs. induction Hcs as [| col cs Hcol _ IH]; [reflexivity |].
      cbn [flat_map length]. rewrite length_app, IH.
      destruct (cell_sums_exact img Hwf _
                  (cell_rect_within img C R row col Hwf Hc Hr Hcol Hrow))
        as [n [Hs Hn]].
      destruct (cell_text_entry lut n _ Hs ltac:(lia)) as [l [Hl El]].
      unfold cell. rewrite El, (glyph_length lut l Hlut Hl). reflexivity. }
    rewrite G, length_seq; [reflexivity |].
    apply Forall_forall. intros col Hcol. apply in_seq in Hcol. lia.
  - rewrite app_nth2 by (rewrite length_map, length_seq; lia).
    rewrite length_map, length_seq, Nat.sub_diag. reflexivity.
Qed.

(** The table of the charset ["simple"] holds no line terminator. *)
Lemma simple_lut_no_newline : ~ In (VString [newline]) simple_lut.
Proof.
  intro H. apply (In_nth _ _ VUndefined) in H. destruct H as [b [Hb E]].
  assert (L : length simple_lut = 256%nat) by (vm_compute; reflexivity).
  rewrite L in Hb.
  assert (Hne : CHARSETS simple <> []) by discriminate.
  assert (Hcs : countable (length (CHARSETS simple)))
    by (unfold countable; cbn; lia).
  destruct (table_entry (CHARSETS simple) false b Hne Hcs Hb)
    as [i [_ [Hi Ei]]].
  fold simple_lut in Ei. rewrite Ei in E.
  assert (Hcase : i = 0 \/ i = 1 \/ i = 2 \/ i = 3 \/ i = 4 \/ i = 5 \/
                  i = 6 \/ i = 7 \/ i = 8 \/ i = 9) by (cbn in Hi; lia).
  destruct Hcase
    as [-> | [-> | [-> | [-> | [-> | [-> | [-> | [-> | [-> | ->]]]]]]]]];
    discriminate E.
Qed.

Lemma X20_witness :
  split newline (ascii (imageDataToAscii gray_2x2 2 2 simple_lut true)) =
  [lit "=="; lit "=="; []].
Proof.
  assert (Hwf : raster_buffer gray_2x2) by (unfold raster_buffer; cbn; lia).
  assert (Hlut : is_lut simple_lut) by (split; vm_compute; reflexivity).
  assert (Hc : countable 2) by (unfold countable; lia).
  rewrite (proj1 (X20_split_recovers_rows gray_2x2 2 2 simple_lut true
                    Hwf Hlut Hc Hc simple_lut_no_newline)).
  vm_compute. reflexivity.
Defined.

Lemma indexed_app {A : Type} (l : list A) (a : A) :
  indexed (l ++ [a]) = indexed l ++ [(length l, a)].
Proof.
  unfold indexed.
  assert (G : forall s,
             combine (seq s (length (l ++ [a]))) (l ++ [a]) =
             combine (seq s (length l)) l ++ [((s + length l)%nat, a)]).
  { induction l as [| b l IH]; intro s; cbn [length app seq combine].
    - rewrite Nat.add_0_r. reflexivity.
    - rewrite IH, Nat.add_succ_r. reflexivity. }
  apply G.
Qed.

Lemma indexed_map_seq {A : Type} (f : nat -> A) (n : nat) :
  indexed (map f (seq 0 n)) = map (fun k => (k, f k)) (seq 0 n).
Proof.
  unfold indexed. rewrite length_map, length_seq.
  generalize 0%nat. induction n as [| n IH]; intro s; [reflexivity |].
  cbn [seq map combine]. rewrite IH. reflexivity.
Qed.

(** X21.  What [AsciiMirror] shows of a color conversion with at least
    one row: one block per row, with the text of the row and its color,
    a row without color (its last cell held no pixel) in
    ['currentColor'], and after them one empty block. *)
Theorem X21_renderAscii_rows (img : ImageData) (C R : nat)
  (lut : list value) (cs : list jsstring) :
  raster_buffer img -> is_lut lut -> countable C -> countable R ->
  ~ In (VString [newline]) lut -> (1 <= R)%nat ->
  colors (imageDataToAscii img C R lut true) = Some cs ->
  let line row :=
    convert_row img (cellWidth_of img C) (cellHeight_of img R) lut true C row in
  renderAscii true (ascii (imageDataToAscii img C R lut true)) cs =
  Lines (map (fun row =>
                (match rowColor (line row) with
                 | [] => lit "currentColor"
                 | color => color
                 end, rowString (line row)))
             (seq 0 R) ++ [(lit "currentColor", [])]).
Proof.
  intros Hwf Hlut Hc Hr Hnl HR Ecs line.
  pose proof (split_conversion img C R lut true Hwf Hlut Hc Hr Hnl) as Es.
  destruct (imageDataToAscii_rows img C R lut true) as [Ea Ec].
  rewrite Ecs in Ec.
  assert (Ecs' : cs = map (fun row => rowColor (line row)) (seq 0 R))
    by (cbv iota in Ec; injection Ec; auto).
  unfold renderAscii.
  destruct (ascii (imageDataToAscii img C R lut true)) as [| c0 text] eqn:Et.
  - exfalso. destruct R as [| R']; [lia |].
    cbn [seq flat_map] in Ea. symmetry in Ea.
    apply app_eq_nil in Ea. destruct Ea as [Ea _].
    apply app_eq_nil in Ea. destruct Ea as [_ Ea]. discriminate Ea.
  - rewrite Es.
    assert (Hlen : length cs = R)
      by (rewrite Ecs', length_map, length_seq; reflexivity).
    rewrite Hlen.
    destruct R as [| R']; [lia |]. cbn [Nat.eqb negb andb].
    f_equal. rewrite indexed_app, map_app, length_map, length_seq.
    rewrite indexed_map_seq, map_map. f_equal.
    + apply map_ext_in. intros row Hrow. apply in_seq in Hrow.
      cbn [fst snd]. f_equal. unfold color_or.
      rewrite Ecs'.
      rewrite nth_error_nth' with (d := rowColor (line 0%nat))
        by (rewrite length_map, length_seq; lia).
      rewrite (map_nth (fun row => rowColor (line row))), seq_nth by lia.
      cbn [Nat.add]. destruct (rowColor (line row)); reflexivity.
    + cbn [map fst snd]. do 2 f_equal. unfold color_or.
      assert (E : nth_error cs (S R') = None)
        by (apply nth_error_None; lia).
      rewrite E. reflexivity.
Qed.

Lemma X21_witness :
  renderAscii true (ascii (imageDataToAscii one_pixel 1 2 simple_lut true))
              [[]; lit "rgb(1, 2, 3)"] =
  Lines [(lit "currentColor", lit " "); (lit "rgb(1, 2, 3)", lit " ");
         (lit "currentColor", [])].
Proof.
  assert (Hwf : raster_buffer one_pixel) by (unfold raster_buffer; cbn; lia).
  assert (Hlut : is_lut simple_lut) by (split; vm_compute; reflexivity).
  assert (H1 : countable 1) by (unfold countable; lia).
  assert (H2 : countable 2) by (unfold countable; lia).
  assert (HR : (1 <= 2)%nat) by lia.
  assert (Ecs : colors (imageDataToAscii one_pixel 1 2 simple_lut true) =
                Some [[]; lit "rgb(1, 2, 3)"])
    by (vm_compute; reflexivity).
  rewrite (X21_renderAscii_rows one_pixel 1 2 simple_lut _
             Hwf Hlut H1 H2 simple_lut_no_newline HR Ecs).
  vm_compute. reflexivity.
Defined.

End Display.

(** ** The hotkeys *)

Section Hotkeys.

Local Open Scope Z_scope.

Lemma Math_max_int (a b : Z) : Math_max (int a) (int b) = int (Z.max a b).
Proof.
  unfold Math_max. rewrite flt_int.
  destruct (Z.ltb_spec a b); f_equal; f_equal; lia.
Qed.

Lemma Math_min_int (a b : Z) : Math_min (int a) (int b) = int (Z.min a b).
Proof.
  unfold Math_min. rewrite flt_int.
  destruct (Z.ltb_spec b a); f_equal; f_equal; lia.
Qed.

(** One key press keeps an integer column count within [40, 160] and
    moves it by at most 5. *)
Lemma handleKeyDown_cols (typing : bool) (key : jsstring)
  (s : SimpleAsciiMirror.AsciiMirrorSettings) (c : Z) :
  SimpleAsciiMirror.cols s = int c -> 40 <= c <= 160 ->
  exists c',
    SimpleAsciiMirror.cols (SimpleAsciiMirror.handleKeyDown typing key s)
      = int c' /\
    40 <= c' <= 160 /\ c - 5 <= c' <= c + 5 /\
    (c mod 5 = 0 -> c' mod 5 = 0) /\
    SimpleAsciiMirror.fpsLimit (SimpleAsciiMirror.handleKeyDown typing key s)
      = SimpleAsciiMirror.fpsLimit s /\
    SimpleAsciiMirror.charset (SimpleAsciiMirror.handleKeyDown typing key s)
      = SimpleAsciiMirror.charset s.
Proof.
  intros Ec Hc. unfold SimpleAsciiMirror.handleKeyDown.
  destruct typing; [exists c; repeat split; (assumption || lia) |].
  destruct (string_equal key (lit " "));
    [exists c; repeat split; (assumption || lia) |].
  destruct (string_equal key (lit "[")).
  { cbn [SimpleAsciiMirror.cols SimpleAsciiMirror.fpsLimit
         SimpleAsciiMirror.charset].
    rewrite Ec, (of_Z_exact 40), (of_Z_exact 5) by lia.
    rewrite fsub_exact by lia. rewrite Math_max_int.
    exists (Z.max 40 (c - 5)). repeat split; try lia.
    intro Hm. destruct (Z.max_spec 40 (c - 5)) as [[_ ->] | [_ ->]].
    - rewrite <- (Z.mod_add c (-1) 5) in Hm by lia.
      replace (c + -1 * 5) with (c - 5) in Hm by ring. exact Hm.
    - reflexivity. }
  destruct (string_equal key (lit "]")).
  { cbn [SimpleAsciiMirror.cols SimpleAsciiMirror.fpsLimit
         SimpleAsciiMirror.charset].
    rewrite Ec, (of_Z_exact 160), (of_Z_exact 5) by lia.
    rewrite fadd_exact by lia. rewrite Math_min_int.
    exists (Z.min 160 (c + 5)). repeat split; try lia.
    intro Hm. destruct (Z.min_spec 160 (c + 5)) as [[_ ->] | [_ ->]].
    - reflexivity.
    - rewrite <- (Z.mod_add c 1 5) in Hm by lia.
      replace (c + 1 * 5) with (c + 5) in Hm by ring. exact Hm. }
  destruct (string_equal key (lit "i"));
    [exists c; repeat split; (assumption || lia) |].
  destruct (string_equal key (lit "c"));
    exists c; repeat split; (assumption || lia).
Qed.

(** X22.  Whatever keys are pressed, a column count of
    [SimpleAsciiMirror] that is an integer of [40, 160], the range of
    its slider, stays one, and a multiple of 5 stays a multiple of 5;
    the frame rate limit and the charset are not touched by any key. *)
Theorem X22_hotkeys_keep_cols (keys : list (bool * jsstring))
  (s : SimpleAsciiMirror.AsciiMirrorSettings) (c : Z) :
  SimpleAsciiMirror.cols s = int c -> 40 <= c <= 160 ->
  let final := SimpleAsciiMirror.after_keys keys s in
  exists c',
    SimpleAsciiMirror.cols final = int c' /\ 40 <= c' <= 160 /\
    (c mod 5 = 0 -> c' mod 5 = 0) /\
    SimpleAsciiMirror.fpsLimit final = SimpleAsciiMirror.fpsLimit s /\
    SimpleAsciiMirror.charset final = SimpleAsciiMirror.charset s.
Proof.
  revert s c. induction keys as [| k keys IH]; intros s c Ec Hc final.
  - exists c. repeat split; (assumption || lia).
  - unfold final, SimpleAsciiMirror.after_keys. cbn [fold_left].
    destruct (handleKeyDown_cols (fst k) (snd k) s c Ec Hc)
      as [c1 [E1 [H1 [_ [M1 [F1 C1]]]]]].
    destruct (IH _ c1 E1 H1) as [c' [E' [H' [M' [F' C']]]]].
    exists c'. unfold SimpleAsciiMirror.after_keys in *.
    rewrite F', C', F1, C1.
    split; [exact E' |]. split; [exact H' |].
    split; [intro Hm; exact (M' (M1 Hm)) |]. split; reflexivity.
Qed.

Lemma X22_witness :
  exists c',
    SimpleAsciiMirror.cols
      (SimpleAsciiMirror.after_keys
         [(false, lit "["); (false, lit "["); (true, lit "]");
          (false, lit "c"); (false, lit "[")]
         SimpleAsciiMirror.initial) = int c' /\
    40 <= c' <= 160 /\ c' mod 5 = 0.
Proof.
  destruct (X22_hotkeys_keep_cols
              [(false, lit "["); (false, lit "["); (true, lit "]");
               (false, lit "c"); (false, lit "[")]
              SimpleAsciiMirror.initial 80)
    as [c' [E [H [M _]]]].
  - vm_compute. reflexivity.
  - lia.
  - exists c'. split; [exact E |]. split; [exact H |].
    apply M. reflexivity.
Defined.

End Hotkeys.
